(** * Bounded-concurrency pool: [runDependently] and [runIndependently]

    A shallow embedding of the scheduling engine of [src/index.ts] (array
    backed) and of its iterator-backed sibling, together with the
    properties of the engine that the specification states and further
    properties of the two files.

    The engine is single threaded: every piece of code between two
    suspension points runs atomically.  The embedding therefore has one
    transition per callback of the source:

    - the body of the promise executor (pre-fill, then the registration of
      [next] on [Promise.race(tasks)]) builds the initial state;
    - [Settle i]   the [.then] / [.catch] handlers of task [i];
    - [Finally i]  the [.finally] handler of task [i];
    - [Dequeue i]  [dequeue], which also wakes a pending [Promise.race];
    - [Next]       the body of [next] up to its [await];
    - [Resolve]    the continuation of [await Promise.all(tasks)].

    The order in which the event loop runs these callbacks is a schedule,
    a list of events; the theorems quantify over all schedules.  A task can
    settle at any time: [Settle i] is due as long as task [i] runs.

    The input is a finite list.  The work function is a function of the
    item and of its index that either throws or returns a promise together
    with the way this promise settles.  [isCanceled] and [onProgress] do not
    throw. *)

From Stdlib Require Import ZArith List Lia Bool QArith Qround Qminmax Lqa.
From stdpp Require Import base list gmap.

Set Implicit Arguments.

(** ** Options *)

(** The value found in the [threads] field of the options object.  A
    number is a rational: an integer such as [2] or a fraction such as
    [2.5], of either sign.  [NaN] and the two infinities are left out. *)
Inductive JsValue :=
| JsUndefined
| JsNumber (x : Q)
| JsOther.

(** [isNumber] of [@st-lib/is]. *)
Definition isNumber (v : JsValue) : bool :=
  match v with JsNumber _ => true | _ => false end.

(** [isCanceled] is a zero-argument closure of the caller.  What it answers
    may depend on how often it has been asked and on the settled count it
    has seen through [onProgress]; these are its two arguments here. *)
Definition CancelFn := nat -> nat -> bool.

Module IOptions.
(** [interface IOptions].  A field that is absent or does not hold a
    function is [None] ([isCanceled]) or [false] ([onProgress]). *)
Record t := Build {
  threads : JsValue;
  isCanceled : option CancelFn;
  onProgress : bool
}.
End IOptions.

(** [export const config = { defaultThreads: 4 }], a mutable object: the
    default can be assigned any number. *)
Record Config := { defaultThreads : Q }.

Definition config : Config := {| defaultThreads := 4 |}.

(** The object returned by [getOptions]. *)
Record Options := {
  threads : Q;
  isCanceled : option CancelFn;
  onProgress : bool
}.

Definition getOptions (cfg : Config) (options : option IOptions.t) : Options :=
  {| threads :=
       match options with
       | Some o =>
           match IOptions.threads o with
           | JsNumber x => Qmax x 2
           | _ => defaultThreads cfg
           end
       | None => defaultThreads cfg
       end;
     isCanceled :=
       match options with
       | Some o => IOptions.isCanceled o
       | None => None
       end;
     onProgress :=
       match options with
       | Some o => IOptions.onProgress o
       | None => false
       end |}.

(** ** Work functions, tasks and promises *)

(** How the promise returned by the work function settles. *)
Inductive Outcome (R E : Type) :=
| Fulfilled (r : R)
| Failed (e : E).
Arguments Fulfilled {R E} r.
Arguments Failed {R E} e.

(** What a call [cb(value, index, source)] does: it returns a promise, or
    throws before returning one. *)
Inductive CbResult (R E : Type) :=
| Returns (p : Outcome R E)
| Throws (e : E).
Arguments Returns {R E} p.
Arguments Throws {R E} e.

Definition Callback (T R E : Type) := T -> nat -> CbResult R E.

(** A work function that always returns a promise. *)
Definition async {T R E} (g : T -> nat -> Outcome R E) : Callback T R E :=
  fun v i => Returns (g v i).

(** A work function all of whose promises are fulfilled. *)
Definition succeeding {T R E} (f : T -> nat -> R) : Callback T R E :=
  async (fun v i => Fulfilled (f v i)).

(** The work function that rejects where [cb] throws. *)
Definition normalized {T R E} (cb : Callback T R E) : Callback T R E :=
  fun v i =>
    match cb v i with
    | Throws e => Returns (Failed e)
    | r => r
    end.

(** Where the chain [cb(..).then(..).catch(..).finally(..)] of a task
    stands: nothing ran yet, the [then]/[catch] handler ran, the [finally]
    handler ran. *)
Inductive Phase := Running | Handled | Counted.

Record Task (R E : Type) := {
  t_index : nat;
  t_promise : Outcome R E;
  t_phase : Phase
}.

(** The promise returned to the caller.  It is rejected with an error of
    the work function, or with the [RangeError] of [new Array(threads)]. *)
Inductive Promise (E : Type) :=
| Pending
| Resolved
| Rejected (e : E)
| RangeRejected.
Arguments Pending {E}.
Arguments Resolved {E}.
Arguments Rejected {E} e.
Arguments RangeRejected {E}.

(** [res(out)] and [rej(error)]: only the first call settles the promise. *)
Definition res {E} (p : Promise E) : Promise E :=
  match p with Pending => Resolved | _ => p end.

Definition rej {E} (e : E) (p : Promise E) : Promise E :=
  match p with Pending => Rejected e | _ => p end.

(** What the [next] chain is doing. *)
Inductive Engine :=
| Racing      (* [next] waits for [Promise.race(tasks)] *)
| Woken       (* the race is decided, [next] is due to run *)
| Draining    (* [next] waits for [Promise.all(tasks)] *)
| Finished    (* [res(out)] has been called *)
| Halted.     (* an exception escaped: no continuation is registered *)

(** The two source files differ in how the input is read. *)
Inductive Backend :=
| Indexed     (* [src/index.ts]: [array[index]], [array.length] *)
| Iterated.   (* the sibling file: [iter.next()] *)

(** ** Arrays with holes *)

(** What [new Array(x)] does with a number [x]: it makes an array of
    length [x] when [x] is an integer from [0] to [2^32 - 1], and throws a
    [RangeError] otherwise. *)
Definition arrayLength (x : Q) : option nat :=
  if Qeq_bool x (inject_Z (Qfloor x)) && (0 <=? Qfloor x)%Z && (Qfloor x <? 2 ^ 32)%Z
  then Some (Z.to_nat (Qfloor x))
  else None.

(** [n < x], for a count [n] and a number [x]. *)
Definition below (n : nat) (x : Q) : bool :=
  match (inject_Z (Z.of_nat n) ?= x)%Q with Lt => true | _ => false end.

(** [new Array(n)] *)
Definition newArray {A} (n : nat) : list (option A) := replicate n None.

(** [a.length = Math.max(a.length, n)] *)
Definition growArray {A} (n : nat) (a : list (option A)) : list (option A) :=
  a ++ replicate (n - length a) None.

(** [a[i] = x]; an assignment past the end extends the array. *)
Definition assign {A} (i : nat) (x : A) (a : list (option A)) : list (option A) :=
  if i <? length a then <[i := Some x]> a
  else a ++ replicate (i - length a) None ++ [Some x].

(** ** Outcome policies *)

(** The two entry points share the engine and differ in what the handlers
    of a task do with its outcome. *)
Record Policy (R E O : Type) := {
  newOut : nat -> O;
  growOut : nat -> O -> O;
  onFulfilled : nat -> R -> O -> O;
  onRejected : nat -> E -> O -> O;
  failFast : bool
}.

(** [runDependently]: [out[index] = result] and [.catch(reject)]. *)
Definition dependently (R E : Type) : Policy R E (list (option R)) :=
  {| newOut := newArray;
     growOut := fun n o => growArray n o;
     onFulfilled := fun index result o => assign index result o;
     onRejected := fun _ _ o => o;
     failFast := true |}.

(** [type Result<T>] *)
Inductive Result (R E : Type) :=
| ROk (data : R)
| RError (error : E).
Arguments ROk {R E} data.
Arguments RError {R E} error.

(** [interface Independent<T>] *)
Record Independent (R E : Type) := {
  results : list (option (Result R E));
  values : list (option R);
  errors : gmap nat E;
  ok : bool
}.

(** [runIndependently]: both handlers record the outcome in the bundle. *)
Definition independently (R E : Type) : Policy R E (Independent R E) :=
  {| newOut := fun n =>
       {| results := newArray n; values := newArray n; errors := ∅; ok := true |};
     growOut := fun n o =>
       {| results := growArray n (results o); values := growArray n (values o);
          errors := errors o; ok := ok o |};
     onFulfilled := fun index data o =>
       {| results := assign index (ROk data) (results o);
          values := assign index data (values o);
          errors := errors o; ok := ok o |};
     onRejected := fun index error o =>
       {| results := assign index (RError error) (results o);
          values := values o;
          errors := <[index := error]> (errors o); ok := false |};
     failFast := false |}.

(** ** The engine *)

(** The variables of one call.  [consumed] is the position of the iterator
    (it stays [0] for the array backend); [promise] is the promise returned
    to the caller; [rejections] lists the arguments of the calls of
    [reject], [polls] counts the calls of [isCanceled] and [progress] lists
    the arguments of the calls of [onProgress]. *)
Record State (R E O : Type) := {
  throwed : bool;
  readyCount : nat;
  currentIndex : nat;
  out : O;
  tasks : list (Task R E);
  consumed : nat;
  promise : Promise E;
  rejections : list E;
  engine : Engine;
  polls : nat;
  progress : list nat
}.

(** The callbacks that the event loop can run. *)
Inductive Event :=
| Settle (i : nat)
| Finally (i : nat)
| Dequeue (i : nat)
| Next
| Resolve.

Section Engine.
Context {T R E O : Type}.
Variable backend : Backend.
Variable pol : Policy R E O.
Variable source : list T.
Variable cb : Callback T R E.
Variable opts : Options.

Abbreviation St := (State R E O).

Definition with_engine (g : Engine) (s : St) : St :=
  {| throwed := throwed s; readyCount := readyCount s;
     currentIndex := currentIndex s; out := out s; tasks := tasks s;
     consumed := consumed s; promise := promise s;
     rejections := rejections s; engine := g; polls := polls s;
     progress := progress s |}.

Definition with_promise (p : Promise E) (s : St) : St :=
  {| throwed := throwed s; readyCount := readyCount s;
     currentIndex := currentIndex s; out := out s; tasks := tasks s;
     consumed := consumed s; promise := p;
     rejections := rejections s; engine := engine s; polls := polls s;
     progress := progress s |}.

Definition with_out (o : O) (s : St) : St :=
  {| throwed := throwed s; readyCount := readyCount s;
     currentIndex := currentIndex s; out := o; tasks := tasks s;
     consumed := consumed s; promise := promise s;
     rejections := rejections s; engine := engine s; polls := polls s;
     progress := progress s |}.

Definition with_tasks (ts : list (Task R E)) (s : St) : St :=
  {| throwed := throwed s; readyCount := readyCount s;
     currentIndex := currentIndex s; out := out s; tasks := ts;
     consumed := consumed s; promise := promise s;
     rejections := rejections s; engine := engine s; polls := polls s;
     progress := progress s |}.

(** *** The task list *)

Definition lookup_task (i : nat) (ts : list (Task R E)) : option (Task R E) :=
  find (fun t => t_index t =? i) ts.

(** The handlers of a task are closures over that task: they touch one
    entry of the list. *)
Fixpoint set_phase (i : nat) (ph : Phase) (ts : list (Task R E)) : list (Task R E) :=
  match ts with
  | [] => []
  | t :: ts' =>
      if t_index t =? i
      then {| t_index := t_index t; t_promise := t_promise t; t_phase := ph |} :: ts'
      else t :: set_phase i ph ts'
  end.

(** [tasks.indexOf(task)] followed by [tasks.splice(idx, 1)] *)
Fixpoint remove_task (i : nat) (ts : list (Task R E)) : list (Task R E) :=
  match ts with
  | [] => []
  | t :: ts' => if t_index t =? i then ts' else t :: remove_task i ts'
  end.

(** *** Reading the input *)

(** One read of the input: [array[currentIndex]] guarded by
    [currentIndex < array.length], or [iter.next()], which moves the
    iterator unless it is done. *)
Definition pull (s : St) : option T * St :=
  match backend with
  | Indexed => (source !! currentIndex s, s)
  | Iterated =>
      match source !! consumed s with
      | Some value =>
          (Some value,
           {| throwed := throwed s; readyCount := readyCount s;
              currentIndex := currentIndex s; out := out s; tasks := tasks s;
              consumed := S (consumed s); promise := promise s;
              rejections := rejections s; engine := engine s; polls := polls s;
              progress := progress s |})
      | None => (None, s)
      end
  end.

(** *** [put] and [queue] *)

(** [put]: the call of [cb] comes before [queue] and before
    [currentIndex++], so a throwing [cb] leaves both undone. *)
Definition put (value : T) (s : St) : St * option E :=
  let index := currentIndex s in
  let s1 :=
    match backend with
    | Indexed => s
    | Iterated => with_out (growOut pol (index + 1) (out s)) s
    end in
  match cb value index with
  | Throws e => (s1, Some e)
  | Returns p =>
      ({| throwed := throwed s1; readyCount := readyCount s1;
          currentIndex := S index; out := out s1;
          tasks := tasks s1 ++ [{| t_index := index; t_promise := p; t_phase := Running |}];
          consumed := consumed s1; promise := promise s1;
          rejections := rejections s1; engine := engine s1; polls := polls s1;
          progress := progress s1 |}, None)
  end.

(** *** The pre-fill loop *)

Fixpoint prefill (fuel : nat) (s : St) : St * option E :=
  match fuel with
  | 0 => (s, None)
  | S fuel' =>
      let (it, s1) := pull s in
      match it with
      | Some value =>
          if below (currentIndex s1) (threads opts) then
            match put value s1 with
            | (s2, None) => prefill fuel' s2
            | (s2, Some e) => (s2, Some e)
            end
          else (s1, None)
      | None => (s1, None)
      end
  end.

(** The length of the array that the executor allocates:
    [new Array(array.length)], or [new Array(threads)], which can throw. *)
Definition outLength : option nat :=
  match backend with
  | Indexed => Some (length source)
  | Iterated => arrayLength (threads opts)
  end.

(** The variables of the call before the pre-fill loop.  When the
    allocation throws there is no array, and nothing reads [out]. *)
Definition initial : St :=
  {| throwed := false; readyCount := 0; currentIndex := 0;
     out := newOut pol (match outLength with Some n => n | None => 0 end);
     tasks := []; consumed := 0; promise := Pending; rejections := [];
     engine := Halted; polls := 0; progress := [] |}.

(** The body of the promise executor.  An exception that escapes it
    rejects the promise: the [RangeError] of the allocation, before
    anything is read or called, or what the work function throws in the
    pre-fill loop.  Otherwise [next] is registered on the race. *)
Definition executor : St :=
  match outLength with
  | None => with_promise RangeRejected initial
  | Some _ =>
      match prefill (S (length source)) initial with
      | (s, Some e) => with_promise (rej e (promise s)) s
      | (s, None) => if throwed s then s else with_engine Racing s
      end
  end.

(** *** The handlers of a task *)

(** [.then(result => ...)] and [.catch(...)] of the task. *)
Definition settle (t : Task R E) (s : St) : St :=
  let ts := set_phase (t_index t) Handled (tasks s) in
  match t_promise t with
  | Fulfilled r =>
      with_tasks ts (with_out (onFulfilled pol (t_index t) r (out s)) s)
  | Failed e =>
      if failFast pol then
        {| throwed := true; readyCount := readyCount s;
           currentIndex := currentIndex s; out := onRejected pol (t_index t) e (out s);
           tasks := ts; consumed := consumed s; promise := rej e (promise s);
           rejections := rejections s ++ [e]; engine := engine s; polls := polls s;
           progress := progress s |}
      else
        with_tasks ts (with_out (onRejected pol (t_index t) e (out s)) s)
  end.

(** [.finally(() => { readyCount++; if (onProgress) onProgress(readyCount) })] *)
Definition finally (i : nat) (s : St) : St :=
  {| throwed := throwed s; readyCount := S (readyCount s);
     currentIndex := currentIndex s; out := out s;
     tasks := set_phase i Counted (tasks s);
     consumed := consumed s; promise := promise s;
     rejections := rejections s; engine := engine s; polls := polls s;
     progress := if onProgress opts then progress s ++ [S (readyCount s)]
                 else progress s |}.

(** [dequeue], the first reaction on the task; the reaction of a pending
    [Promise.race(tasks)] comes right after it. *)
Definition dequeue (i : nat) (s : St) : St :=
  with_engine (match engine s with Racing => Woken | g => g end)
              (with_tasks (remove_task i (tasks s)) s).

(** *** [next] *)

(** [isCanceled && isCanceled()] *)
Definition poll (s : St) : bool * St :=
  match isCanceled opts with
  | Some f =>
      (f (polls s) (readyCount s),
       {| throwed := throwed s; readyCount := readyCount s;
          currentIndex := currentIndex s; out := out s; tasks := tasks s;
          consumed := consumed s; promise := promise s;
          rejections := rejections s; engine := engine s; polls := S (polls s);
          progress := progress s |})
  | None => (false, s)
  end.

Definition next (s : St) : St :=
  let (it, s1) := pull s in
  let (canceled, s2) := poll s1 in
  match it with
  | Some value =>
      if canceled || (failFast pol && throwed s2) then with_engine Draining s2
      else
        match put value s2 with
        | (s3, None) => with_engine Racing s3
        | (s3, Some _) => with_engine Halted s3
        end
  | None => with_engine Draining s2
  end.

(** [res(out)], after [await Promise.all(tasks)] *)
Definition resolve (s : St) : St :=
  with_engine Finished (with_promise (res (promise s)) s).

(** *** The event loop *)

(** [step s ev] runs callback [ev] when it is due, and is [None] when it
    is not. *)
Definition step (s : St) (ev : Event) : option St :=
  match ev with
  | Settle i =>
      match lookup_task i (tasks s) with
      | Some t => match t_phase t with Running => Some (settle t s) | _ => None end
      | None => None
      end
  | Finally i =>
      match lookup_task i (tasks s) with
      | Some t => match t_phase t with Handled => Some (finally i s) | _ => None end
      | None => None
      end
  | Dequeue i =>
      match lookup_task i (tasks s) with
      | Some t => match t_phase t with Counted => Some (dequeue i s) | _ => None end
      | None => None
      end
  | Next =>
      match engine s with Woken => Some (next s) | _ => None end
  | Resolve =>
      match engine s, tasks s with
      | Draining, [] => Some (resolve s)
      | _, _ => None
      end
  end.

(** A schedule is run from left to right; an event that is not due is
    skipped. *)
Definition fire (s : St) (ev : Event) : St :=
  match step s ev with Some s' => s' | None => s end.

Definition run (sched : list Event) (s : St) : St := fold_left fire sched s.

(** The strict variant: every event of the schedule must be due. *)
Fixpoint exec (sched : list Event) (s : St) : option St :=
  match sched with
  | [] => Some s
  | ev :: sched' =>
      match step s ev with
      | Some s' => exec sched' s'
      | None => None
      end
  end.

(** No callback is due. *)
Definition quiescent (s : St) : bool :=
  match tasks s, engine s with
  | [], (Racing | Finished | Halted) => true
  | _, _ => false
  end.

(** The callback of the oldest task that is due, else that of [next]. *)
Definition pick (s : St) : option Event :=
  match tasks s with
  | t :: _ =>
      Some (match t_phase t with
            | Running => Settle (t_index t)
            | Handled => Finally (t_index t)
            | Counted => Dequeue (t_index t)
            end)
  | [] =>
      match engine s with
      | Woken => Some Next
      | Draining => Some Resolve
      | _ => None
      end
  end.

(** Runs due callbacks, oldest task first, until none is left. *)
Fixpoint drive (fuel : nat) (s : St) : St :=
  match fuel with
  | 0 => s
  | S fuel' =>
      match pick s with
      | Some ev => drive fuel' (fire s ev)
      | None => s
      end
  end.

End Engine.

(** ** The entry points *)

(** [runDependently b cfg source cb options sched] is the state of the call
    [runDependently(source, cb, options)], made when the configuration is
    [cfg], after the event loop has run the callbacks of [sched]. *)
Definition runDependently {T R E} (b : Backend) (cfg : Config) (source : list T)
    (cb : Callback T R E) (options : option IOptions.t) (sched : list Event)
  : State R E (list (option R)) :=
  let opts := getOptions cfg options in
  run b (dependently R E) source cb opts sched
      (executor b (dependently R E) source cb opts).

Definition runIndependently {T R E} (b : Backend) (cfg : Config) (source : list T)
    (cb : Callback T R E) (options : option IOptions.t) (sched : list Event)
  : State R E (Independent R E) :=
  let opts := getOptions cfg options in
  run b (independently R E) source cb opts sched
      (executor b (independently R E) source cb opts).

(** * Notions used by the properties *)

(** ** The window *)

(** The least integer that is not below the resolved window.  The loop
    test [currentIndex < threads] compares a count with the window, and a
    count is below a number exactly when it is below this integer: for a
    window of [2.5] it is [3]. *)
Definition window (opts : Options) : Z := Qceiling (threads opts).

(** The allocation of the executor succeeds: [new Array(threads)] of the
    iterator backend throws a [RangeError] unless the window is an integer
    from [0] to [2^32 - 1]; the array backend allocates
    [new Array(array.length)]. *)
Definition allocates (b : Backend) (opts : Options) : Prop :=
  match b with
  | Indexed => True
  | Iterated => arrayLength (threads opts) <> None
  end.

(** ** The engine *)

Section Notions.
Context {T R E O : Type}.
Variable backend : Backend.
Variable pol : Policy R E O.
Variable source : list T.
Variable cb : Callback T R E.
Variable opts : Options.

Abbreviation St := (State R E O).
Abbreviation pull_ := (pull (R:=R) (E:=E) (O:=O) backend source).
Abbreviation put_ := (put backend pol cb).

Definition phase_weight (ph : Phase) : nat :=
  match ph with Running => 3 | Handled => 2 | Counted => 1 end.

(** The sum over the tasks of a weight of their phases. *)
Definition weigh (w : Phase -> nat) (ts : list (Task R E)) : nat :=
  list_sum (map (fun t => w (t_phase t)) ts).

Definition tasks_weight : list (Task R E) -> nat := weigh phase_weight.

(** What is left of the input. *)
Definition remaining (s : St) : nat :=
  length source -
  match backend with Indexed => currentIndex s | Iterated => consumed s end.

(** The three ways out of the loop: the input is exhausted, the window is
    full, or the work function threw. *)
Inductive prefill_exit (s : St) : St * option E -> Prop :=
| exit_exhausted s1 :
    pull_ s = (None, s1) -> prefill_exit s (s1, None)
| exit_window v s1 :
    pull_ s = (Some v, s1) ->
    ~ (Z.of_nat (currentIndex s1) < window opts)%Z ->
    prefill_exit s (s1, None)
| exit_throw v s1 s2 e :
    pull_ s = (Some v, s1) ->
    (Z.of_nat (currentIndex s1) < window opts)%Z ->
    put_ v s1 = (s2, Some e) ->
    prefill_exit s (s2, Some e).

(** The position of the next read. *)
Definition cursor (s : St) : nat :=
  match backend with Indexed => currentIndex s | Iterated => consumed s end.

(** The answer of [isCanceled && isCanceled()] in state [s]. *)
Definition asked (s : St) : bool :=
  match isCanceled opts with
  | Some f => f (polls s) (readyCount s)
  | None => false
  end.

(** [out] after the first statement of [put]. *)
Definition grown (s : St) : O :=
  match backend with
  | Indexed => out s
  | Iterated => growOut pol (currentIndex s + 1) (out s)
  end.

Definition pulled (s : St) : nat :=
  match backend with
  | Indexed => consumed s
  | Iterated =>
      match source !! consumed s with
      | Some _ => S (consumed s)
      | None => consumed s
      end
  end.

(** [next] stops. *)
Definition stops (s s' : St) : Prop :=
  engine s' = Draining /\ currentIndex s' = currentIndex s /\
  tasks s' = tasks s /\ out s' = out s.

(** At most [w] tasks are in [tasks], and fewer when [next] is due. *)
Definition bounded (w : nat) (s : St) : Prop :=
  length (tasks s) <= w /\
  (engine s = Woken -> length (tasks s) < w) /\
  length (tasks s) <= currentIndex s.

Definition engine_weight (g : Engine) : nat :=
  match g with
  | Racing | Woken => 2
  | Draining => 1
  | Finished | Halted => 0
  end.

(** An upper bound of the number of callbacks that can still run. *)
Definition work (s : St) : nat :=
  tasks_weight (tasks s) + engine_weight (engine s) + 4 * remaining s.

Definition is_running (i : nat) (ts : list (Task R E)) : bool :=
  match lookup_task i ts with
  | Some t => match t_phase t with Running => true | _ => false end
  | None => false
  end.

(** Tasks whose [finally] handler has not run. *)
Definition uncounted (ph : Phase) : nat :=
  match ph with Counted => 0 | _ => 1 end.

(** The invariant of the pre-fill loop up to item [j]. *)
Definition before_throw (j : nat) (s : St) : Prop :=
  currentIndex s <= j /\ cursor s = currentIndex s /\
  engine s = Halted /\ promise s = Pending /\ readyCount s = 0 /\
  weigh uncounted (tasks s) = currentIndex s /\
  (forall t, In t (tasks s) -> t_index t < currentIndex s).

End Notions.

(** ** What a policy has folded *)

Definition upd {A} (i : nat) (x : A) (st : nat -> A) : nat -> A :=
  fun j => if j =? i then x else st j.

(** [Rep st n o] is to say that the aggregate [o] has length [n] and holds,
    for every index [i], the outcome [st i] that was folded into it ([None]
    when none was).  The laws say how the operations of the policy change
    what the aggregate holds. *)
Record Recorder {R E O} (pol : Policy R E O)
    (Rep : (nat -> option (Outcome R E)) -> nat -> O -> Prop) : Prop := {
  rep_ext : forall st st' n o,
      (forall i, st i = st' i) -> Rep st n o -> Rep st' n o;
  rep_new : forall n, Rep (fun _ => None) n (newOut pol n);
  rep_grow : forall st n k o,
      (forall i, n <= i -> st i = None) ->
      Rep st n o -> Rep st (Nat.max n k) (growOut pol k o);
  rep_fulfilled : forall st n o i r,
      i < n -> st i = None ->
      Rep st n o -> Rep (upd i (Some (Fulfilled r)) st) n (onFulfilled pol i r o);
  rep_failed : forall st n o i e,
      i < n -> st i = None ->
      Rep st n o -> Rep (upd i (Some (Failed e)) st) n (onRejected pol i e o)
}.

(** ** Runs with a work function that returns promises *)

Section AsyncNotions.
Context {T R E O : Type}.
Variable backend : Backend.
Variable pol : Policy R E O.
Variable Rep : (nat -> option (Outcome R E)) -> nat -> O -> Prop.
Variable source : list T.
Variable g : T -> nat -> Outcome R E.
Variable opts : Options.

Abbreviation St := (State R E O).
Abbreviation N := (length source).
Abbreviation Wn := (Z.to_nat (window opts)).

(** The position in the input of the work item of index [i].  The
    iterator backend pulls one element more than it admits when it leaves
    the pre-fill loop with a full window. *)
Definition sigma (i : nat) : nat :=
  match backend with
  | Indexed => i
  | Iterated => if i <? Wn then i else S i
  end.

(** How the promise of work item [i] settles. *)
Definition promised (i : nat) : option (Outcome R E) :=
  match source !! sigma i with
  | Some v => Some (g v i)
  | None => None
  end.

(** The outcome of work item [i] once its handlers have run. *)
Definition folded_at (ci : nat) (ts : list (Task R E)) (i : nat)
  : option (Outcome R E) :=
  if (i <? ci) && negb (is_running i ts) then promised i else None.

Definition folded (s : St) : nat -> option (Outcome R E) :=
  folded_at (currentIndex s) (tasks s).

(** The length of the arrays of [out]. *)
Definition len (s : St) : nat :=
  match backend with
  | Indexed => N
  | Iterated => Nat.max Wn (currentIndex s)
  end.

(** Why [next] stopped. *)
Definition stop_reason (s : St) : Prop :=
  (exists f p rc, isCanceled opts = Some f /\ f p rc = true) \/
  N <= cursor backend s \/
  (failFast pol = true /\ throwed s = true).

Definition cursor_ok (s : St) : Prop :=
  match backend with
  | Indexed => True
  | Iterated =>
      match engine s with
      | Racing | Woken =>
          (consumed s = S (currentIndex s) /\ Wn <= currentIndex s) \/
          (consumed s = currentIndex s /\ N <= currentIndex s)
      | _ => currentIndex s <= consumed s
      end
  end.

(** The invariant of the engine. *)
Record good (s : St) : Prop := {
  g_index : forall t, In t (tasks s) -> t_index t < currentIndex s;
  g_nodup : NoDup (map (@t_index R E) (tasks s));
  g_length : length (tasks s) <= currentIndex s;
  g_promise : forall t, In t (tasks s) -> promised (t_index t) = Some (t_promise t);
  g_engine : engine s <> Halted;
  g_racing : engine s = Racing -> tasks s <> [] \/ currentIndex s = 0;
  g_admitted : Nat.min Wn N <= currentIndex s <= N;
  g_items : forall i, i < currentIndex s -> sigma i < N;
  g_cursor : cursor_ok s;
  g_settled :
    promise s =
      match rejections s with
      | e :: _ => Rejected e
      | [] => match engine s with Finished => Resolved | _ => Pending end
      end;
  g_finished : engine s = Finished -> tasks s = [];
  g_throwed : throwed s = true <-> rejections s <> [];
  g_rejections : forall e, In e (rejections s) ->
    failFast pol = true /\ exists i, folded s i = Some (Failed e);
  g_failed : forall i e, folded s i = Some (Failed e) ->
    failFast pol = true -> In e (rejections s);
  g_stop : engine s = Draining \/ engine s = Finished -> stop_reason s;
  g_polls :
    polls s + match engine s with Woken => 1 | _ => 0 end
    <= currentIndex s - length (tasks s);
  g_ready : readyCount s + weigh uncounted (tasks s) = currentIndex s;
  g_out : Rep (folded s) (len s) (out s)
}.

(** The invariant of the pre-fill loop. *)
Record pre (s : St) : Prop := {
  p_indices : map (@t_index R E) (tasks s) = seq 0 (currentIndex s);
  p_running : forall t, In t (tasks s) -> t_phase t = Running;
  p_promise : forall t, In t (tasks s) -> promised (t_index t) = Some (t_promise t);
  p_window : currentIndex s <= Wn;
  p_input : currentIndex s <= N;
  p_cursor : cursor backend s = currentIndex s;
  p_engine : engine s = Halted;
  p_pending : promise s = Pending;
  p_rejections : rejections s = [];
  p_throwed : throwed s = false;
  p_polls : polls s = 0;
  p_ready : readyCount s = 0;
  p_out : Rep (fun _ => None) (len s) (out s)
}.

End AsyncNotions.

(** ** What the two policies record *)

Section Cells.
Context {R E : Type}.
Implicit Types (st : nat -> option (Outcome R E)).

(** The entry of [out] of [runDependently]: the result of a fulfilled
    task, a hole otherwise. *)
Definition value_cell (o : option (Outcome R E)) : option R :=
  match o with Some (Fulfilled r) => Some r | _ => None end.

(** The entry of [results]. *)
Definition result_cell (o : option (Outcome R E)) : option (Result R E) :=
  match o with
  | Some (Fulfilled r) => Some (ROk r)
  | Some (Failed e) => Some (RError e)
  | None => None
  end.

(** The entry of [errors]. *)
Definition error_cell (o : option (Outcome R E)) : option E :=
  match o with Some (Failed e) => Some e | _ => None end.

Definition rep_dependently st (n : nat) (o : list (option R)) : Prop :=
  length o = n /\ forall i, i < n -> o !! i = Some (value_cell (st i)).

Definition rep_independently st (n : nat) (o : Independent R E) : Prop :=
  length (results o) = n /\ length (values o) = n /\
  (forall i, i < n -> results o !! i = Some (result_cell (st i))) /\
  (forall i, i < n -> values o !! i = Some (value_cell (st i))) /\
  (forall i, errors o !! i = error_cell (st i)) /\
  (ok o = true <-> forall i, error_cell (st i) = None).

End Cells.

(** ** The states that the claims speak of *)

(** The active set of state [s] respects the window [W]; [s0] is the state
    in which the call returned. *)
Definition within_window {R E O} (W : Z) (s0 s : State R E O) : Prop :=
  (Z.of_nat (currentIndex s0) <= W)%Z /\
  (Z.of_nat (length (tasks s)) <= W)%Z /\
  length (tasks s) <= currentIndex s0 /\
  (engine s = Woken -> length (tasks s) < currentIndex s0) /\
  currentIndex s <= currentIndex s0 + (currentIndex s - length (tasks s)).

(** The pre-fill wave and the polls of [isCanceled]. *)
Definition prefill_wave {R E O} (W n : nat) (s0 s : State R E O) : Prop :=
  currentIndex s0 = Nat.min W n /\ length (tasks s0) = Nat.min W n /\
  (forall t, In t (tasks s0) -> t_phase t = Running) /\
  polls s0 = 0 /\ readyCount s0 = 0 /\
  Nat.min W n <= currentIndex s /\
  polls s <= currentIndex s - length (tasks s) /\
  polls s <= readyCount s.

(** What [out] of [runDependently] holds at index [i] for outcome [p]. *)
Definition holds_dependently {R E} (o : list (option R)) (i : nat)
    (p : Outcome R E) : Prop :=
  o !! i = Some (value_cell (Some p)).

(** What the bundle of [runIndependently] holds at index [i] for outcome [p]. *)
Definition holds_independently {R E} (o : Independent R E) (i : nat)
    (p : Outcome R E) : Prop :=
  results o !! i = Some (result_cell (Some p)) /\
  values o !! i = Some (value_cell (Some p)) /\
  errors o !! i = error_cell (Some p).

(** The state of a run whose pre-fill loop was left by an exception [e]
    thrown for item [j]. *)
Definition thrown_at {R E O} (j : nat) (e : E) (s : State R E O) : Prop :=
  promise s = Rejected e /\ engine s = Halted /\ currentIndex s = j /\
  readyCount s + weigh uncounted (tasks s) = j /\
  (forall t, In t (tasks s) -> t_index t < j).


(** ** Concrete inputs *)

(** The work function [x => x * 2] of the specification's tests. *)
Definition double : Callback Z Z nat := succeeding (fun v _ => (2 * v)%Z).

(** [{ threads: 2 }] *)
Definition two_threads : option IOptions.t :=
  Some (IOptions.Build (JsNumber 2) None false).

(** [{ threads: 2, isCanceled: () => settled >= k }], where [settled] is
    the count last seen by [onProgress]. *)
Definition cancel_from (k : nat) : option IOptions.t :=
  Some (IOptions.Build (JsNumber 2) (Some (fun _ rc => k <=? rc)) true).

(** [{ threads: 2, isCanceled: () => true }] *)
Definition always_canceled : option IOptions.t :=
  Some (IOptions.Build (JsNumber 2) (Some (fun _ _ => true)) false).

(** [{ threads: 2.5 }] *)
Definition fractional_threads : option IOptions.t :=
  Some (IOptions.Build (JsNumber 2.5) None false).


(** The three callbacks of task [i], in a row. *)
Definition whole_task (i : nat) : list Event := [Settle i; Finally i; Dequeue i].

(** The work function of the specification's test: it fails on every even
    index and succeeds on every odd one. *)
Definition fails_on_even : Z -> nat -> Outcome Z nat :=
  fun v i => if Nat.even i then Failed i else Fulfilled v.

Definition ten_items : list Z := [10; 11; 12; 13; 14; 15; 16; 17; 18; 19]%Z.

(** A work function that throws on every call. *)
Definition thrower : Callback Z Z nat := fun _ _ => Throws 13.


(** A work function that returns a promise for the items before index [k]
    and throws from index [k] on. *)
Definition throws_from (k : nat) : Callback Z Z nat :=
  fun v i => if i <? k then Returns (Fulfilled (2 * v)%Z) else Throws 13.

(** ** What holds whatever the work function does *)

Section SoundNotions.
Context {T R E O : Type}.
Variable backend : Backend.
Variable pol : Policy R E O.
Variable source : list T.
Variable opts : Options.

(** The accounts of the engine: what is counted, read and reported, and
    when the promise is settled. *)
Record sound (s : State R E O) : Prop := {
  s_ready : readyCount s + weigh uncounted (tasks s) = currentIndex s;
  s_progress :
    progress s = if onProgress opts then seq 1 (readyCount s) else [];
  s_input : currentIndex s <= length source;
  s_cursor :
    match backend with
    | Indexed => consumed s = 0
    | Iterated => currentIndex s <= consumed s <= length source
    end;
  s_ahead : consumed s <= currentIndex s + 2;
  s_racing :
    engine s = Racing \/ engine s = Woken -> consumed s <= S (currentIndex s);
  s_index : forall t, In t (tasks s) -> t_index t < currentIndex s;
  s_finished : engine s = Finished -> tasks s = [];
  s_resolved : promise s = Resolved -> engine s = Finished;
  s_rejected : forall e, promise s = Rejected e ->
    (failFast pol = true /\ throwed s = true) \/ engine s = Halted;
  s_pending : failFast pol = false ->
    engine s = Racing \/ engine s = Woken \/ engine s = Draining ->
    promise s = Pending
}.

(** No further work item can be admitted: a failure has been observed by a
    fail-fast run, or an exception has escaped. *)
Definition closed (s : State R E O) : Prop :=
  (failFast pol = true /\ throwed s = true) \/ engine s = Halted.

End SoundNotions.

(** The number of runs of [next] in a schedule. *)
Definition boundaries (sched : list Event) : nat :=
  length (List.filter (fun ev => match ev with Next => true | _ => false end) sched).

(** The state of [runIndependently] seen through [values]. *)
Definition values_view {R E} (s : State R E (Independent R E))
  : State R E (list (option R)) :=
  {| throwed := throwed s; readyCount := readyCount s;
     currentIndex := currentIndex s; out := values (out s); tasks := tasks s;
     consumed := consumed s; promise := promise s;
     rejections := rejections s; engine := engine s; polls := polls s;
     progress := progress s |}.

(** * Properties *)

(** ** Numbers *)

(** A count is below a number exactly when it is below its ceiling. *)
Lemma below_ceiling (n : nat) (x : Q) :
  below n x = (Z.of_nat n <? Qceiling x)%Z.
Proof.
  unfold below. symmetry.
  destruct (inject_Z (Z.of_nat n) ?= x)%Q eqn:Hc.
  - apply Qeq_alt in Hc. rewrite <- (Qceiling_comp _ _ Hc), Qceiling_Z.
    apply Z.ltb_irrefl.
  - apply Qlt_alt in Hc. apply Z.ltb_lt. rewrite Zlt_Qlt.
    eapply Qlt_le_trans; [exact Hc | apply Qle_ceiling].
  - apply Qgt_alt in Hc. apply Z.ltb_ge.
    rewrite <- (Qceiling_Z (Z.of_nat n)).
    apply Qceiling_resp_le. by apply Qlt_le_weak.
Qed.

Lemma below_window (n : nat) (opts : Options) :
  below n (threads opts) = (Z.of_nat n <? window opts)%Z.
Proof. apply below_ceiling. Qed.

(** A valid array length is the window itself. *)
Lemma arrayLength_Some (x : Q) (n : nat) :
  arrayLength x = Some n ->
  n = Z.to_nat (Qceiling x) /\ (0 <= Qceiling x < 2 ^ 32)%Z /\
  x == inject_Z (Qceiling x).
Proof.
  unfold arrayLength.
  destruct (Qeq_bool x (inject_Z (Qfloor x))) eqn:Hq; [|discriminate].
  destruct (0 <=? Qfloor x)%Z eqn:H0; [|discriminate].
  destruct (Qfloor x <? 2 ^ 32)%Z eqn:H1; [|discriminate].
  simpl. intros [= <-].
  apply Qeq_bool_iff in Hq. apply Z.leb_le in H0. apply Z.ltb_lt in H1.
  assert (Hc : Qceiling x = Qfloor x).
  { rewrite (Qceiling_comp _ _ Hq). apply Qceiling_Z. }
  rewrite Hc. repeat split; [exact H0 | exact H1 | exact Hq].
Qed.

(** A count that is not above the ceiling of a number is below the number
    plus one. *)
Lemma ceiling_plus_one (n : nat) (x : Q) :
  (Z.of_nat n <= Qceiling x)%Z -> (inject_Z (Z.of_nat n) < x + 1)%Q.
Proof.
  intros Hn. pose proof (Qceiling_lt x) as Hc.
  unfold Z.sub in Hc. rewrite inject_Z_plus, inject_Z_opp in Hc.
  rewrite Zle_Qle in Hn. change (inject_Z 1) with 1%Q in Hc. lra.
Qed.

(** The array that the executor allocates when the allocation succeeds. *)
Lemma outLength_allocates {T} (b : Backend) (source : list T) (opts : Options) :
  allocates b opts ->
  outLength b source opts =
    Some (match b with
          | Indexed => length source
          | Iterated => Z.to_nat (window opts)
          end).
Proof.
  destruct b; simpl; [reflexivity|]. intros Ha.
  destruct (arrayLength (threads opts)) as [n|] eqn:Hn; [|contradiction].
  by apply arrayLength_Some in Hn as [-> _].
Qed.

(** ** Schedules, task lists and the pre-fill loop *)

Section Facts.
Context {T R E O : Type}.
Variable backend : Backend.
Variable pol : Policy R E O.
Variable source : list T.
Variable cb : Callback T R E.
Variable opts : Options.

Abbreviation St := (State R E O).
Abbreviation step_ := (step backend pol source cb opts).
Abbreviation run_ := (run backend pol source cb opts).
Abbreviation remaining := (remaining backend source).
Abbreviation prefill_exit := (prefill_exit backend pol source cb opts).
Abbreviation cursor := (cursor backend).
Abbreviation asked := (asked opts).
Abbreviation grown := (grown backend pol).
Abbreviation pulled := (pulled backend source).
Abbreviation work := (work backend source).

Lemma run_app (a b : list Event) (s : St) :
  run_ (a ++ b) s = run_ b (run_ a s).
Proof. unfold run. apply fold_left_app. Qed.

Lemma run_cons (ev : Event) (sched : list Event) (s : St) :
  run_ (ev :: sched) s = run_ sched (fire backend pol source cb opts s ev).
Proof. reflexivity. Qed.

(** A property of the initial state that every callback preserves holds
    after every schedule. *)
Lemma run_invariant (P : St -> Prop) :
  (forall s ev s', P s -> step_ s ev = Some s' -> P s') ->
  forall sched s, P s -> P (run_ sched s).
Proof.
  intros Hstep sched. unfold run.
  induction sched as [|ev sched IH]; simpl; intros s Hs.
  - exact Hs.
  - apply IH. unfold fire.
    destruct (step_ s ev) as [s'|] eqn:Hev; [eapply Hstep; eauto | exact Hs].
Qed.

Lemma exec_run (sched : list Event) (s s' : St) :
  exec backend pol source cb opts sched s = Some s' -> run_ sched s = s'.
Proof.
  unfold run. revert s. induction sched as [|ev sched IH]; simpl; intros s H.
  - congruence.
  - unfold fire at 2.
    destruct (step_ s ev) as [s1|]; [auto | discriminate].
Qed.

Lemma step_inv (s s' : St) (ev : Event) :
  step_ s ev = Some s' ->
  (exists i t, ev = Settle i /\ lookup_task i (tasks s) = Some t /\
               t_phase t = Running /\ s' = settle pol t s) \/
  (exists i t, ev = Finally i /\ lookup_task i (tasks s) = Some t /\
               t_phase t = Handled /\ s' = finally opts i s) \/
  (exists i t, ev = Dequeue i /\ lookup_task i (tasks s) = Some t /\
               t_phase t = Counted /\ s' = dequeue i s) \/
  (ev = Next /\ engine s = Woken /\ s' = next backend pol source cb opts s) \/
  (ev = Resolve /\ engine s = Draining /\ tasks s = [] /\ s' = resolve s).
Proof.
  destruct ev as [i|i|i| |]; simpl; intros H.
  - destruct (lookup_task i (tasks s)) as [t|] eqn:Hl; [|discriminate].
    destruct (t_phase t) eqn:Hp; try discriminate.
    left. exists i, t. intuition congruence.
  - destruct (lookup_task i (tasks s)) as [t|] eqn:Hl; [|discriminate].
    destruct (t_phase t) eqn:Hp; try discriminate.
    right; left. exists i, t. intuition congruence.
  - destruct (lookup_task i (tasks s)) as [t|] eqn:Hl; [|discriminate].
    destruct (t_phase t) eqn:Hp; try discriminate.
    right; right; left. exists i, t. intuition congruence.
  - destruct (engine s) eqn:He; try discriminate.
    right; right; right; left. intuition congruence.
  - destruct (engine s) eqn:He; try discriminate.
    destruct (tasks s) eqn:Ht; try discriminate.
    right; right; right; right. intuition congruence.
Qed.

(** *** [lookup_task], [set_phase], [remove_task] *)

Lemma lookup_task_Some (i : nat) (ts : list (Task R E)) (t : Task R E) :
  lookup_task i ts = Some t -> In t ts /\ t_index t = i.
Proof.
  unfold lookup_task. intros H. apply find_some in H as [Hin Heq].
  split; [exact Hin | by apply Nat.eqb_eq].
Qed.

Lemma lookup_task_None (i : nat) (ts : list (Task R E)) :
  lookup_task i ts = None <-> ~ In i (map (@t_index R E) ts).
Proof.
  unfold lookup_task. induction ts as [|t ts IH]; simpl.
  - tauto.
  - destruct (t_index t =? i) eqn:Hi.
    + apply Nat.eqb_eq in Hi. split; [discriminate | tauto].
    + apply Nat.eqb_neq in Hi. rewrite IH. tauto.
Qed.

Lemma length_set_phase (i : nat) (ph : Phase) (ts : list (Task R E)) :
  length (set_phase i ph ts) = length ts.
Proof.
  induction ts as [|u ts IH]; simpl; [reflexivity|].
  destruct (t_index u =? i); simpl; congruence.
Qed.

Lemma map_index_set_phase (i : nat) (ph : Phase) (ts : list (Task R E)) :
  map (@t_index R E) (set_phase i ph ts) = map (@t_index R E) ts.
Proof.
  induction ts as [|u ts IH]; simpl; [reflexivity|].
  destruct (t_index u =? i); simpl; congruence.
Qed.

Lemma length_remove_task (i : nat) (ts : list (Task R E)) (t : Task R E) :
  lookup_task i ts = Some t -> S (length (remove_task i ts)) = length ts.
Proof.
  unfold lookup_task. induction ts as [|u ts IH]; simpl; [discriminate|].
  destruct (t_index u =? i); [reflexivity|].
  intros H. simpl. f_equal. auto.
Qed.

Lemma In_remove_task (i : nat) (ts : list (Task R E)) (t : Task R E) :
  In t (remove_task i ts) -> In t ts.
Proof.
  induction ts as [|u ts IH]; simpl; [tauto|].
  destruct (t_index u =? i); simpl; tauto.
Qed.

Lemma In_set_phase (i : nat) (ph : Phase) (ts : list (Task R E)) (t : Task R E) :
  In t (set_phase i ph ts) ->
  exists u, In u ts /\ t_index t = t_index u /\ t_promise t = t_promise u /\
            (t = u \/ (t_index u = i /\ t_phase t = ph)).
Proof.
  induction ts as [|u ts IH]; simpl; [tauto|].
  destruct (t_index u =? i) eqn:Hi; simpl.
  - apply Nat.eqb_eq in Hi. intros [<- | Hin].
    + exists u. simpl. intuition.
    + exists t. intuition.
  - intros [<- | Hin].
    + exists u. intuition.
    + destruct (IH Hin) as (w & Hw & Hrest). exists w. intuition.
Qed.

(** *** The work that is left *)

Lemma weigh_set_phase (w : Phase -> nat) (i : nat) (ph : Phase)
    (ts : list (Task R E)) (t : Task R E) :
  lookup_task i ts = Some t ->
  weigh w (set_phase i ph ts) + w (t_phase t) = weigh w ts + w ph.
Proof.
  unfold lookup_task, weigh.
  induction ts as [|u ts IH]; simpl; [discriminate|].
  destruct (t_index u =? i); simpl.
  - intros [= <-]. lia.
  - intros H. specialize (IH H). lia.
Qed.

Lemma weigh_remove_task (w : Phase -> nat) (i : nat)
    (ts : list (Task R E)) (t : Task R E) :
  lookup_task i ts = Some t ->
  weigh w (remove_task i ts) + w (t_phase t) = weigh w ts.
Proof.
  unfold lookup_task, weigh.
  induction ts as [|u ts IH]; simpl; [discriminate|].
  destruct (t_index u =? i); simpl.
  - intros [= <-]. lia.
  - intros H. specialize (IH H). lia.
Qed.

Lemma weigh_app (w : Phase -> nat) (ts us : list (Task R E)) :
  weigh w (ts ++ us) = weigh w ts + weigh w us.
Proof. unfold weigh. by rewrite map_app, list_sum_app. Qed.

Lemma weigh_le_length (w : Phase -> nat) (ts : list (Task R E)) :
  (forall ph, w ph <= 1) -> weigh w ts <= length ts.
Proof.
  intros Hw. unfold weigh. induction ts as [|u ts IH]; simpl; [lia|].
  specialize (Hw (t_phase u)). lia.
Qed.

(** *** The pre-fill loop *)

Abbreviation pull_ := (pull (R:=R) (E:=E) (O:=O) backend source).
Abbreviation put_ := (put backend pol cb).
Abbreviation prefill_ := (prefill backend pol source cb opts).

Lemma put_remaining (s s1 s2 : St) (v : T) :
  pull_ s = (Some v, s1) -> put_ v s1 = (s2, None) ->
  remaining s2 < remaining s.
Proof.
  unfold pull, put, remaining. intros Hpull Hput.
  destruct backend.
  - injection Hpull as Hv <-. apply lookup_lt_Some in Hv.
    destruct (cb v (currentIndex s)); inversion Hput; subst; simpl. lia.
  - destruct (source !! consumed s) as [x|] eqn:Hx; [|discriminate].
    apply lookup_lt_Some in Hx. injection Hpull as -> <-.
    simpl in Hput.
    destruct (cb v (currentIndex s)); inversion Hput; subst; simpl. lia.
Qed.

(** The loop rule: a property that one turn of the loop preserves holds
    of the state in which the loop is left, and the loop is left before
    the fuel runs out. *)
Lemma prefill_rule (P : St -> Prop) :
  (forall s v s1 s2,
      P s -> pull_ s = (Some v, s1) ->
      (Z.of_nat (currentIndex s1) < window opts)%Z ->
      put_ v s1 = (s2, None) -> P s2) ->
  forall fuel s,
    P s -> remaining s < fuel ->
    exists s_last, P s_last /\ prefill_exit s_last (prefill_ fuel s).
Proof.
  intros Hturn fuel. induction fuel as [|fuel IH]; intros s Hs Hfuel; [lia|].
  simpl. destruct (pull_ s) as [[v|] s1] eqn:Hpull.
  - rewrite below_window.
    destruct (Z.of_nat (currentIndex s1) <? window opts)%Z eqn:Hw.
    + apply Z.ltb_lt in Hw.
      destruct (put_ v s1) as [s2 [e|]] eqn:Hput.
      * exists s. split; [exact Hs|]. eapply exit_throw; eauto.
      * apply IH; [eapply Hturn; eauto|].
        assert (remaining s2 < remaining s) by (eapply put_remaining; eauto). lia.
    + apply Z.ltb_ge in Hw.
      exists s. split; [exact Hs|]. eapply exit_window; eauto. lia.
  - exists s. split; [exact Hs|]. by apply exit_exhausted.
Qed.

Lemma initial_remaining :
  remaining (initial backend pol source opts) < S (length source).
Proof. unfold remaining, initial. destruct backend; simpl; lia. Qed.

(** *** [pull], [put] and [next], field by field *)

Lemma pull_spec (s s1 : St) (it : option T) :
  pull_ s = (it, s1) ->
  it = source !! cursor s /\
  s1 = {| throwed := throwed s; readyCount := readyCount s;
          currentIndex := currentIndex s; out := out s; tasks := tasks s;
          consumed := pulled s; promise := promise s;
          rejections := rejections s; engine := engine s; polls := polls s;
          progress := progress s |}.
Proof.
  unfold pull, cursor, pulled. destruct backend.
  - intros [= <- <-]. by destruct s.
  - destruct (source !! consumed s); intros [= <- <-]; [done | by destruct s].
Qed.

Lemma put_spec (s s2 : St) (v : T) (r : option E) :
  put_ v s = (s2, r) ->
  match cb v (currentIndex s) with
  | Returns p =>
      r = None /\
      s2 = {| throwed := throwed s; readyCount := readyCount s;
              currentIndex := S (currentIndex s); out := grown s;
              tasks := tasks s ++ [{| t_index := currentIndex s; t_promise := p;
                                      t_phase := Running |}];
              consumed := consumed s; promise := promise s;
              rejections := rejections s; engine := engine s; polls := polls s;
              progress := progress s |}
  | Throws e => r = Some e /\ s2 = with_out (grown s) s
  end.
Proof.
  unfold put, grown.
  destruct (cb v (currentIndex s)); destruct backend; intros [= <- <-];
    split; try reflexivity; by destruct s.
Qed.

Lemma next_cases (s : St) :
  let s' := next backend pol source cb opts s in
  (throwed s' = throwed s /\ readyCount s' = readyCount s /\
   promise s' = promise s /\ rejections s' = rejections s /\
   progress s' = progress s /\ consumed s' = pulled s /\
   polls s' = match isCanceled opts with Some _ => S (polls s) | None => polls s end) /\
  match source !! cursor s with
  | None => stops s s'
  | Some v =>
      if asked s || (failFast pol && throwed s) then stops s s'
      else
        match cb v (currentIndex s) with
        | Returns p =>
            engine s' = Racing /\ currentIndex s' = S (currentIndex s) /\
            tasks s' = tasks s ++ [{| t_index := currentIndex s; t_promise := p;
                                      t_phase := Running |}] /\
            out s' = grown s
        | Throws _ =>
            engine s' = Halted /\ currentIndex s' = currentIndex s /\
            tasks s' = tasks s /\ out s' = grown s
        end
  end.
Proof.
  unfold next, pull, poll, put, cursor, pulled, asked, grown, stops.
  destruct backend; simpl.
  - destruct (source !! currentIndex s) as [v|]; destruct (isCanceled opts) as [f|];
      simpl; try (destruct (f (polls s) (readyCount s)); simpl);
      try (destruct (failFast pol && throwed s); simpl);
      try (destruct (cb v (currentIndex s)); simpl); tauto.
  - destruct (source !! consumed s) as [v|]; destruct (isCanceled opts) as [f|];
      simpl; try (destruct (f (polls s) (readyCount s)); simpl);
      try (destruct (failFast pol && throwed s); simpl);
      try (destruct (cb v (currentIndex s)); simpl); tauto.
Qed.

(** *** The window *)

Lemma bounded_step (w : nat) (s s' : St) (ev : Event) :
  bounded w s -> step_ s ev = Some s' -> bounded w s'.
Proof.
  intros (Hw & Hwoken & Hci) Hstep.
  destruct (step_inv _ _ Hstep) as
    [(i & t & -> & Hl & Hp & ->) | [(i & t & -> & Hl & Hp & ->) |
    [(i & t & -> & Hl & Hp & ->) | [(-> & He & ->) | (-> & He & Ht & ->)]]]].
  - unfold bounded, settle.
    destruct (t_promise t); [|destruct (failFast pol)]; simpl;
      rewrite length_set_phase; auto.
  - unfold bounded, finally; simpl. rewrite length_set_phase. auto.
  - pose proof (length_remove_task _ _ Hl) as Hlen.
    unfold bounded, dequeue; simpl. repeat split; intros; lia.
  - pose proof (next_cases s) as [_ Hn]. specialize (Hwoken He).
    unfold bounded.
    destruct (source !! cursor s) as [v|];
      [destruct (asked s || (failFast pol && throwed s));
       [|destruct (cb v (currentIndex s))]|].
    all: try (destruct Hn as (-> & -> & -> & _); repeat split;
                [lia | discriminate | lia]).
    destruct Hn as (-> & -> & -> & _). rewrite length_app. simpl.
    repeat split; [lia | discriminate | lia].
  - unfold bounded, resolve; simpl. rewrite Ht. simpl.
    repeat split; [lia | discriminate | lia].
Qed.

Lemma executor_bounded :
  let s0 := executor backend pol source cb opts in
  bounded (currentIndex s0) s0 /\
  length (tasks s0) = currentIndex s0 /\
  currentIndex s0 <= Z.to_nat (window opts).
Proof.
  set (P := fun s : St =>
              length (tasks s) = currentIndex s /\
              currentIndex s <= Z.to_nat (window opts) /\
              engine s = Halted).
  assert (Hinit : P (initial backend pol source opts)).
  { unfold P, initial; simpl. repeat split; lia. }
  destruct (@prefill_rule P) with (fuel := S (length source))
    (s := initial backend pol source opts) as (sl & (Hlen & Hw & Heng) & Hexit);
    [|exact Hinit | apply initial_remaining|].
  { intros s v s1 s2 (Hl & _ & He) Hpull Hlt Hput.
    apply pull_spec in Hpull as [_ ->]. apply put_spec in Hput. simpl in Hput.
    destruct (cb v (currentIndex s)); destruct Hput as [Hr ->]; [|discriminate Hr].
    unfold P; simpl in *. rewrite length_app; simpl. repeat split; [lia|lia|done]. }
  unfold executor.
  destruct (outLength backend source opts) as [n|];
    [|unfold bounded; simpl; repeat split; try lia; discriminate].
  destruct (prefill_ (S (length source)) (initial backend pol source opts)) as [sf r].
  inversion Hexit as [s1 Hpull | v s1 Hpull Hge | v s1 s2 e Hpull Hlt Hput];
    subst; apply pull_spec in Hpull as [_ ->].
  - simpl. destruct (throwed sl); unfold bounded; simpl;
      repeat split; try lia; try discriminate. rewrite Heng. discriminate.
  - simpl. destruct (throwed sl); unfold bounded; simpl;
      repeat split; try lia; try discriminate. rewrite Heng. discriminate.
  - apply put_spec in Hput. simpl in Hput.
    destruct (cb v (currentIndex sl)); destruct Hput as [[=] ->].
    unfold bounded; simpl. repeat split; try lia. rewrite Heng. discriminate.
Qed.

(** The window after every schedule. *)
Lemma run_bounded (sched : list Event) :
  let s0 := executor backend pol source cb opts in
  bounded (currentIndex s0) (run_ sched s0).
Proof.
  intros s0. apply run_invariant.
  - intros s ev s'. apply bounded_step.
  - apply executor_bounded.
Qed.

(** *** Termination and progress *)

Lemma pulled_remaining (s : St) :
  match backend with Indexed => True | Iterated => consumed s <= pulled s end /\
  match source !! cursor s, backend with
  | Some _, Iterated => pulled s = S (consumed s) /\ consumed s < length source
  | Some _, Indexed => currentIndex s < length source
  | None, _ => True
  end.
Proof.
  unfold pulled, cursor. destruct backend.
  - split; [exact I|].
    destruct (source !! currentIndex s) eqn:Hv; [|exact I].
    by apply lookup_lt_Some in Hv.
  - destruct (source !! consumed s) eqn:Hv; [|split; [lia | exact I]].
    apply lookup_lt_Some in Hv. split; [lia | split; [reflexivity | exact Hv]].
Qed.

(** Every callback uses up some of the work. *)
Lemma work_step (s s' : St) (ev : Event) :
  step_ s ev = Some s' -> work s' < work s.
Proof.
  intros Hstep.
  destruct (step_inv _ _ Hstep) as
    [(i & t & -> & Hl & Hp & ->) | [(i & t & -> & Hl & Hp & ->) |
    [(i & t & -> & Hl & Hp & ->) | [(-> & He & ->) | (-> & He & Ht & ->)]]]].
  - pose proof (weigh_set_phase phase_weight _ Handled _ Hl) as Hw. rewrite Hp in Hw.
    unfold work, tasks_weight, remaining, settle.
    destruct (t_promise t); [|destruct (failFast pol)]; simpl in *;
      destruct (lookup_task_Some _ _ Hl) as [_ ->]; lia.
  - pose proof (weigh_set_phase phase_weight _ Counted _ Hl) as Hw. rewrite Hp in Hw.
    unfold work, tasks_weight, remaining, finally. simpl in *. lia.
  - pose proof (weigh_remove_task phase_weight _ _ Hl) as Hw. rewrite Hp in Hw.
    unfold work, tasks_weight, remaining, dequeue. simpl in *.
    destruct (engine s); simpl; lia.
  - pose proof (next_cases s) as [(_ & _ & _ & _ & _ & Hc & _) Hn].
    pose proof (pulled_remaining s) as [Hge Hsome].
    unfold work, tasks_weight, remaining. rewrite He. simpl.
    destruct (source !! cursor s) as [v|];
      [destruct (asked s || (failFast pol && throwed s));
       [|destruct (cb v (currentIndex s))]|].
    all: destruct Hn as (-> & -> & -> & _); unfold tasks_weight;
      try rewrite weigh_app; rewrite ?Hc; unfold weigh; simpl;
      destruct backend; lia.
  - unfold work, tasks_weight, remaining, resolve. simpl. rewrite He. simpl. lia.
Qed.

(** A schedule all of whose events are due is no longer than the work. *)
Lemma exec_length (sched : list Event) (s s' : St) :
  exec backend pol source cb opts sched s = Some s' ->
  length sched + work s' <= work s.
Proof.
  revert s. induction sched as [|ev sched IH]; simpl; intros s H.
  - injection H as ->. lia.
  - destruct (step_ s ev) as [s1|] eqn:Hev; [|discriminate].
    apply work_step in Hev. apply IH in H. lia.
Qed.

Lemma quiescent_step (s : St) (ev : Event) :
  quiescent s = true -> step_ s ev = None.
Proof.
  unfold quiescent. destruct (tasks s) eqn:Ht; [|discriminate].
  intros Hq. destruct ev; simpl; rewrite ?Ht; simpl; try reflexivity.
  - by destruct (engine s).
  - by destruct (engine s).
Qed.

Lemma quiescent_run (sched : list Event) (s : St) :
  quiescent s = true -> run_ sched s = s.
Proof.
  intros Hq. unfold run. induction sched as [|ev sched IH]; simpl; [reflexivity|].
  unfold fire at 2. by rewrite quiescent_step.
Qed.

(** Unless the state is quiescent, the callback chosen by [pick] is due. *)
Lemma pick_due (s : St) :
  match pick s with
  | Some ev => exists s', step_ s ev = Some s'
  | None => quiescent s = true
  end.
Proof.
  unfold pick, quiescent.
  destruct (tasks s) as [|t ts] eqn:Ht.
  - destruct (engine s) eqn:He; simpl; rewrite ?He, ?Ht; eauto.
  - assert (Hl : lookup_task (t_index t) (t :: ts) = Some t).
    { unfold lookup_task. simpl. by rewrite Nat.eqb_refl. }
    destruct (t_phase t) eqn:Hp; simpl; rewrite Ht, Hl, Hp; eauto.
Qed.

(** [drive] with fuel for all the work ends in a quiescent state, and it
    follows a schedule all of whose events are due. *)
Lemma drive_quiescent (fuel : nat) (s : St) :
  work s <= fuel ->
  quiescent (drive backend pol source cb opts fuel s) = true /\
  exists sched,
    exec backend pol source cb opts sched s =
      Some (drive backend pol source cb opts fuel s).
Proof.
  revert s. induction fuel as [|fuel IH]; intros s Hw; simpl.
  - pose proof (pick_due s) as Hp. destruct (pick s) as [ev|].
    + destruct Hp as [s' Hs']. apply work_step in Hs'. lia.
    + split; [exact Hp | by exists []].
  - pose proof (pick_due s) as Hp. destruct (pick s) as [ev|].
    + destruct Hp as [s' Hs']. unfold fire. rewrite Hs'.
      pose proof (work_step _ _ Hs') as Hlt.
      destruct (IH s') as [Hq [sched Hsched]]; [lia|].
      split; [exact Hq|]. exists (ev :: sched). simpl. by rewrite Hs'.
    + split; [exact Hp | by exists []].
Qed.

(** *** Which tasks still run *)

Lemma lookup_set_phase_ne (i j : nat) (ph : Phase) (ts : list (Task R E)) :
  j <> i -> lookup_task j (set_phase i ph ts) = lookup_task j ts.
Proof.
  intros Hne. unfold lookup_task. induction ts as [|u ts IH]; simpl; [reflexivity|].
  destruct (t_index u =? i) eqn:Hi; simpl.
  - apply Nat.eqb_eq in Hi. destruct (t_index u =? j) eqn:Hj; [|reflexivity].
    apply Nat.eqb_eq in Hj. lia.
  - destruct (t_index u =? j); [reflexivity | exact IH].
Qed.

Lemma lookup_set_phase_eq (i : nat) (ph : Phase) (ts : list (Task R E)) (t : Task R E) :
  lookup_task i ts = Some t ->
  lookup_task i (set_phase i ph ts) =
    Some {| t_index := t_index t; t_promise := t_promise t; t_phase := ph |}.
Proof.
  unfold lookup_task. induction ts as [|u ts IH]; simpl; [discriminate|].
  destruct (t_index u =? i) eqn:Hi; simpl; rewrite Hi; [|exact IH].
  by intros [= <-].
Qed.

Lemma lookup_remove_ne (i j : nat) (ts : list (Task R E)) :
  j <> i -> lookup_task j (remove_task i ts) = lookup_task j ts.
Proof.
  intros Hne. unfold lookup_task. induction ts as [|u ts IH]; simpl; [reflexivity|].
  destruct (t_index u =? i) eqn:Hi; simpl.
  - apply Nat.eqb_eq in Hi. destruct (t_index u =? j) eqn:Hj; [|reflexivity].
    apply Nat.eqb_eq in Hj. lia.
  - destruct (t_index u =? j); [reflexivity | exact IH].
Qed.

Lemma lookup_remove_eq (i : nat) (ts : list (Task R E)) :
  NoDup (map (@t_index R E) ts) -> lookup_task i (remove_task i ts) = None.
Proof.
  induction ts as [|u ts IH]; simpl; [reflexivity|].
  intros Hnd. apply NoDup_cons in Hnd as [Hnotin Hnd].
  rewrite list_elem_of_In in Hnotin.
  destruct (t_index u =? i) eqn:Hi.
  - apply Nat.eqb_eq in Hi. subst i. by apply lookup_task_None.
  - unfold lookup_task in *. simpl. rewrite Hi. auto.
Qed.

Lemma lookup_task_app (j : nat) (ts : list (Task R E)) (t : Task R E) :
  lookup_task j (ts ++ [t]) =
    match lookup_task j ts with
    | Some u => Some u
    | None => if t_index t =? j then Some t else None
    end.
Proof.
  unfold lookup_task. induction ts as [|u ts IH]; simpl; [reflexivity|].
  destruct (t_index u =? j); [reflexivity | exact IH].
Qed.

Lemma NoDup_remove_task (i : nat) (ts : list (Task R E)) :
  NoDup (map (@t_index R E) ts) -> NoDup (map (@t_index R E) (remove_task i ts)).
Proof.
  induction ts as [|u ts IH]; simpl; [auto|].
  intros Hnd. apply NoDup_cons in Hnd as [Hnotin Hnd].
  rewrite list_elem_of_In in Hnotin.
  destruct (t_index u =? i); [exact Hnd|].
  simpl. apply NoDup_cons. split; [|auto].
  rewrite list_elem_of_In. intros Hin. apply Hnotin. apply in_map_iff in Hin as (w & Hw & Hin).
  apply in_map_iff. exists w. split; [exact Hw | by eapply In_remove_task].
Qed.
End Facts.

(** ** Runs with a work function that returns promises *)

Section Async.
Context {T R E O : Type}.
Variable backend : Backend.
Variable pol : Policy R E O.
Variable Rep : (nat -> option (Outcome R E)) -> nat -> O -> Prop.
Hypothesis rec : Recorder pol Rep.
Variable source : list T.
Variable g : T -> nat -> Outcome R E.
Variable opts : Options.
Hypothesis Halloc : allocates backend opts.

Abbreviation St := (State R E O).
Abbreviation step_ := (step backend pol source (async g) opts).
Abbreviation run_ := (run backend pol source (async g) opts).
Abbreviation N := (length source).
Abbreviation Wn := (Z.to_nat (window opts)).
Abbreviation sigma := (sigma backend opts).
Abbreviation promised := (promised backend source g opts).
Abbreviation folded_at := (folded_at backend source g opts).
Abbreviation folded := (folded backend source g opts).
Abbreviation len := (len (R:=R) (E:=E) (O:=O) backend source opts).
Abbreviation stop_reason := (stop_reason backend pol source opts).
Abbreviation cursor_ok := (cursor_ok backend source opts).
Abbreviation good := (good backend pol Rep source g opts).
Abbreviation pre := (pre backend Rep source g opts).

(** *** How the handlers change what is folded *)

Lemma folded_at_settle (ci i : nat) (ph : Phase) (ts : list (Task R E)) (t : Task R E) :
  lookup_task i ts = Some t -> t_phase t = Running -> ph <> Running ->
  i < ci -> promised i = Some (t_promise t) ->
  forall j, folded_at ci (set_phase i ph ts) j =
            upd i (Some (t_promise t)) (folded_at ci ts) j.
Proof.
  intros Hl Hp Hph Hi Hprom j. unfold folded_at, upd, is_running.
  destruct (j =? i) eqn:Hj.
  - apply Nat.eqb_eq in Hj. subst j.
    rewrite (lookup_set_phase_eq _ ph _ Hl). simpl.
    apply Nat.ltb_lt in Hi. rewrite Hi. by destruct ph.
  - apply Nat.eqb_neq in Hj. by rewrite lookup_set_phase_ne.
Qed.

Lemma folded_at_phase (ci i : nat) (ph : Phase) (ts : list (Task R E)) (t : Task R E) :
  lookup_task i ts = Some t -> t_phase t <> Running -> ph <> Running ->
  forall j, folded_at ci (set_phase i ph ts) j = folded_at ci ts j.
Proof.
  intros Hl Hp Hph j. unfold folded_at, is_running.
  destruct (Nat.eq_dec j i) as [->|Hj].
  - rewrite (lookup_set_phase_eq _ ph _ Hl), Hl. simpl.
    by destruct ph, (t_phase t).
  - by rewrite lookup_set_phase_ne.
Qed.

Lemma folded_at_remove (ci i : nat) (ts : list (Task R E)) (t : Task R E) :
  lookup_task i ts = Some t -> t_phase t <> Running ->
  NoDup (map (@t_index R E) ts) ->
  forall j, folded_at ci (remove_task i ts) j = folded_at ci ts j.
Proof.
  intros Hl Hp Hnd j. unfold folded_at, is_running.
  destruct (Nat.eq_dec j i) as [->|Hj].
  - rewrite lookup_remove_eq, Hl by exact Hnd. by destruct (t_phase t).
  - by rewrite lookup_remove_ne.
Qed.

Lemma folded_at_put (ci : nat) (ts : list (Task R E)) (p : Outcome R E) :
  (forall t, In t ts -> t_index t < ci) ->
  forall j,
    folded_at (S ci)
      (ts ++ [{| t_index := ci; t_promise := p; t_phase := Running |}]) j =
    folded_at ci ts j.
Proof.
  intros Hidx j. unfold folded_at, is_running. rewrite lookup_task_app. simpl.
  destruct (lookup_task j ts) as [u|] eqn:Hl.
  - apply lookup_task_Some in Hl as [Hin <-]. apply Hidx in Hin.
    assert (H1 : (t_index u <? S ci) = true) by (apply Nat.ltb_lt; lia).
    assert (H2 : (t_index u <? ci) = true) by (apply Nat.ltb_lt; lia).
    by rewrite H1, H2.
  - destruct (ci =? j) eqn:Hj.
    + apply Nat.eqb_eq in Hj. subst j. simpl.
      rewrite Nat.ltb_irrefl. simpl. by rewrite andb_false_r.
    + apply Nat.eqb_neq in Hj. simpl. rewrite !andb_true_r.
      destruct (j <? S ci) eqn:H1, (j <? ci) eqn:H2; try reflexivity.
      * apply Nat.ltb_lt in H1. apply Nat.ltb_ge in H2. lia.
      * apply Nat.ltb_ge in H1. apply Nat.ltb_lt in H2. lia.
Qed.

Lemma folded_at_ge (ci i : nat) (ts : list (Task R E)) :
  ci <= i -> folded_at ci ts i = None.
Proof.
  intros Hi. unfold folded_at.
  assert (H : (i <? ci) = false) by (apply Nat.ltb_ge; lia). by rewrite H.
Qed.

Lemma folded_at_running (ci i : nat) (ts : list (Task R E)) (t : Task R E) :
  lookup_task i ts = Some t -> t_phase t = Running -> folded_at ci ts i = None.
Proof.
  intros Hl Hp. unfold folded_at, is_running. rewrite Hl, Hp. simpl.
  by rewrite andb_false_r.
Qed.

(** *** The invariant is preserved *)

Lemma set_phase_nil (i : nat) (ph : Phase) (ts : list (Task R E)) :
  set_phase i ph ts = [] -> ts = [].
Proof.
  intros H. apply (f_equal length) in H. rewrite length_set_phase in H.
  by destruct ts.
Qed.

(** Goals about a task list whose phases changed. *)
Ltac phase_goal :=
  match goal with
  | |- forall t, In t (set_phase _ _ _) -> _ =>
      let t := fresh "t" in let H := fresh "H" in
      let u := fresh "u" in let Hi := fresh "Hi" in let Hq := fresh "Hq" in
      intros t H; apply In_set_phase in H as (u & H & Hi & Hq & _);
      rewrite ?Hi, ?Hq; auto
  | |- NoDup (map _ (set_phase _ _ _)) =>
      rewrite map_index_set_phase; assumption
  | |- context [length (set_phase _ _ _)] =>
      rewrite length_set_phase; assumption
  | |- _ -> set_phase _ _ _ <> [] \/ _ =>
      let He := fresh "He" in let Hn := fresh "Hn" in
      intros He;
      match goal with
      | Hr : _ -> _ <> [] \/ _ |- _ =>
          destruct (Hr He) as [Hn|Hn]; [left; intros Hnil; apply Hn;
                                          by eapply set_phase_nil | by right]
      end
  | Hne : engine ?s <> Finished |- engine ?s = Finished -> _ =>
      let He := fresh "He" in intros He; by destruct Hne
  end.

Lemma good_settle (s : St) (i : nat) (t : Task R E) :
  good s -> lookup_task i (tasks s) = Some t -> t_phase t = Running ->
  good (settle pol t s).
Proof.
  intros G Hl Hp.
  destruct (lookup_task_Some _ _ Hl) as [Hin Hti].
  pose proof (g_index G _ Hin) as Hlt. pose proof (g_promise G _ Hin) as Hprom.
  rewrite Hti in *.
  assert (Hf : forall j,
             folded_at (currentIndex s) (set_phase i Handled (tasks s)) j =
             upd i (Some (t_promise t)) (folded s) j).
  { apply folded_at_settle; auto; discriminate. }
  assert (Hnone : folded s i = None) by (eapply folded_at_running; eauto).
  assert (Hlen : i < len s).
  { pose proof (g_admitted G). unfold len. destruct backend; lia. }
  assert (Hne : engine s <> Finished).
  { intros He. apply (g_finished G) in He. rewrite He in Hl. discriminate. }
  pose proof (weigh_set_phase uncounted _ Handled _ Hl) as Hw.
  rewrite Hp in Hw. simpl in Hw.
  unfold settle. rewrite Hti.
  destruct (t_promise t) as [r|e] eqn:Ht; [|destruct (failFast pol) eqn:Hff].
  all: destruct G; constructor; simpl; try assumption; try phase_goal.
  all: unfold folded in *; simpl; try lia.
  - (* fulfilled: rejections *)
    intros e0 He0. destruct (g_rejections0 _ He0) as [Hff [i0 Hi0]].
    split; [exact Hff|]. exists i0. rewrite Hf. unfold upd.
    destruct (i0 =? i) eqn:Heq; [|exact Hi0].
    apply Nat.eqb_eq in Heq. congruence.
  - intros i0 e0. rewrite Hf. unfold upd.
    destruct (i0 =? i); [discriminate | apply g_failed0].
  - eapply (rep_ext rec); [intros j; symmetry; apply Hf|].
    apply (rep_fulfilled rec); auto.
  - (* failed, fail fast: the promise *)
    rewrite g_settled0. destruct (rejections s); simpl; [|reflexivity].
    by destruct (engine s).
  - split; [intros _; by destruct (rejections s) | reflexivity].
  - intros e0 He0. apply in_app_iff in He0 as [He0|[<-|[]]].
    + destruct (g_rejections0 _ He0) as [_ [i0 Hi0]].
      split; [exact Hff|]. exists i0. rewrite Hf. unfold upd.
      destruct (i0 =? i) eqn:Heq; [|exact Hi0].
      apply Nat.eqb_eq in Heq. congruence.
    + split; [exact Hff|]. exists i. rewrite Hf. unfold upd.
      by rewrite Nat.eqb_refl.
  - intros i0 e0. rewrite Hf. unfold upd. rewrite in_app_iff.
    destruct (i0 =? i).
    + intros [= ->] _. right. by left.
    + intros H1 H2. left. by eapply g_failed0.
  - intros He. destruct (g_stop0 He) as [Hc|[Hx|[_ Ht']]].
    + by left.
    + right; left. exact Hx.
    + right; right. by split.
  - eapply (rep_ext rec); [intros j; symmetry; apply Hf|].
    apply (rep_failed rec); auto.
  - (* failed, collect all *)
    intros e0 He0. destruct (g_rejections0 _ He0) as [Hff' _]. congruence.
  - intros i0 e0 _ Hff'. congruence.
  - eapply (rep_ext rec); [intros j; symmetry; apply Hf|].
    apply (rep_failed rec); auto.
Qed.

Lemma good_finally (s : St) (i : nat) (t : Task R E) :
  good s -> lookup_task i (tasks s) = Some t -> t_phase t = Handled ->
  good (finally opts i s).
Proof.
  intros G Hl Hp.
  assert (Hf : forall j,
             folded_at (currentIndex s) (set_phase i Counted (tasks s)) j =
             folded s j).
  { eapply folded_at_phase; eauto; rewrite ?Hp; discriminate. }
  assert (Hne : engine s <> Finished).
  { intros He. apply (g_finished G) in He. rewrite He in Hl. discriminate. }
  pose proof (weigh_set_phase uncounted _ Counted _ Hl) as Hw.
  rewrite Hp in Hw. simpl in Hw.
  unfold finally.
  destruct G; constructor; simpl; try assumption; try phase_goal.
  all: unfold folded in *; simpl; try lia.
  - intros e0 He0. destruct (g_rejections0 _ He0) as [Hff [i0 Hi0]].
    split; [exact Hff|]. exists i0. by rewrite Hf.
  - intros i0 e0. rewrite Hf. apply g_failed0.
  - eapply (rep_ext rec); [intros j; symmetry; apply Hf | exact g_out0].
Qed.

Lemma good_dequeue (s : St) (i : nat) (t : Task R E) :
  good s -> lookup_task i (tasks s) = Some t -> t_phase t = Counted ->
  good (dequeue i s).
Proof.
  intros G Hl Hp.
  assert (Hf : forall j,
             folded_at (currentIndex s) (remove_task i (tasks s)) j =
             folded s j).
  { eapply folded_at_remove; eauto; [rewrite Hp; discriminate | apply G]. }
  assert (Hne : engine s <> Finished).
  { intros He. apply (g_finished G) in He. rewrite He in Hl. discriminate. }
  pose proof (weigh_remove_task uncounted _ _ Hl) as Hw.
  rewrite Hp in Hw. simpl in Hw.
  pose proof (length_remove_task _ _ Hl) as Hlen.
  unfold dequeue.
  destruct G; constructor; simpl; try assumption.
  all: unfold folded in *; simpl; try lia.
  - intros u Hu. apply g_index0. by eapply In_remove_task.
  - by apply NoDup_remove_task.
  - intros u Hu. apply g_promise0. by eapply In_remove_task.
  - by destruct (engine s).
  - by destruct (engine s).
  - unfold cursor_ok in *. simpl. destruct backend; [exact I|].
    by destruct (engine s).
  - rewrite g_settled0. by destruct (engine s).
  - by destruct (engine s).
  - intros e0 He0. destruct (g_rejections0 _ He0) as [Hff [i0 Hi0]].
    split; [exact Hff|]. exists i0. by rewrite Hf.
  - intros i0 e0. rewrite Hf. apply g_failed0.
  - intros He.
    assert (He' : engine s = Draining \/ engine s = Finished).
    { destruct (engine s); destruct He as [He|He]; try discriminate He; auto. }
    exact (g_stop0 He').
  - destruct (engine s); simpl in *; lia.
  - eapply (rep_ext rec); [intros j; symmetry; apply Hf | exact g_out0].
Qed.

Lemma good_resolve (s : St) :
  good s -> engine s = Draining -> tasks s = [] -> good (resolve s).
Proof.
  intros G He Ht. unfold resolve.
  destruct G; constructor; simpl; try assumption; try discriminate.
  - unfold cursor_ok in *. simpl. rewrite He in *. exact g_cursor0.
  - rewrite g_settled0, He. by destruct (rejections s).
  - intros _. exact Ht.
  - intros _. exact (g_stop0 (or_introl He)).
  - rewrite He in *. lia.
Qed.

Lemma good_next (s : St) :
  good s -> engine s = Woken ->
  good (next backend pol source (async g) opts s).
Proof.
  intros G He.
  pose proof (next_cases backend pol source (async g) opts s)
    as [(Hth & Hrc & Hpr & Hrej & Hprog & Hcons & Hpolls) Hn].
  pose proof (pulled_remaining backend source s) as [Hge Hsome].
  assert (Hpl : polls (next backend pol source (async g) opts s) <= S (polls s)).
  { rewrite Hpolls. destruct (isCanceled opts); lia. }
  clear Hpolls.
  set (s' := next backend pol source (async g) opts s) in *.
  assert (Hstop : stops s s' -> stop_reason s' -> good s').
  { intros (He' & Hci & Hts & Hout) Hwhy.
    destruct G; constructor;
      unfold folded, len, cursor_ok in *;
      rewrite ?He', ?Hci, ?Hts, ?Hout, ?Hth, ?Hrc, ?Hpr, ?Hrej, ?Hcons;
      try assumption; try discriminate.
    - rewrite He in g_cursor0. destruct backend; [exact I|]. lia.
    - rewrite g_settled0, He. reflexivity.
    - intros _. exact Hwhy.
    - rewrite He in g_polls0. lia. }
  unfold async in Hn.
  destruct (source !! cursor backend s) as [v|] eqn:Hv.
  - destruct (asked opts s || (failFast pol && throwed s)) eqn:Hask.
    + apply Hstop; [exact Hn|]. unfold stop_reason.
      apply orb_true_iff in Hask as [Hask|Hask].
      * left. unfold asked in Hask. destruct (isCanceled opts) as [f|]; [|discriminate].
        by exists f, (polls s), (readyCount s).
      * apply andb_true_iff in Hask as [Hff Ht]. right; right.
        split; [exact Hff | by rewrite Hth].
    + destruct Hn as (He' & Hci & Hts & Hout).
      assert (Hsig : promised (currentIndex s) = Some (g v (currentIndex s))).
      { unfold promised, sigma. pose proof (g_cursor G) as Hc.
        unfold cursor_ok, cursor in *. rewrite He in Hc.
        destruct backend; [by rewrite Hv|].
        destruct Hc as [[Hc Hw]|[Hc Hx]].
        - assert (Hlt : (currentIndex s <? Wn) = false) by (apply Nat.ltb_ge; lia).
          by rewrite Hlt, <- Hc, Hv.
        - apply lookup_lt_Some in Hv. lia. }
      assert (Hf : forall j, folded_at (currentIndex s') (tasks s') j = folded s j).
      { intros j. rewrite Hci, Hts. apply folded_at_put. apply G. }
      destruct G; constructor;
        unfold folded, len, cursor_ok in *;
        rewrite ?He', ?Hth, ?Hrc, ?Hpr, ?Hrej, ?Hcons;
        try assumption; try discriminate.
      * intros u Hu. rewrite Hci. rewrite Hts in Hu.
        apply in_app_iff in Hu as [Hu|[<-|[]]]; [apply g_index0 in Hu; lia | simpl; lia].
      * rewrite Hts, map_app. simpl. apply NoDup_app. split; [assumption|].
        split; [|apply NoDup_singleton].
        intros x Hx Hx'. apply list_elem_of_In in Hx.
        apply in_map_iff in Hx as (u & <- & Hu). apply g_index0 in Hu.
        apply list_elem_of_singleton in Hx'. lia.
      * rewrite Hts, Hci, length_app. simpl. lia.
      * intros u Hu. rewrite Hts in Hu.
        apply in_app_iff in Hu as [Hu|[<-|[]]]; [by apply g_promise0 | exact Hsig].
      * intros _. left. rewrite Hts. by destruct (tasks s).
      * rewrite Hci. unfold cursor in *. destruct backend; [lia|].
        destruct Hsome as [_ Hlt]. rewrite He in g_cursor0. lia.
      * rewrite Hci. intros j Hj.
        destruct (Nat.eq_dec j (currentIndex s)) as [->|Hne]; [|apply g_items0; lia].
        unfold promised in Hsig.
        destruct (source !! sigma (currentIndex s)) eqn:Hs; [|discriminate].
        by apply lookup_lt_Some in Hs.
      * rewrite Hci. unfold cursor in *. destruct backend; [exact I|].
        destruct Hsome as [-> Hlt]. rewrite He in g_cursor0. lia.
      * rewrite g_settled0, He. reflexivity.
      * intros e0 He0. destruct (g_rejections0 _ He0) as [Hff [i0 Hi0]].
        split; [exact Hff|]. exists i0. by rewrite Hf.
      * intros i0 e0. rewrite Hf. apply g_failed0.
      * intros [Hx|Hx]; discriminate Hx.
      * rewrite Hts, Hci, length_app. simpl. rewrite He in g_polls0. lia.
      * rewrite Hts, Hci, weigh_app. unfold weigh at 2. simpl. lia.
      * eapply (rep_ext rec); [intros j; symmetry; apply Hf|].
        rewrite Hout, Hci.
        assert (Hnone : forall j, Wn `max` currentIndex s <= j ->
                                folded_at (currentIndex s) (tasks s) j = None).
        { intros j Hj. apply folded_at_ge. lia. }
        unfold grown. destruct backend; [exact g_out0|].
        replace (Wn `max` S (currentIndex s))
          with ((Wn `max` currentIndex s) `max` (currentIndex s + 1)) by lia.
        apply (rep_grow rec); [exact Hnone | exact g_out0].
  - apply Hstop; [exact Hn|]. unfold stop_reason. right; left.
    unfold cursor in *. destruct backend.
    + rewrite (proj1 (proj2 Hn)). by apply lookup_ge_None in Hv.
    + rewrite Hcons. unfold pulled. rewrite Hv. by apply lookup_ge_None in Hv.
Qed.

Lemma good_step (s s' : St) (ev : Event) :
  good s -> step_ s ev = Some s' -> good s'.
Proof.
  intros G Hstep.
  destruct (step_inv _ _ _ _ _ _ _ Hstep) as
    [(i & t & -> & Hl & Hp & ->) | [(i & t & -> & Hl & Hp & ->) |
    [(i & t & -> & Hl & Hp & ->) | [(-> & He & ->) | (-> & He & Ht & ->)]]]].
  - by eapply good_settle.
  - by eapply good_finally.
  - by eapply good_dequeue.
  - by apply good_next.
  - by apply good_resolve.
Qed.

(** *** The invariant holds when the call returns *)

Lemma pre_initial : pre (initial backend pol source opts).
Proof.
  constructor; simpl; try reflexivity; try lia; try tauto.
  - unfold cursor. by destruct backend.
  - unfold len. unfold initial. rewrite (@outLength_allocates _ backend source opts Halloc). destruct backend.
    + apply (rep_new rec).
    + simpl. rewrite Nat.max_0_r. apply (rep_new rec).
Qed.

Lemma pre_turn (s s1 s2 : St) (v : T) :
  pre s ->
  pull backend source s = (Some v, s1) ->
  (Z.of_nat (currentIndex s1) < window opts)%Z ->
  put backend pol (async g) v s1 = (s2, None) ->
  pre s2.
Proof.
  intros P Hpull Hlt Hput.
  apply pull_spec in Hpull as [Hv ->]. apply put_spec in Hput.
  unfold async in Hput. simpl in Hput. destruct Hput as [_ ->].
  simpl in Hlt.
  pose proof (pulled_remaining backend source s) as [_ Hsome].
  rewrite <- Hv in Hsome. symmetry in Hv.
  destruct P; constructor; simpl; try assumption.
  - rewrite map_app, p_indices0.
    change (0 :: seq 1 (currentIndex s)) with (seq 0 (S (currentIndex s))).
    by rewrite seq_S.
  - intros u Hu. apply in_app_iff in Hu as [Hu|[<-|[]]]; auto.
  - intros u Hu. apply in_app_iff in Hu as [Hu|[<-|[]]]; [auto|]. simpl.
    unfold promised, sigma. rewrite p_cursor0 in Hv.
    assert (Hlt' : (currentIndex s <? Wn) = true) by (apply Nat.ltb_lt; lia).
    rewrite Hlt'. destruct backend; by rewrite Hv.
  - lia.
  - unfold cursor in *. destruct backend; lia.
  - unfold cursor in *. destruct backend; simpl; [reflexivity|].
    rewrite Hv. lia.
  - unfold len, grown in *. simpl. destruct backend; [exact p_out0|].
    replace (Wn `max` S (currentIndex s))
      with ((Wn `max` currentIndex s) `max` (currentIndex s + 1)) by lia.
    apply (rep_grow rec); [reflexivity | exact p_out0].
Qed.

Lemma weigh_running (ts : list (Task R E)) :
  (forall t, In t ts -> t_phase t = Running) -> weigh uncounted ts = length ts.
Proof.
  unfold weigh. induction ts as [|u ts IH]; simpl; [reflexivity|].
  intros H. rewrite (H u) by auto. simpl. f_equal. auto.
Qed.

Lemma pre_folded (s : St) : pre s -> forall j, folded s j = None.
Proof.
  intros P j. unfold folded, folded_at, is_running.
  destruct (j <? currentIndex s) eqn:Hj; [|reflexivity].
  apply Nat.ltb_lt in Hj.
  destruct (lookup_task j (tasks s)) as [u|] eqn:Hl.
  - apply lookup_task_Some in Hl as [Hin _]. by rewrite (p_running P _ Hin).
  - apply lookup_task_None in Hl. destruct Hl.
    rewrite (p_indices P). apply in_seq. lia.
Qed.

(** The loop is left with an exhausted input or with a full window. *)
Lemma pre_good (s s1 : St) (it : option T) :
  pre s ->
  pull backend source s = (it, s1) ->
  it = None \/ ~ (Z.of_nat (currentIndex s1) < window opts)%Z ->
  good (with_engine Racing s1).
Proof.
  intros P Hpull Hexit.
  pose proof (pre_folded P) as Hf.
  apply pull_spec in Hpull as [-> ->]. simpl in Hexit.
  pose proof (weigh_running _ (p_running P)) as Hw.
  assert (Hlen : length (tasks s) = currentIndex s).
  { rewrite <- (length_map (@t_index R E)), (p_indices P). apply length_seq. }
  assert (Hfull : Nat.min Wn N <= currentIndex s /\
                  (source !! cursor backend s = None -> N <= currentIndex s) /\
                  (source !! cursor backend s <> None -> Wn <= currentIndex s)).
  { pose proof (p_cursor P) as Hc. destruct Hexit as [Hv|Hge].
    - pose proof Hv as Hv'. apply lookup_ge_None in Hv'. rewrite Hc in Hv'.
      repeat split; [lia | lia | congruence].
    - repeat split; [lia | | lia].
      intros Hv. apply lookup_ge_None in Hv. by rewrite Hc in Hv. }
  destruct Hfull as (Hmin & Hnone & Hsome).
  unfold folded in Hf.
  destruct P; constructor; simpl; try assumption; try discriminate;
    unfold folded; simpl.
  - intros u Hu. apply (in_map (@t_index R E)) in Hu.
    rewrite p_indices0 in Hu. apply in_seq in Hu. lia.
  - rewrite p_indices0. apply NoDup_seq.
  - lia.
  - intros _. destruct (tasks s); [right; simpl in Hlen; lia | by left].
  - lia.
  - intros i Hi. unfold sigma. destruct backend; [lia|].
    assert (Hlt : (i <? Wn) = true) by (apply Nat.ltb_lt; lia).
    rewrite Hlt. lia.
  - unfold cursor_ok, cursor, pulled in *. simpl. destruct backend; [exact I|].
    destruct (source !! consumed s).
    + left. split; [lia | by apply Hsome].
    + right. split; [lia | by apply Hnone].
  - by rewrite p_pending0, p_rejections0.
  - rewrite p_throwed0, p_rejections0. split; [discriminate | congruence].
  - rewrite p_rejections0. intros e [].
  - intros i e. by rewrite Hf.
  - intros [Hx|Hx]; discriminate Hx.
  - lia.
  - lia.
  - eapply (rep_ext rec); [|exact p_out0]. intros j. by rewrite Hf.
Qed.

(** The state in which the call returns. *)
Lemma executor_good :
  let s0 := executor backend pol source (async g) opts in
  good s0 /\
  currentIndex s0 = Nat.min Wn N /\
  length (tasks s0) = Nat.min Wn N /\
  (forall t, In t (tasks s0) -> t_phase t = Running) /\
  engine s0 = Racing /\ promise s0 = Pending /\
  polls s0 = 0 /\ readyCount s0 = 0.
Proof.
  destruct (@prefill_rule _ _ _ _ backend pol source (async g) opts pre)
    with (fuel := S N) (s := initial backend pol source opts)
    as (sl & P & Hexit);
    [intros s v s1 s2; apply pre_turn
    | apply pre_initial | apply initial_remaining|].
  unfold executor. rewrite (@outLength_allocates _ backend source opts Halloc).
  destruct (prefill backend pol source (async g) opts (S N)
              (initial backend pol source opts)) as [sf r].
  assert (Hlen : length (tasks sl) = currentIndex sl).
  { rewrite <- (length_map (@t_index R E)), (p_indices P). apply length_seq. }
  inversion Hexit as [s1 Hpull | v s1 Hpull Hge | v s1 s2 e Hpull Hlt Hput]; subst.
  - pose proof (pre_good P Hpull (or_introl eq_refl)) as G.
    apply pull_spec in Hpull as [Hv Hsf].
    assert (Ht : throwed sf = false) by (rewrite Hsf; simpl; apply P).
    rewrite Ht. split; [exact G|].
    pose proof (g_admitted G) as Hadm. rewrite Hsf in *. simpl in *.
    symmetry in Hv. apply lookup_ge_None in Hv. rewrite (p_cursor P) in Hv.
    pose proof (p_window P). pose proof (p_input P).
    repeat split; try lia; try apply P.
  - pose proof (pre_good P Hpull (or_intror Hge)) as G.
    apply pull_spec in Hpull as [Hv Hsf].
    assert (Ht : throwed sf = false) by (rewrite Hsf; simpl; apply P).
    rewrite Ht. split; [exact G|].
    pose proof (g_admitted G) as Hadm. rewrite Hsf in *. simpl in *.
    symmetry in Hv. apply lookup_lt_Some in Hv. rewrite (p_cursor P) in Hv.
    pose proof (p_window P). pose proof (p_input P).
    repeat split; try lia; try apply P.
  - apply put_spec in Hput. unfold async in Hput. by destruct Hput.
Qed.

(** The invariant holds after every schedule. *)
Lemma run_good (sched : list Event) :
  good (run_ sched (executor backend pol source (async g) opts)).
Proof.
  apply run_invariant; [intros s ev s'; apply good_step | apply executor_good].
Qed.

End Async.

(** ** The laws of the two policies *)

Section Arrays.
Context {A : Type}.
Implicit Types (a : list (option A)) (x : A).

Lemma length_newArray (n : nat) : length (@newArray A n) = n.
Proof. apply length_replicate. Qed.

Lemma lookup_newArray (n i : nat) : i < n -> @newArray A n !! i = Some None.
Proof. intros H. by apply lookup_replicate_2. Qed.

Lemma length_growArray (k : nat) a :
  length (growArray k a) = Nat.max (length a) k.
Proof. unfold growArray. rewrite length_app, length_replicate. lia. Qed.

Lemma lookup_growArray_old (k i : nat) a :
  i < length a -> growArray k a !! i = a !! i.
Proof. intros H. unfold growArray. by apply lookup_app_l. Qed.

Lemma lookup_growArray_new (k i : nat) a :
  length a <= i -> i < k -> growArray k a !! i = Some None.
Proof.
  intros H1 H2. unfold growArray. rewrite lookup_app_r by exact H1.
  apply lookup_replicate_2. lia.
Qed.

Lemma length_assign (i : nat) x a :
  i < length a -> length (assign i x a) = length a.
Proof.
  intros H. unfold assign. apply Nat.ltb_lt in H. rewrite H.
  apply length_insert.
Qed.

Lemma lookup_assign_eq (i : nat) x a :
  i < length a -> assign i x a !! i = Some (Some x).
Proof.
  intros H. unfold assign. pose proof H as H'. apply Nat.ltb_lt in H'.
  rewrite H'. by apply list_lookup_insert_eq.
Qed.

Lemma lookup_assign_ne (i j : nat) x a :
  i < length a -> j <> i -> assign i x a !! j = a !! j.
Proof.
  intros H Hne. unfold assign. apply Nat.ltb_lt in H. rewrite H.
  apply list_lookup_insert_ne. congruence.
Qed.
End Arrays.

Section Recorders.
Context {R E : Type}.
Implicit Types (st : nat -> option (Outcome R E)).

Lemma upd_eq {B} (i : nat) (x : B) (f : nat -> B) : upd i x f i = x.
Proof. unfold upd. by rewrite Nat.eqb_refl. Qed.

Lemma upd_ne {B} (i j : nat) (x : B) (f : nat -> B) : j <> i -> upd i x f j = f j.
Proof. unfold upd. intros H. apply Nat.eqb_neq in H. by rewrite H. Qed.

Lemma dependently_recorder : Recorder (dependently R E) rep_dependently.
Proof.
  constructor; unfold rep_dependently; simpl.
  - intros st st' n o Hst [Hlen Hcell]. split; [exact Hlen|].
    intros i Hi. rewrite <- Hst. auto.
  - intros n. split; [apply length_newArray|].
    intros i Hi. by apply lookup_newArray.
  - intros st n k o Hnone [Hlen Hcell]. split.
    + rewrite length_growArray. lia.
    + intros i Hi. destruct (Nat.lt_ge_cases i n) as [Hlt|Hge].
      * rewrite lookup_growArray_old by lia. auto.
      * rewrite lookup_growArray_new by lia. by rewrite Hnone.
  - intros st n o i r Hi Hnone [Hlen Hcell]. split.
    + rewrite length_assign; lia.
    + intros j Hj. destruct (Nat.eq_dec j i) as [->|Hne].
      * rewrite upd_eq, lookup_assign_eq by lia. reflexivity.
      * rewrite upd_ne, lookup_assign_ne by (lia || assumption). auto.
  - intros st n o i e Hi Hnone [Hlen Hcell]. split; [exact Hlen|].
    intros j Hj. destruct (Nat.eq_dec j i) as [->|Hne].
    + rewrite upd_eq, (Hcell i Hi), Hnone. reflexivity.
    + rewrite upd_ne by assumption. auto.
Qed.

Lemma independently_recorder : Recorder (independently R E) rep_independently.
Proof.
  constructor; unfold rep_independently; simpl.
  - intros st st' n o Hst (Hl1 & Hl2 & Hres & Hval & Herr & Hok).
    repeat split; try assumption.
    + intros i Hi. rewrite <- Hst. auto.
    + intros i Hi. rewrite <- Hst. auto.
    + intros i. rewrite <- Hst. auto.
    + intros H i. rewrite <- Hst. by apply Hok.
    + intros H. apply Hok. intros i. rewrite Hst. auto.
  - intros n. repeat split; try apply length_newArray.
    + intros i Hi. by apply lookup_newArray.
    + intros i Hi. by apply lookup_newArray.
  - intros st n k o Hnone (Hl1 & Hl2 & Hres & Hval & Herr & Hok).
    repeat split; try assumption; try (rewrite length_growArray; lia).
    + intros i Hi. destruct (Nat.lt_ge_cases i n) as [Hlt|Hge].
      * rewrite lookup_growArray_old by lia. auto.
      * rewrite lookup_growArray_new by lia. by rewrite Hnone.
    + intros i Hi. destruct (Nat.lt_ge_cases i n) as [Hlt|Hge].
      * rewrite lookup_growArray_old by lia. auto.
      * rewrite lookup_growArray_new by lia. by rewrite Hnone.
    + by apply Hok.
    + by apply Hok.
  - intros st n o i r Hi Hnone (Hl1 & Hl2 & Hres & Hval & Herr & Hok).
    repeat split; try (rewrite length_assign; lia).
    + intros j Hj. destruct (Nat.eq_dec j i) as [->|Hne].
      * rewrite upd_eq, lookup_assign_eq by lia. reflexivity.
      * rewrite upd_ne, lookup_assign_ne by (lia || assumption). auto.
    + intros j Hj. destruct (Nat.eq_dec j i) as [->|Hne].
      * rewrite upd_eq, lookup_assign_eq by lia. reflexivity.
      * rewrite upd_ne, lookup_assign_ne by (lia || assumption). auto.
    + intros j. destruct (Nat.eq_dec j i) as [->|Hne].
      * rewrite upd_eq, Herr, Hnone. reflexivity.
      * rewrite upd_ne by assumption. auto.
    + intros H j. destruct (Nat.eq_dec j i) as [->|Hne].
      * by rewrite upd_eq.
      * rewrite upd_ne by assumption. by apply Hok.
    + intros H. apply Hok. intros j. destruct (Nat.eq_dec j i) as [->|Hne].
      * by rewrite Hnone.
      * specialize (H j). by rewrite upd_ne in H.
  - intros st n o i e Hi Hnone (Hl1 & Hl2 & Hres & Hval & Herr & Hok).
    repeat split; try assumption; try (rewrite length_assign; lia).
    + intros j Hj. destruct (Nat.eq_dec j i) as [->|Hne].
      * rewrite upd_eq, lookup_assign_eq by lia. reflexivity.
      * rewrite upd_ne, lookup_assign_ne by (lia || assumption). auto.
    + intros j Hj. destruct (Nat.eq_dec j i) as [->|Hne].
      * rewrite upd_eq, (Hval i Hi), Hnone. reflexivity.
      * rewrite upd_ne by assumption. auto.
    + intros j. destruct (Nat.eq_dec j i) as [->|Hne].
      * rewrite upd_eq. apply lookup_insert_eq.
      * rewrite upd_ne, lookup_insert_ne by congruence. auto.
    + discriminate.
    + intros H. specialize (H i). by rewrite upd_eq in H.
Qed.
End Recorders.

(** ** What later callbacks cannot change *)

Section Frames.
Context {T R E O : Type}.
Variable backend : Backend.
Variable pol : Policy R E O.
Variable source : list T.
Variable cb : Callback T R E.
Variable opts : Options.

Abbreviation St := (State R E O).
Abbreviation step_ := (step backend pol source cb opts).
Abbreviation run_ := (run backend pol source cb opts).

(** The calls of [reject] only add to [rejections]. *)
Lemma rejections_grow (sched : list Event) (s : St) :
  exists l, rejections (run_ sched s) = rejections s ++ l.
Proof.
  apply run_invariant with (P := fun s' => exists l, rejections s' = rejections s ++ l).
  - intros s1 ev s2 [l Hl] Hstep.
    destruct (step_inv _ _ _ _ _ _ _ Hstep) as
      [(i & t & -> & _ & _ & ->) | [(i & t & -> & _ & _ & ->) |
      [(i & t & -> & _ & _ & ->) | [(-> & _ & ->) | (-> & _ & _ & ->)]]]].
    + unfold settle. destruct (t_promise t); [|destruct (failFast pol)]; simpl.
      * by exists l.
      * exists (l ++ [e]). by rewrite Hl, app_assoc.
      * by exists l.
    + by exists l.
    + by exists l.
    + pose proof (next_cases backend pol source cb opts s1)
        as [(_ & _ & _ & Hrej & _) _].
      exists l. by rewrite Hrej.
    + by exists l.
  - exists []. by rewrite app_nil_r.
Qed.



End Frames.

(** ** How a run ends *)

Section Completion.
Context {T R E O : Type}.
Variable backend : Backend.
Variable pol : Policy R E O.
Variable Rep : (nat -> option (Outcome R E)) -> nat -> O -> Prop.
Hypothesis rec : Recorder pol Rep.
Variable source : list T.
Variable g : T -> nat -> Outcome R E.
Variable opts : Options.

Abbreviation St := (State R E O).
Abbreviation run_ := (run backend pol source (async g) opts).
Abbreviation good_ := (good backend pol Rep source g opts).
Abbreviation promised_ := (promised backend source g opts).
Abbreviation folded_ := (folded backend source g opts).

(** When no callback is due, [next] has stopped and called [res], and
    every admitted task has been folded. *)
Lemma quiescent_good (s : St) :
  good_ s -> quiescent s = true ->
  source <> [] -> (1 <= window opts)%Z ->
  engine s = Finished /\ tasks s = [] /\
  forall i, i < currentIndex s ->
            exists o, promised_ i = Some o /\ folded_ s i = Some o.
Proof.
  intros G Hq Hsrc Hw. unfold quiescent in Hq.
  destruct (tasks s) eqn:Ht; [|discriminate].
  assert (He : engine s = Finished).
  { destruct (engine s) eqn:He; try discriminate; try reflexivity.
    - destruct (g_racing G He) as [Hne|Hz]; [by rewrite Ht in Hne|].
      pose proof (g_admitted G) as Hadm. destruct source; [done|].
      simpl in Hadm. lia.
    - by destruct (g_engine G). }
  repeat split; [exact He|].
  intros i Hi. unfold folded, folded_at, is_running, promised. rewrite Ht. simpl.
  apply Nat.ltb_lt in Hi as Hi'. rewrite Hi'. simpl.
  pose proof (g_items G Hi) as Hlt. apply lookup_lt_is_Some in Hlt as [v Hv].
  rewrite Hv. eauto.
Qed.

(** Every run can be continued until no callback is due. *)
Lemma run_completes (s : St) :
  exists sched, quiescent (run_ sched s) = true.
Proof.
  destruct (@drive_quiescent _ _ _ _ backend pol source (async g) opts
              (work backend source s) s)
    as [Hq [sched Hsched]]; [lia|].
  exists sched. apply exec_run in Hsched. by rewrite Hsched.
Qed.

(** What the promise is when [next] has finished. *)
Lemma finished_promise (s : St) :
  good_ s -> engine s = Finished ->
  promise s = match rejections s with [] => Resolved | e :: _ => Rejected e end.
Proof. intros G He. rewrite (g_settled G), He. reflexivity. Qed.

(** Without a failed task there is no rejection. *)
Lemma no_failure_no_rejection (s : St) :
  good_ s ->
  (forall i e, promised_ i <> Some (Failed e)) ->
  rejections s = [] /\ throwed s = false.
Proof.
  intros G Hok.
  assert (Hr : rejections s = []).
  { destruct (rejections s) as [|e l] eqn:Hr; [reflexivity|].
    destruct (g_rejections G e) as [_ [i Hi]]; [rewrite Hr; by left|].
    unfold folded, folded_at in Hi.
    destruct (_ && _); [by apply Hok in Hi | discriminate]. }
  split; [exact Hr|].
  destruct (throwed s) eqn:Ht; [|reflexivity].
  by apply (g_throwed G) in Ht.
Qed.

(** Why [next] stopped when [isCanceled] never answers true and no failure
    stops the policy: the input was exhausted. *)
Lemma finished_exhausted (s : St) :
  good_ s -> engine s = Finished ->
  (forall f p rc, isCanceled opts = Some f -> f p rc = false) ->
  failFast pol = false \/ (forall i e, promised_ i <> Some (Failed e)) ->
  length source <= cursor backend s.
Proof.
  intros G He Hc Hok.
  destruct (g_stop G (or_intror He)) as [(f & p & rc & Hf & Ht)|[Hx|[Hff Ht]]].
  - rewrite (Hc f p rc Hf) in Ht. discriminate.
  - exact Hx.
  - destruct Hok as [Hok|Hok]; [congruence|].
    destruct (no_failure_no_rejection G Hok) as [_ Hth]. congruence.
Qed.

End Completion.

(** ** The accounts of a run *)

Section Sound.
Context {T R E O : Type}.
Variable backend : Backend.
Variable pol : Policy R E O.
Variable source : list T.
Variable cb : Callback T R E.
Variable opts : Options.

Abbreviation St := (State R E O).
Abbreviation step_ := (step backend pol source cb opts).
Abbreviation run_ := (run backend pol source cb opts).
Abbreviation start_ := (executor backend pol source cb opts).
Abbreviation sound_ := (sound backend pol source opts).
Abbreviation closed_ := (closed pol).

Lemma sound_settle (s : St) (i : nat) (t : Task R E) :
  sound_ s -> lookup_task i (tasks s) = Some t -> t_phase t = Running ->
  sound_ (settle pol t s).
Proof.
  intros S Hl Hp.
  destruct (lookup_task_Some _ _ Hl) as [Hin Hti].
  pose proof (weigh_set_phase uncounted _ Handled _ Hl) as Hw.
  rewrite Hp in Hw. simpl in Hw.
  assert (Hidx : forall u, In u (set_phase (t_index t) Handled (tasks s)) ->
                           t_index u < currentIndex s).
  { intros u Hu. apply In_set_phase in Hu as (u' & Hu' & -> & _).
    by apply (s_index S). }
  unfold settle. rewrite Hti.
  destruct (t_promise t) as [r|e]; [|destruct (failFast pol) eqn:Hff].
  - destruct S. constructor; simpl; try assumption; try lia.
    + by rewrite <- Hti.
    + intros Hf. rewrite s_finished0 in Hin by exact Hf. destruct Hin.
  - destruct S. constructor; simpl; try assumption; try lia.
    + by rewrite <- Hti.
    + intros Hf. rewrite s_finished0 in Hin by exact Hf. destruct Hin.
    + intros Hr. apply s_resolved0. by destruct (promise s).
    + intros e' _. left. by split.
    + intros Hfalse. rewrite Hff in Hfalse. discriminate.
  - destruct S. constructor; simpl; try assumption; try lia.
    + by rewrite <- Hti.
    + intros Hf. rewrite s_finished0 in Hin by exact Hf. destruct Hin.
Qed.

Lemma sound_finally (s : St) (i : nat) (t : Task R E) :
  sound_ s -> lookup_task i (tasks s) = Some t -> t_phase t = Handled ->
  sound_ (finally opts i s).
Proof.
  intros S Hl Hp.
  destruct (lookup_task_Some _ _ Hl) as [Hin Hti].
  pose proof (weigh_set_phase uncounted _ Counted _ Hl) as Hw.
  rewrite Hp in Hw. simpl in Hw.
  destruct S. constructor; simpl; try assumption; try lia.
  - rewrite s_progress0. destruct (onProgress opts); [|reflexivity].
    change (1 :: seq 2 (readyCount s)) with (seq 1 (S (readyCount s))).
    by rewrite seq_S.
  - intros u Hu. apply In_set_phase in Hu as (u' & Hu' & -> & _). auto.
  - intros Hf. rewrite s_finished0 in Hin by exact Hf. destruct Hin.
Qed.

Lemma sound_dequeue (s : St) (i : nat) (t : Task R E) :
  sound_ s -> lookup_task i (tasks s) = Some t -> t_phase t = Counted ->
  sound_ (dequeue i s).
Proof.
  intros S Hl Hp.
  destruct (lookup_task_Some _ _ Hl) as [Hin Hti].
  pose proof (weigh_remove_task uncounted _ _ Hl) as Hw.
  rewrite Hp in Hw. simpl in Hw.
  destruct S. constructor; simpl; try assumption; try lia.
  - intros He. apply s_racing0.
    destruct (engine s); auto; destruct He; discriminate.
  - intros u Hu. apply In_remove_task in Hu. auto.
  - intros Hf. rewrite s_finished0 in Hin; [destruct Hin|].
    by destruct (engine s).
  - intros Hr. specialize (s_resolved0 Hr). by rewrite s_resolved0.
  - intros e He. destruct (s_rejected0 e He) as [Hl'|Hh]; [by left|].
    right. by rewrite Hh.
  - intros Hff He. apply s_pending0; [exact Hff|].
    destruct (engine s); simpl in He; intuition discriminate.
Qed.

Lemma sound_resolve (s : St) :
  sound_ s -> engine s = Draining -> tasks s = [] -> sound_ (resolve s).
Proof.
  intros S He Ht.
  destruct S. constructor; simpl; try assumption; try lia; try done.
  - intros [H|H]; discriminate.
  - intros e Hr. destruct (promise s) eqn:Hp; try discriminate.
    destruct (s_rejected0 e0 eq_refl) as [Hl|Hh]; [by left | congruence].
  - intros _ [H|[H|H]]; discriminate.
Qed.

Lemma pulled_bounds (s : St) :
  consumed s <= pulled backend source s <= S (consumed s) /\
  (consumed s <= length source -> pulled backend source s <= length source) /\
  (backend = Indexed -> pulled backend source s = consumed s) /\
  (forall v, source !! cursor backend s = Some v ->
             cursor backend s < length source /\
             (backend = Iterated -> pulled backend source s = S (consumed s))).
Proof.
  unfold pulled, cursor. destruct backend.
  - repeat split; try lia; try discriminate. by apply lookup_lt_Some in H.
  - destruct (source !! consumed s) as [x|] eqn:Hx.
    + apply lookup_lt_Some in Hx. repeat split; try lia; discriminate.
    + repeat split; try lia; discriminate.
Qed.

Lemma sound_next (s : St) :
  sound_ s -> engine s = Woken -> sound_ (next backend pol source cb opts s).
Proof.
  intros HS He.
  pose proof (next_cases backend pol source cb opts s)
    as [(Ht & Hr & Hp & Hrej & Hpr & Hc & _) Hn].
  destruct (pulled_bounds s) as (Hpb & Hpn & Hpi & Hpv).
  set (s' := next backend pol source cb opts s) in *.
  pose proof (s_racing HS (or_intror He)) as Hahead.
  pose proof (s_cursor HS) as Hcur.
  assert (Hstill : (engine s' = Draining \/ engine s' = Halted) ->
                   currentIndex s' = currentIndex s -> tasks s' = tasks s ->
                   sound_ s').
  { intros Heng Hci Hts. constructor.
    - rewrite Hr, Hts, Hci. apply (s_ready HS).
    - rewrite Hpr, Hr. apply (s_progress HS).
    - rewrite Hci. apply (s_input HS).
    - rewrite Hc, Hci. destruct backend; [rewrite Hpi by reflexivity; exact Hcur|].
      split; [lia | apply Hpn; lia].
    - rewrite Hc, Hci. lia.
    - intros [H|H]; destruct Heng; congruence.
    - rewrite Hts, Hci. apply (s_index HS).
    - intros H; destruct Heng; congruence.
    - rewrite Hp. intros H. apply (s_resolved HS) in H. congruence.
    - rewrite Hp, Ht. intros e H.
      destruct (s_rejected HS H) as [Hl|Hh]; [by left | congruence].
    - rewrite Hp. intros Hff _. apply (s_pending HS Hff). auto. }
  destruct (source !! cursor backend s) as [v|] eqn:Hv;
    [destruct (asked opts s || (failFast pol && throwed s));
     [|destruct (cb v (currentIndex s)) as [p|e]]|].
  - destruct Hn as (Hd & Hci & Hts & _). apply Hstill; auto.
  - destruct Hn as (Hd & Hci & Hts & _).
    destruct (Hpv v eq_refl) as [Hlt Hit].
    assert (Hnew : S (currentIndex s) <= length source).
    { unfold cursor in Hlt. destruct backend; lia. }
    constructor.
    + rewrite Hr, Hts, Hci, weigh_app. pose proof (s_ready HS). unfold weigh at 2.
      simpl. lia.
    + rewrite Hpr, Hr. apply (s_progress HS).
    + rewrite Hci. exact Hnew.
    + rewrite Hc, Hci. destruct backend; [rewrite Hpi by reflexivity; exact Hcur|].
      rewrite Hit by reflexivity. unfold cursor in Hlt. lia.
    + rewrite Hc, Hci. lia.
    + intros _. rewrite Hc, Hci.
      destruct backend; [rewrite Hpi by reflexivity; lia|].
      rewrite Hit by reflexivity. lia.
    + rewrite Hts, Hci. intros t Hin. apply in_app_or in Hin as [Hin|[<-|[]]].
      * pose proof (s_index HS t Hin). lia.
      * simpl. lia.
    + congruence.
    + rewrite Hp. intros H. apply (s_resolved HS) in H. congruence.
    + rewrite Hp, Ht. intros e H.
      destruct (s_rejected HS H) as [Hl|Hh]; [by left | congruence].
    + rewrite Hp. intros Hff _. apply (s_pending HS Hff). auto.
  - destruct Hn as (Hd & Hci & Hts & _). apply Hstill; auto.
  - destruct Hn as (Hd & Hci & Hts & _). apply Hstill; auto.
Qed.

Lemma sound_step (s s' : St) (ev : Event) :
  sound_ s -> step_ s ev = Some s' -> sound_ s'.
Proof.
  intros S Hstep.
  destruct (step_inv _ _ _ _ _ _ _ Hstep) as
    [(i & t & -> & Hl & Hp & ->) | [(i & t & -> & Hl & Hp & ->) |
    [(i & t & -> & Hl & Hp & ->) | [(-> & He & ->) | (-> & He & Ht & ->)]]]].
  - eapply sound_settle; eauto.
  - eapply sound_finally; eauto.
  - eapply sound_dequeue; eauto.
  - by apply sound_next.
  - by apply sound_resolve.
Qed.

(** The accounts of the state in which the call returns. *)
Lemma executor_sound : sound_ start_.
Proof.
  set (P := fun s : St =>
              sound_ s /\ engine s = Halted /\ promise s = Pending /\
              throwed s = false /\ readyCount s = 0 /\
              cursor backend s = currentIndex s).
  assert (Hinit : P (initial backend pol source opts)).
  { unfold P. split; [|unfold initial, cursor; simpl; repeat split; by destruct backend].
    unfold initial. constructor; simpl; try discriminate; try lia.
    - reflexivity.
    - by destruct (onProgress opts).
    - destruct backend; lia.
    - reflexivity. }
  destruct (@prefill_rule _ _ _ _ backend pol source cb opts P)
    with (fuel := S (length source)) (s := initial backend pol source opts)
    as (sl & (HS & Heng & Hpend & Hthr & Hrc & Hcur) & Hexit);
    [|exact Hinit | apply initial_remaining|].
  { intros s v s1 s2 (HS & Heng & Hpend & Hthr & Hrc & Hcur) Hpull Hlt Hput.
    apply pull_spec in Hpull as [Hv ->]. apply put_spec in Hput. simpl in Hput.
    destruct (pulled_bounds s) as (Hpb & Hpn & Hpi & Hpv).
    destruct (Hpv v (eq_sym Hv)) as [Hlen Hit]. rewrite Hcur in Hlen.
    pose proof (s_cursor HS) as Hc.
    destruct (cb v (currentIndex s)); destruct Hput as [Hr ->]; [|discriminate Hr].
    unfold P, cursor in *; simpl.
    split; [|repeat split; try assumption;
             destruct backend; [reflexivity | by rewrite Hit, Hcur]].
    constructor; simpl; try congruence.
    - rewrite weigh_app. pose proof (s_ready HS). unfold weigh at 2. simpl. lia.
    - apply (s_progress HS).
    - lia.
    - destruct backend; [by rewrite Hpi | rewrite Hit by reflexivity; lia].
    - destruct backend; [rewrite Hpi by reflexivity; lia
                        | rewrite Hit by reflexivity; lia].
    - intros [H|H]; congruence.
    - intros t Hin. apply in_app_or in Hin as [Hin|[<-|[]]].
      + pose proof (s_index HS t Hin). lia.
      + simpl. lia. }
  pose proof (s_cursor HS) as Hc.
  destruct (pulled_bounds sl) as (Hpb & Hpn & Hpi & Hpv).
  assert (Hpulled : forall p g (thr : bool) (o : O),
             (p = Pending /\ g = Racing /\ thr = false) \/
             (g = Halted /\ exists e, p = Rejected e) ->
             sound_ {| throwed := thr; readyCount := readyCount sl;
                       currentIndex := currentIndex sl; out := o;
                       tasks := tasks sl; consumed := pulled backend source sl;
                       promise := p; rejections := rejections sl; engine := g;
                       polls := polls sl; progress := progress sl |}).
  { intros p g thr o Hcase. unfold cursor in Hcur.
    assert (Hle : pulled backend source sl <= S (currentIndex sl)).
    { destruct backend; [rewrite Hpi by reflexivity; lia | lia]. }
    constructor; simpl.
    - apply (s_ready HS).
    - apply (s_progress HS).
    - apply (s_input HS).
    - destruct backend; [by rewrite Hpi | split; [lia | apply Hpn; lia]].
    - lia.
    - intros _. exact Hle.
    - apply (s_index HS).
    - destruct Hcase as [(_ & -> & _)|(-> & _)]; discriminate.
    - destruct Hcase as [(-> & _)|(_ & e & ->)]; discriminate.
    - intros e He. destruct Hcase as [(-> & _)|(-> & _)]; [discriminate | by right].
    - intros _ Hg. destruct Hcase as [(-> & _)|(-> & _)]; [reflexivity|].
      destruct Hg as [H|[H|H]]; discriminate. }
  unfold executor.
  destruct (outLength backend source opts) as [n|].
  2:{ destruct Hinit as (HS0 & _). destruct HS0.
      constructor; simpl; try assumption; try discriminate.
      intros _ [H|[H|H]]; discriminate. }
  destruct (prefill backend pol source cb opts (S (length source))
              (initial backend pol source opts)) as [sf r].
  inversion Hexit as [s1 Hpull | v s1 Hpull Hge | v s1 s2 e Hpull Hlt Hput];
    subst; apply pull_spec in Hpull as [_ ->]; simpl.
  - rewrite Hthr. unfold with_engine; simpl. apply Hpulled. left. auto.
  - rewrite Hthr. unfold with_engine; simpl. apply Hpulled. left. auto.
  - apply put_spec in Hput. simpl in Hput.
    destruct (cb v (currentIndex sl)); destruct Hput as [[=] ->].
    unfold with_promise, with_out; simpl. rewrite Hpend, Heng. simpl.
    apply Hpulled. right. split; [reflexivity | by exists e].
Qed.

(** The accounts after every schedule. *)
Lemma run_sound (sched : list Event) : sound_ (run_ sched start_).
Proof.
  apply run_invariant; [|exact executor_sound].
  intros s ev s'. apply sound_step.
Qed.

(** Once no further work item can be admitted, none is. *)
Lemma closed_forever (sched : list Event) (s : St) :
  closed_ s ->
  closed_ (run_ sched s) /\ currentIndex (run_ sched s) = currentIndex s.
Proof.
  intros Hc.
  apply (@run_invariant _ _ _ _ backend pol source cb opts
           (fun s' => closed_ s' /\ currentIndex s' = currentIndex s));
    [|by split].
  clear sched. intros s1 ev s2 [Hc1 Hci] Hstep.
  destruct (step_inv _ _ _ _ _ _ _ Hstep) as
    [(i & t & -> & Hl & Hp & ->) | [(i & t & -> & Hl & Hp & ->) |
    [(i & t & -> & Hl & Hp & ->) | [(-> & He & ->) | (-> & He & Ht & ->)]]]].
  - unfold closed, settle in *.
    destruct (t_promise t); [|destruct (failFast pol) eqn:Hff]; simpl; tauto.
  - unfold closed, finally in *; simpl; tauto.
  - unfold closed, dequeue in *; simpl. split; [|exact Hci].
    destruct Hc1 as [Hl1|Hh]; [by left | right; by rewrite Hh].
  - destruct Hc1 as [[Hff Hthr]|Hh]; [|congruence].
    pose proof (next_cases backend pol source cb opts s1) as [(Ht & _) Hn].
    rewrite Hff, Hthr, orb_true_r in Hn.
    assert (Hstop : stops s1 (next backend pol source cb opts s1))
      by (destruct (source !! cursor backend s1); exact Hn).
    destruct Hstop as (_ & Hci' & _).
    split; [left; split; [exact Hff | congruence] | congruence].
  - unfold closed, resolve in *; simpl.
    destruct Hc1 as [Hl1|Hh]; [split; [by left | exact Hci] | congruence].
Qed.


(** After an exception has escaped, [next] never runs again. *)
Lemma halted_forever (sched : list Event) (s : St) :
  engine s = Halted ->
  let s' := run_ sched s in
  engine s' = Halted /\ currentIndex s' = currentIndex s /\
  consumed s' = consumed s /\ polls s' = polls s /\
  (failFast pol = false -> promise s' = promise s).
Proof.
  intros Hh.
  apply (@run_invariant _ _ _ _ backend pol source cb opts
           (fun s' => engine s' = Halted /\ currentIndex s' = currentIndex s /\
                      consumed s' = consumed s /\ polls s' = polls s /\
                      (failFast pol = false -> promise s' = promise s)));
    [|tauto].
  clear sched. intros s1 ev s2 (He1 & Hci & Hco & Hpo & Hpr) Hstep.
  destruct (step_inv _ _ _ _ _ _ _ Hstep) as
    [(i & t & -> & Hl & Hp & ->) | [(i & t & -> & Hl & Hp & ->) |
    [(i & t & -> & Hl & Hp & ->) | [(-> & He & ->) | (-> & He & Ht & ->)]]]];
    try congruence.
  - unfold settle.
    destruct (t_promise t); [|destruct (failFast pol)]; simpl; auto.
    repeat split; auto. discriminate.
  - unfold finally; simpl; auto.
  - unfold dequeue; simpl. rewrite He1. auto.
Qed.

(** Only the first call of [res] or [rej] settles the promise. *)
Lemma settled_forever (sched : list Event) (s : St) :
  promise s <> Pending -> promise (run_ sched s) = promise s.
Proof.
  intros Hs.
  apply (@run_invariant _ _ _ _ backend pol source cb opts
           (fun s' => promise s' = promise s)); [|reflexivity].
  clear sched. intros s1 ev s2 Hpr Hstep.
  destruct (step_inv _ _ _ _ _ _ _ Hstep) as
    [(i & t & -> & Hl & Hp & ->) | [(i & t & -> & Hl & Hp & ->) |
    [(i & t & -> & Hl & Hp & ->) | [(-> & He & ->) | (-> & He & Ht & ->)]]]].
  - unfold settle.
    destruct (t_promise t); [|destruct (failFast pol)]; simpl; auto.
    rewrite Hpr. by destruct (promise s).
  - exact Hpr.
  - exact Hpr.
  - pose proof (next_cases backend pol source cb opts s1) as [(_ & _ & Hp & _) _].
    congruence.
  - unfold resolve; simpl. rewrite Hpr. by destruct (promise s).
Qed.

Lemma tasks_weight_le (ts : list (Task R E)) : tasks_weight ts <= 3 * length ts.
Proof.
  unfold tasks_weight, weigh. induction ts as [|t ts IH]; simpl; [lia|].
  destruct (t_phase t); simpl; lia.
Qed.

(** The work of a whole run. *)
Lemma executor_work : work backend source start_ <= 4 * length source + 2.
Proof.
  pose proof executor_sound as HS.
  destruct (executor_bounded backend pol source cb opts) as (_ & Hlen & _).
  pose proof (tasks_weight_le (tasks start_)) as Hw.
  pose proof (s_input HS) as Hin. pose proof (s_cursor HS) as Hc.
  unfold work, remaining.
  assert (He : engine_weight (engine start_) <= 2) by (destruct (engine start_); simpl; lia).
  destruct backend; lia.
Qed.

Lemma work_run (sched : list Event) (s : St) :
  work backend source (run_ sched s) <= work backend source s.
Proof.
  apply (@run_invariant _ _ _ _ backend pol source cb opts
           (fun s' => work backend source s' <= work backend source s)); [|lia].
  intros s1 ev s2 Hle Hstep. apply work_step in Hstep. lia.
Qed.

(** Whatever has run, at most [4 N + 2] further callbacks complete the
    run. *)
Lemma run_completes_soon (sched : list Event) :
  exists sched',
    length sched' <= 4 * length source + 2 /\
    quiescent (run_ (sched ++ sched') start_) = true.
Proof.
  set (s := run_ sched start_).
  destruct (@drive_quiescent _ _ _ _ backend pol source cb opts
              (work backend source s) s) as [Hq [sched' Hex]]; [lia|].
  exists sched'. pose proof (exec_length _ _ _ _ _ _ _ Hex) as Hlen.
  apply exec_run in Hex. rewrite run_app. fold s. rewrite Hex.
  split; [|exact Hq].
  pose proof (work_run sched start_). pose proof executor_work. fold s in H. lia.
Qed.

(** A schedule of due callbacks is at most [4 N + 2] callbacks long. *)
Lemma exec_short (sched : list Event) (s' : St) :
  exec backend pol source cb opts sched start_ = Some s' ->
  length sched <= 4 * length source + 2.
Proof.
  intros Hex. apply exec_length in Hex. pose proof executor_work. lia.
Qed.

(** A work function that throws when [next] calls it. *)
Lemma next_throws (s : St) (v : T) (e : E) (sched : list Event) :
  sound_ s -> engine s = Woken ->
  source !! cursor backend s = Some v ->
  asked opts s = false -> failFast pol && throwed s = false ->
  cb v (currentIndex s) = Throws e ->
  let s' := run_ (Next :: sched) s in
  engine s' = Halted /\ currentIndex s' = currentIndex s /\
  promise s' <> Resolved /\
  (failFast pol = false -> promise s' = Pending).
Proof.
  intros HS He Hv Hask Hff Hthrows s'.
  assert (Hfire : s' = run_ sched (next backend pol source cb opts s)).
  { unfold s'. rewrite run_cons. unfold fire. simpl. by rewrite He. }
  pose proof (next_cases backend pol source cb opts s) as [(_ & _ & Hp & _) Hn].
  rewrite Hv, Hask, Hff, Hthrows in Hn. simpl in Hn.
  destruct Hn as (Hh & Hci & _).
  destruct (halted_forever sched _ Hh) as (Hh' & Hci' & _ & _ & Hpr).
  rewrite <- Hfire in Hh', Hci', Hpr.
  assert (HS' : sound_ s').
  { rewrite Hfire. apply run_invariant; [|by apply sound_next].
    intros s1 ev s2. apply sound_step. }
  split; [exact Hh'|]. split; [congruence|]. split.
  - intros Hr. apply (s_resolved HS') in Hr. congruence.
  - intros Hfalse. rewrite (Hpr Hfalse), Hp. apply (s_pending HS Hfalse). auto.
Qed.

(** With a window that is not positive nothing is ever admitted. *)
Lemma executor_no_window :
  allocates backend opts -> (window opts <= 0)%Z ->
  let s := start_ in
  promise s = Pending /\ currentIndex s = 0 /\ tasks s = [] /\
  engine s = Racing /\
  consumed s = match backend with
               | Indexed => 0
               | Iterated => Nat.min 1 (length source)
               end.
Proof.
  intros Ha HW.
  assert (Htest : below 0 (threads opts) = false).
  { rewrite below_window. apply Z.ltb_ge. lia. }
  unfold executor. rewrite (@outLength_allocates _ backend source opts Ha).
  simpl. unfold pull, initial. simpl.
  destruct backend; destruct source as [|x l]; simpl; rewrite ?Htest; simpl; auto.
Qed.

(** *** The state in which the call returns *)

(** Whatever the work function does: when the call returns no task has
    settled, [isCanceled] has not been called, and either [next] waits for
    the race, or an exception has escaped and the promise is rejected. *)
Lemma executor_start :
  let s0 := start_ in
  polls s0 = 0 /\ readyCount s0 = 0 /\ rejections s0 = [] /\
  ((engine s0 = Racing /\ promise s0 = Pending) \/
   (engine s0 = Halted /\ promise s0 <> Pending /\ promise s0 <> Resolved)).
Proof.
  set (P := fun s : St =>
              polls s = 0 /\ readyCount s = 0 /\ rejections s = [] /\
              engine s = Halted /\ promise s = Pending /\ throwed s = false).
  assert (Hinit : P (initial backend pol source opts)) by (by unfold P, initial).
  destruct (@prefill_rule _ _ _ _ backend pol source cb opts P)
    with (fuel := S (length source)) (s := initial backend pol source opts)
    as (sl & (Hpo & Hrc & Hrej & Heng & Hpend & Hthr) & Hexit);
    [|exact Hinit | apply initial_remaining|].
  { intros s v s1 s2 Hs Hpull Hlt Hput.
    apply pull_spec in Hpull as [_ ->]. apply put_spec in Hput. simpl in Hput.
    destruct (cb v (currentIndex s)); destruct Hput as [Hr ->]; [|discriminate Hr].
    exact Hs. }
  unfold executor.
  destruct (outLength backend source opts) as [n|];
    [|simpl; repeat split; try reflexivity; right; repeat split; discriminate].
  destruct (prefill backend pol source cb opts (S (length source))
              (initial backend pol source opts)) as [sf r].
  inversion Hexit as [s1 Hpull | v s1 Hpull Hge | v s1 s2 e Hpull Hlt Hput];
    subst; apply pull_spec in Hpull as [_ ->]; simpl.
  - rewrite Hthr. simpl. repeat split; try assumption. by left.
  - rewrite Hthr. simpl. repeat split; try assumption. by left.
  - apply put_spec in Hput. simpl in Hput.
    destruct (cb v (currentIndex sl)); destruct Hput as [[=] ->]. simpl.
    rewrite Hpend. simpl. repeat split; try assumption.
    right. repeat split; [exact Heng | discriminate | discriminate].
Qed.

(** *** The pre-fill wave *)

(** The pre-fill loop, whatever the work function does: it starts what it
    admits, at most [min(W, N)] tasks, and calls no [isCanceled]; it admits
    [min(W, N)] tasks when the work function returns a promise for each of
    them. *)
Lemma executor_wave :
  allocates backend opts ->
  let s0 := start_ in
  let wave := Nat.min (Z.to_nat (window opts)) (length source) in
  currentIndex s0 <= wave /\ length (tasks s0) = currentIndex s0 /\
  (forall t, In t (tasks s0) -> t_phase t = Running) /\
  polls s0 = 0 /\ readyCount s0 = 0 /\
  ((forall i v, i < wave -> source !! i = Some v -> exists p, cb v i = Returns p) ->
   currentIndex s0 = wave).
Proof.
  intros Ha s0 wave.
  set (P := fun s : St =>
              length (tasks s) = currentIndex s /\
              (forall t, In t (tasks s) -> t_phase t = Running) /\
              polls s = 0 /\ readyCount s = 0 /\
              cursor backend s = currentIndex s /\
              currentIndex s <= wave).
  assert (Hinit : P (initial backend pol source opts)).
  { unfold P, initial, cursor; simpl.
    repeat split; try lia. by destruct backend. }
  destruct (@prefill_rule _ _ _ _ backend pol source cb opts P)
    with (fuel := S (length source)) (s := initial backend pol source opts)
    as (sl & (Hlen & Hrun & Hpo & Hrc & Hcur & Hle) & Hexit);
    [|exact Hinit | apply initial_remaining|].
  { intros s v s1 s2 (Hlen & Hrun & Hpo & Hrc & Hcur & Hle) Hpull Hlt Hput.
    apply pull_spec in Hpull as [Hv ->]. apply put_spec in Hput. simpl in Hput.
    destruct (pulled_bounds s) as (_ & _ & _ & Hpv).
    destruct (Hpv v (eq_sym Hv)) as [Hin Hit]. rewrite Hcur in Hin.
    simpl in Hlt.
    destruct (cb v (currentIndex s)); destruct Hput as [Hr ->]; [|discriminate Hr].
    unfold P, cursor in *; simpl.
    split; [rewrite length_app; simpl; lia|].
    split; [intros t Hin'; apply in_app_or in Hin' as [Hin'|[<-|[]]]; auto|].
    split; [exact Hpo|]. split; [exact Hrc|].
    split; [destruct backend; [reflexivity | by rewrite Hit, Hcur]|].
    unfold wave. lia. }
  subst s0. unfold executor.
  rewrite (@outLength_allocates _ backend source opts Ha).
  destruct (prefill backend pol source cb opts (S (length source))
              (initial backend pol source opts)) as [sf r].
  inversion Hexit as [s1 Hpull | v s1 Hpull Hge | v s1 s2 e Hpull Hlt Hput];
    subst; apply pull_spec in Hpull as [Hv ->]; simpl in *.
  - symmetry in Hv. apply lookup_ge_None in Hv. rewrite Hcur in Hv.
    destruct (throwed sl); simpl;
      (repeat split; [exact Hle | exact Hlen | exact Hrun | exact Hpo | exact Hrc|]);
      intros _; unfold wave in *; lia.
  - destruct (throwed sl); simpl;
      (repeat split; [exact Hle | exact Hlen | exact Hrun | exact Hpo | exact Hrc|]);
      intros _; unfold wave in *; lia.
  - apply put_spec in Hput. simpl in Hput.
    destruct (pulled_bounds sl) as (_ & _ & _ & Hpv).
    destruct (Hpv v (eq_sym Hv)) as [Hin _]. rewrite Hcur in Hin.
    destruct (cb v (currentIndex sl)) eqn:Hcb; destruct Hput as [[=] ->]. simpl.
    repeat split; [exact Hle | exact Hlen | exact Hrun | exact Hpo | exact Hrc|].
    intros Hret. rewrite Hcur in Hv.
    destruct (Hret (currentIndex sl) v) as [p Hp];
      [unfold wave; lia | by symmetry | congruence].
Qed.

(** No callback takes back an admission. *)
Lemma run_admits_more (sched : list Event) (s : St) :
  currentIndex s <= currentIndex (run_ sched s).
Proof.
  apply (@run_invariant _ _ _ _ backend pol source cb opts
           (fun s' => currentIndex s <= currentIndex s')); [|lia].
  clear sched. intros s1 ev s2 Hle Hstep.
  destruct (step_inv _ _ _ _ _ _ _ Hstep) as
    [(i & t & -> & Hl & Hp & ->) | [(i & t & -> & Hl & Hp & ->) |
    [(i & t & -> & Hl & Hp & ->) | [(-> & He & ->) | (-> & He & Ht & ->)]]]].
  - unfold settle. by destruct (t_promise t); [|destruct (failFast pol)].
  - exact Hle.
  - exact Hle.
  - pose proof (next_cases backend pol source cb opts s1) as [_ Hn].
    destruct (source !! cursor backend s1) as [v|];
      [destruct (asked opts s1 || (failFast pol && throwed s1));
       [|destruct (cb v (currentIndex s1))]|];
      destruct Hn as (_ & -> & _); lia.
  - exact Hle.
Qed.

(** [isCanceled] has been called at most once for every task that has left
    the active set. *)
Lemma run_polled (sched : list Event) :
  let s := run_ sched start_ in
  polls s + match engine s with Woken => 1 | _ => 0 end
    <= currentIndex s - length (tasks s) /\
  length (tasks s) <= currentIndex s.
Proof.
  apply (@run_invariant _ _ _ _ backend pol source cb opts
           (fun s => polls s + match engine s with Woken => 1 | _ => 0 end
                       <= currentIndex s - length (tasks s) /\
                     length (tasks s) <= currentIndex s)).
  - clear sched. intros s ev s' [Hp Hl] Hstep.
    destruct (step_inv _ _ _ _ _ _ _ Hstep) as
      [(i & t & -> & Hlk & Hph & ->) | [(i & t & -> & Hlk & Hph & ->) |
      [(i & t & -> & Hlk & Hph & ->) | [(-> & He & ->) | (-> & He & Ht & ->)]]]].
    + unfold settle. destruct (t_promise t); [|destruct (failFast pol)]; simpl;
        rewrite length_set_phase; auto.
    + unfold finally; simpl. rewrite length_set_phase. auto.
    + pose proof (length_remove_task _ _ Hlk) as Hlen.
      unfold dequeue; simpl. destruct (engine s); simpl in *; lia.
    + pose proof (next_cases backend pol source cb opts s)
        as [(_ & _ & _ & _ & _ & _ & Hpo) Hn].
      rewrite He in Hp.
      assert (Hpo' : polls (next backend pol source cb opts s) <= S (polls s))
        by (rewrite Hpo; destruct (isCanceled opts); lia).
      destruct (source !! cursor backend s) as [v|];
        [destruct (asked opts s || (failFast pol && throwed s));
         [|destruct (cb v (currentIndex s))]|];
        destruct Hn as (-> & -> & -> & _); rewrite ?length_app; simpl; lia.
    + unfold resolve; simpl. rewrite He in Hp. simpl in Hp. lia.
  - destruct executor_start as (Hz & _ & _ & Hr).
    destruct (executor_bounded backend pol source cb opts) as (_ & Hlen & _).
    rewrite Hz, Hlen. destruct Hr as [[-> _] | [-> _]]; simpl; lia.
Qed.

(** *** What the promise is rejected with *)




End Sound.

(** * The claims of the specification *)

(** ** The options resolver *)

(** C9, as stated, fails: with the process-wide default lowered to 1 and no
    options, the resolved window is 1, which is below 2. *)
Lemma C9_default_below_two :
  threads (getOptions {| defaultThreads := 1 |} None) = 1%Q /\
  ~ (2 <= threads (getOptions {| defaultThreads := 1 |} None))%Q.
Proof. split; [reflexivity|]. simpl. intros H. by apply H. Qed.

(** C9, amended: the resolved window is [max(threads, 2)] when [threads] is
    a number (so [threads = 1] gives 2), and the process-wide default, 4
    initially, when [threads] is absent or not a number or when there are no
    options; it is at least 2 when [threads] is a number or the default is
    at least 2, and at least [min(2, default)] in every case. *)
Theorem C9_resolved_window (cfg : Config) (o : IOptions.t) :
  (forall x, IOptions.threads o = JsNumber x ->
             threads (getOptions cfg (Some o)) = Qmax x 2 /\
             (2 <= threads (getOptions cfg (Some o)))%Q) /\
  (IOptions.threads o = JsNumber 1 -> threads (getOptions cfg (Some o)) = 2%Q) /\
  (isNumber (IOptions.threads o) = false ->
   threads (getOptions cfg (Some o)) = defaultThreads cfg) /\
  threads (getOptions cfg None) = defaultThreads cfg /\
  threads (getOptions config None) = 4%Q /\
  (forall options, (Qmin 2 (defaultThreads cfg) <= threads (getOptions cfg options))%Q) /\
  (forall options, (2 <= defaultThreads cfg)%Q ->
                   (2 <= threads (getOptions cfg options))%Q).
Proof.
  assert (Hmin : forall options,
             (Qmin 2 (defaultThreads cfg) <= threads (getOptions cfg options))%Q).
  { intros [o'|]; simpl; [|apply Q.le_min_r].
    destruct (IOptions.threads o') as [|x|]; try apply Q.le_min_r.
    eapply Qle_trans; [apply Q.le_min_l | apply Q.le_max_r]. }
  split; [|split; [|split; [|split; [|split; [|split]]]]].
  - intros x Hx. simpl. rewrite Hx. split; [reflexivity | apply Q.le_max_r].
  - intros Hone. simpl. by rewrite Hone.
  - intros Hnan. simpl. by destruct (IOptions.threads o).
  - reflexivity.
  - reflexivity.
  - exact Hmin.
  - intros options Hdef. eapply Qle_trans; [|apply Hmin].
    apply Q.min_glb; [apply Qle_refl | exact Hdef].
Qed.

(** ** The empty source *)

Lemma executor_nil {T R E O} (b : Backend) (pol : Policy R E O)
    (cb : Callback T R E) (opts : Options) :
  executor b pol [] cb opts =
    match outLength b (@nil T) opts with
    | Some _ => with_engine Racing (initial b pol (@nil T) opts)
    | None => with_promise RangeRejected (initial b pol (@nil T) opts)
    end.
Proof.
  unfold executor. destruct (outLength b [] opts); [|reflexivity].
  simpl. by destruct b.
Qed.

Lemma outLength_None {T} (b : Backend) (source : list T) (opts : Options) :
  outLength b source opts = None <-> ~ allocates b opts.
Proof.
  destruct b; simpl; [split; [discriminate | tauto]|].
  destruct (arrayLength (threads opts)); split; try tauto; try congruence.
  intros H. exfalso. apply H. discriminate.
Qed.

Lemma allocates_dec (b : Backend) (opts : Options) :
  allocates b opts \/ ~ allocates b opts.
Proof.
  destruct b; simpl; [by left|].
  destruct (arrayLength (threads opts)); [left; discriminate | right; tauto].
Qed.

(** When [new Array(threads)] throws, nothing ever runs. *)
Lemma crashed_run {T R E O} (b : Backend) (pol : Policy R E O)
    (source : list T) (cb : Callback T R E) (opts : Options) (sched : list Event) :
  ~ allocates b opts ->
  run b pol source cb opts sched (executor b pol source cb opts) =
    with_promise RangeRejected (initial b pol source opts).
Proof.
  intros Hn. apply (outLength_None b source) in Hn.
  unfold executor. rewrite Hn. by apply quiescent_run.
Qed.


(** C3: with an empty source no task is admitted, but the call never
    finalizes.  [Promise.race] of the empty [tasks] array never settles, so
    [next] is never run: whatever the event loop does, the promise is never
    resolved, for both entry points and both backends.  It stays pending;
    only when [new Array(threads)] of the iterator backend throws is it
    rejected, with that [RangeError]. *)
Theorem C3_empty_source_stays_pending {T R E} (b : Backend) (cfg : Config)
    (cb : Callback T R E) (options : option IOptions.t) (sched : list Event) :
  let opts := getOptions cfg options in
  let d := runDependently b cfg [] cb options sched in
  let i := runIndependently b cfg [] cb options sched in
  (currentIndex d = 0 /\ tasks d = [] /\ promise d <> Resolved /\
   (allocates b opts -> engine d = Racing /\ promise d = Pending) /\
   (~ allocates b opts -> promise d = RangeRejected)) /\
  (currentIndex i = 0 /\ tasks i = [] /\ promise i <> Resolved /\
   (allocates b opts -> engine i = Racing /\ promise i = Pending) /\
   (~ allocates b opts -> promise i = RangeRejected)).
Proof.
  intros opts. unfold runDependently, runIndependently. fold opts.
  rewrite !executor_nil.
  destruct (outLength b [] opts) as [n|] eqn:Hn.
  - assert (Ha : allocates b opts).
    { destruct b; [exact I|]. simpl in *. congruence. }
    rewrite !quiescent_run by reflexivity. simpl.
    repeat split; try discriminate; tauto.
  - apply outLength_None in Hn.
    rewrite !quiescent_run by reflexivity. simpl.
    repeat split; try discriminate; tauto.
Qed.

(** ** The window *)

Lemma bounded_within_window {T R E O} (b : Backend) (pol : Policy R E O)
    (source : list T) (cb : Callback T R E) (opts : Options) (sched : list Event) :
  (0 <= window opts)%Z ->
  within_window (window opts)
    (executor b pol source cb opts)
    (run b pol source cb opts sched (executor b pol source cb opts)).
Proof.
  intros HW.
  pose proof (run_bounded b pol source cb opts sched) as (H1 & H2 & H3).
  pose proof (executor_bounded b pol source cb opts) as (_ & _ & H4).
  unfold within_window. repeat split; try assumption; lia.
Qed.

(** C6, as stated, fails for a window that is not an integer: with
    [threads = 2.5] and three items the array backend admits three tasks in
    the pre-fill loop, whose test [currentIndex < threads] holds of 0, 1 and
    2; three tasks are in flight when the call returns, which is more than
    2.5. *)
Lemma C6_fractional_window_exceeded :
  let opts := getOptions config fractional_threads in
  let d := runDependently Indexed config [1; 2; 3]%Z double fractional_threads [] in
  let i := runIndependently Indexed config [1; 2; 3]%Z double fractional_threads [] in
  threads opts = 2.5%Q /\
  length (tasks d) = 3 /\ length (tasks i) = 3 /\
  ~ (inject_Z (Z.of_nat (length (tasks d))) <= threads opts)%Q /\
  ~ (inject_Z (Z.of_nat (length (tasks i))) <= threads opts)%Q.
Proof.
  vm_compute. repeat split; try reflexivity; intros H; by apply H.
Qed.

(** C6, amended: for a window [W] and the least integer [W'] that is not
    below it, the pre-fill admits at most [W'] tasks; at every instant at
    most [W'] tasks are in the active set, never more than the pre-fill
    admitted; when [next] is about to admit a task the active set is
    strictly below that, and the tasks admitted after the pre-fill are at
    most as many as the tasks that have settled and left the active set.
    So the active set stays below [W + 1], and it never exceeds [W] when
    [W] is an integer. *)
Theorem C6_window_never_exceeded {T R E} (b : Backend) (cfg : Config)
    (source : list T) (cb : Callback T R E) (options : option IOptions.t)
    (sched : list Event) :
  let opts := getOptions cfg options in
  let W := window opts in
  (0 <= W)%Z ->
  let d := runDependently b cfg source cb options sched in
  let i := runIndependently b cfg source cb options sched in
  (within_window W (runDependently b cfg source cb options []) d /\
   within_window W (runIndependently b cfg source cb options []) i) /\
  ((inject_Z (Z.of_nat (length (tasks d))) < threads opts + 1)%Q /\
   (inject_Z (Z.of_nat (length (tasks i))) < threads opts + 1)%Q) /\
  (threads opts == inject_Z W ->
   (inject_Z (Z.of_nat (length (tasks d))) <= threads opts)%Q /\
   (inject_Z (Z.of_nat (length (tasks i))) <= threads opts)%Q).
Proof.
  intros opts W HW d i.
  pose proof (bounded_within_window b (dependently R E) source cb opts sched HW) as HD.
  pose proof (bounded_within_window b (independently R E) source cb opts sched HW) as HI.
  split; [split; [exact HD | exact HI]|].
  destruct HD as (_ & HD & _). destruct HI as (_ & HI & _).
  change (Z.of_nat (length (tasks d)) <= W)%Z in HD.
  change (Z.of_nat (length (tasks i)) <= W)%Z in HI.
  split; [split; by apply ceiling_plus_one|].
  intros Hint. rewrite Hint. rewrite <- !Zle_Qle. by split.
Qed.

(** ** The state of a finished run, for either policy *)

Section Final.
Context {T R E O : Type}.
Variable backend : Backend.
Variable pol : Policy R E O.
Variable Rep : (nat -> option (Outcome R E)) -> nat -> O -> Prop.
Hypothesis rec : Recorder pol Rep.
Variable source : list T.
Variable g : T -> nat -> Outcome R E.
Variable opts : Options.
Hypothesis Halloc : allocates backend opts.

Abbreviation St := (State R E O).
Abbreviation start_ := (executor backend pol source (async g) opts).
Abbreviation run_ := (run backend pol source (async g) opts).
Abbreviation promised_ := (promised backend source g opts).
Abbreviation folded_ := (folded backend source g opts).
Abbreviation len_ := (len (R:=R) (E:=E) (O:=O) backend source opts).

Lemma final_state (sched : list Event) :
  source <> [] -> (1 <= window opts)%Z ->
  let s := run_ sched start_ in
  quiescent s = true ->
  engine s = Finished /\ tasks s = [] /\
  promise s = match rejections s with [] => Resolved | e :: _ => Rejected e end /\
  (failFast pol = false -> rejections s = []) /\
  Rep (folded_ s) (len_ s) (out s) /\
  currentIndex s <= len_ s /\
  forall i, i < currentIndex s -> exists o, promised_ i = Some o /\ folded_ s i = Some o.
Proof.
  intros Hsrc HW s Hq. pose proof (run_good backend rec source g opts Halloc sched) as G.
  fold s in G.
  destruct (quiescent_good G Hq Hsrc HW) as (He & Ht & Hall).
  repeat split; try assumption.
  - by apply (finished_promise G).
  - intros Hff. destruct (rejections s) as [|e l] eqn:Hr; [reflexivity|].
    destruct (g_rejections G e) as [Hff' _]; [rewrite Hr; by left | congruence].
  - apply G.
  - pose proof (g_admitted G). unfold len. destruct backend; lia.
Qed.

Lemma prefill_wave_holds (sched : list Event) :
  prefill_wave (Z.to_nat (window opts)) (length source) start_ (run_ sched start_).
Proof.
  pose proof (executor_good backend rec source g opts Halloc)
    as (_ & H1 & H2 & H3 & _ & _ & H4 & H5).
  pose proof (run_good backend rec source g opts Halloc sched) as G.
  pose proof (g_polls G) as Hp. pose proof (g_ready G) as Hr.
  pose proof (g_length G) as Hl.
  assert (Hu : weigh uncounted (tasks (run_ sched start_))
               <= length (tasks (run_ sched start_))).
  { apply weigh_le_length. intros []; simpl; lia. }
  unfold prefill_wave. repeat split; try assumption.
  - apply (g_admitted G).
  - destruct (engine _); lia.
  - destruct (engine _); lia.
Qed.

(** Rejections and the promise. *)
Lemma first_rejection (sched sched' : list Event) :
  let s := run_ sched start_ in
  let s' := run_ (sched ++ sched') start_ in
  (failFast pol = true ->
   ((exists i e, folded_ s i = Some (Failed e)) <-> rejections s <> [])) /\
  (forall e, In e (rejections s) -> exists i, folded_ s i = Some (Failed e)) /\
  (forall e rest, rejections s = e :: rest ->
     promise s = Rejected e /\ promise s' = Rejected e /\
     exists more, rejections s' = e :: rest ++ more) /\
  (rejections s = [] -> forall e, promise s <> Rejected e).
Proof.
  intros s s'.
  pose proof (run_good backend rec source g opts Halloc sched) as G. fold s in G.
  pose proof (run_good backend rec source g opts Halloc (sched ++ sched')) as G'.
  fold s' in G'.
  destruct (rejections_grow backend pol source (async g) opts sched' s) as [more Hmore].
  unfold s in Hmore at 1. rewrite <- run_app in Hmore. fold s' in Hmore.
  repeat split.
  - intros (i & e & Hi) Hnil. apply (g_failed G) in Hi; [|assumption].
    rewrite Hnil in Hi. destruct Hi.
  - intros Hne. destruct (rejections s) as [|e l] eqn:Hr; [done|].
    destruct (g_rejections G e) as [_ [i Hi]]; [rewrite Hr; by left|]. eauto.
  - intros e He. by destruct (g_rejections G e He).
  - rewrite (g_settled G), H. reflexivity.
  - rewrite (g_settled G'), Hmore, H. reflexivity.
  - exists more. by rewrite Hmore, H.
  - intros Hnil e. rewrite (g_settled G), Hnil. by destruct (engine s).
Qed.


End Final.

(** ** The pre-fill wave and cancellation *)

(** C6, amended, at a concrete input: a window of 2.5. *)
Lemma C6_witness :
  let opts := getOptions config fractional_threads in
  let d := runDependently Indexed config [1; 2; 3; 4]%Z double fractional_threads
             (whole_task 1 ++ [Next]) in
  (0 <= window opts)%Z /\
  within_window (window opts)
    (runDependently Indexed config [1; 2; 3; 4]%Z double fractional_threads []) d /\
  (inject_Z (Z.of_nat (length (tasks d))) < threads opts + 1)%Q.
Proof.
  intros opts d.
  assert (HW : (0 <= window opts)%Z) by (by vm_compute).
  split; [exact HW|].
  pose proof (@C6_window_never_exceeded Z Z nat Indexed config [1; 2; 3; 4]%Z double
                fractional_threads (whole_task 1 ++ [Next]) HW)
    as ((H1 & _) & (H2 & _) & _).
  split; [exact H1 | exact H2].
Defined.

Lemma wave_generic {T R E O} (b : Backend) (pol : Policy R E O)
    (source : list T) (cb : Callback T R E) (opts : Options) (sched : list Event) :
  allocates b opts ->
  (forall i v, i < Nat.min (Z.to_nat (window opts)) (length source) ->
               source !! i = Some v -> exists p, cb v i = Returns p) ->
  prefill_wave (Z.to_nat (window opts)) (length source)
    (executor b pol source cb opts)
    (run b pol source cb opts sched (executor b pol source cb opts)).
Proof.
  intros Ha Hret.
  destruct (executor_wave b pol source cb opts Ha) as (_ & Hlen & Hrun & Hpo & Hrc & Hci).
  specialize (Hci Hret).
  pose proof (run_admits_more b pol source cb opts sched
                (executor b pol source cb opts)) as Hmore.
  destruct (run_polled b pol source cb opts sched) as [Hpolled Hle].
  pose proof (s_ready (run_sound b pol source cb opts sched)) as Hready.
  set (s := run b pol source cb opts sched _) in *.
  assert (Hw : weigh uncounted (tasks s) <= length (tasks s)).
  { apply weigh_le_length. intros []; simpl; lia. }
  unfold prefill_wave.
  repeat split; try assumption; try lia.
Qed.

(** C8, as stated, fails in two ways.  With [threads = 2.5] and four items
    the pre-fill loop admits three tasks, which is not [min(W, N)]; and a
    work function that throws for the second of two items ends the wave
    after one task, with a window of two. *)
Lemma C8_wave_is_not_min :
  let opts := getOptions config fractional_threads in
  let d := runDependently Indexed config [1; 2; 3; 4]%Z double fractional_threads [] in
  let t := runDependently Indexed config [1; 2]%Z (throws_from 1) two_threads [] in
  (currentIndex d = 3 /\ (Qmin (threads opts) (inject_Z 4) < inject_Z 3)%Q) /\
  (currentIndex t = 1 /\
   Nat.min (Z.to_nat (window (getOptions config two_threads))) 2 = 2).
Proof. vm_compute. repeat split; reflexivity. Qed.

(** C8, amended: when the allocation of the executor succeeds and the work
    function returns a promise for each of the first [min(W', N)] items,
    [W'] being the least integer that is not below the window, then,
    whatever [isCanceled] answers and from whenever, the call admits and
    starts [min(W', N)] tasks and returns without having asked
    [isCanceled]; no later state has fewer admitted tasks; and [isCanceled]
    has never been asked more often than tasks have settled and left the
    active set, so it is first asked after the first settlement. *)
Theorem C8_prefill_before_cancellation {T R E} (b : Backend) (cfg : Config)
    (source : list T) (cb : Callback T R E)
    (options : option IOptions.t) (sched : list Event) :
  let opts := getOptions cfg options in
  let W := Z.to_nat (window opts) in
  allocates b opts ->
  (forall i v, i < Nat.min W (length source) -> source !! i = Some v ->
               exists p, cb v i = Returns p) ->
  prefill_wave W (length source)
    (runDependently b cfg source cb options [])
    (runDependently b cfg source cb options sched) /\
  prefill_wave W (length source)
    (runIndependently b cfg source cb options [])
    (runIndependently b cfg source cb options sched).
Proof.
  intros opts W Ha Hret. split; by apply wave_generic.
Qed.

(** C8, amended, at a concrete input: a window of 2.5 and four items, three
    of which are in the wave. *)
Lemma C8_witness :
  let opts := getOptions config fractional_threads in
  let W := Z.to_nat (window opts) in
  let sched := whole_task 1 ++ [Next] in
  allocates Indexed opts /\
  (forall i v, i < Nat.min W (length [1; 2; 3; 4]%Z) -> [1; 2; 3; 4]%Z !! i = Some v ->
               exists p, double v i = Returns p) /\
  prefill_wave W (length [1; 2; 3; 4]%Z)
    (runDependently Indexed config [1; 2; 3; 4]%Z double fractional_threads [])
    (runDependently Indexed config [1; 2; 3; 4]%Z double fractional_threads sched).
Proof.
  intros opts W sched.
  assert (Ha : allocates Indexed opts) by exact I.
  assert (Hret : forall i v, i < Nat.min W (length [1; 2; 3; 4]%Z) ->
                             [1; 2; 3; 4]%Z !! i = Some v ->
                             exists p, double v i = Returns p)
    by (intros i v _ _; eexists; reflexivity).
  split; [exact Ha|]. split; [exact Hret|].
  exact (proj1 (@C8_prefill_before_cancellation Z Z nat Indexed config [1; 2; 3; 4]%Z
                  double fractional_threads sched Ha Hret)).
Defined.

(** ** Fail fast *)




(** ** Cancellation *)

Lemma final_dependently {T R E} (b : Backend) (source : list T)
    (g : T -> nat -> Outcome R E) (opts : Options) (sched : list Event) :
  source <> [] -> (1 <= window opts)%Z -> allocates b opts ->
  let s := run b (dependently R E) source (async g) opts sched
               (executor b (dependently R E) source (async g) opts) in
  quiescent s = true ->
  engine s = Finished /\
  promise s = match rejections s with [] => Resolved | e :: _ => Rejected e end /\
  length (out s) = len b source opts s /\
  forall i, i < currentIndex s ->
            exists p, promised b source g opts i = Some p /\
                      holds_dependently (out s) i p.
Proof.
  intros Hsrc HW Ha s Hq.
  destruct (@final_state _ _ _ _ b _ _ (dependently_recorder (R:=R) (E:=E))
              source g opts Ha sched Hsrc HW Hq)
    as (He & _ & Hp & _ & [Hlen Hcell] & Hle & Hall).
  fold s in He, Hp, Hlen, Hcell, Hle, Hall.
  repeat split; [exact He | exact Hp | exact Hlen|].
  intros i Hi. destruct (Hall i Hi) as (p & Hpi & Hfi). exists p.
  split; [exact Hpi|]. unfold holds_dependently.
  rewrite Hcell by lia. by rewrite Hfi.
Qed.

Lemma find_failed {R E} (n : nat) (st : nat -> option (Outcome R E)) :
  (forall i, i < n -> error_cell (st i) = None) \/
  (exists i e, i < n /\ st i = Some (Failed e)).
Proof.
  induction n as [|n [IH|(i & e & Hi & He)]].
  - left. intros i Hi. lia.
  - destruct (st n) as [[r|e]|] eqn:Hn.
    + left. intros i Hi. destruct (Nat.eq_dec i n) as [->|Hne];
        [by rewrite Hn | apply IH; lia].
    + right. exists n, e. split; [lia | exact Hn].
    + left. intros i Hi. destruct (Nat.eq_dec i n) as [->|Hne];
        [by rewrite Hn | apply IH; lia].
  - right. exists i, e. split; [lia | exact He].
Qed.

Lemma final_independently {T R E} (b : Backend) (source : list T)
    (g : T -> nat -> Outcome R E) (opts : Options) (sched : list Event) :
  source <> [] -> (1 <= window opts)%Z -> allocates b opts ->
  let s := run b (independently R E) source (async g) opts sched
               (executor b (independently R E) source (async g) opts) in
  quiescent s = true ->
  engine s = Finished /\
  promise s = Resolved /\
  length (results (out s)) = len b source opts s /\
  length (values (out s)) = len b source opts s /\
  (forall i, i < currentIndex s ->
             exists p, promised b source g opts i = Some p /\
                       holds_independently (out s) i p) /\
  (forall i, currentIndex s <= i -> errors (out s) !! i = None) /\
  (ok (out s) = false <->
   exists i e, i < currentIndex s /\ promised b source g opts i = Some (Failed e)).
Proof.
  intros Hsrc HW Ha s Hq.
  destruct (@final_state _ _ _ _ b _ _ (independently_recorder (R:=R) (E:=E))
              source g opts Ha sched Hsrc HW Hq)
    as (He & _ & Hp & Hrej & (Hl1 & Hl2 & Hres & Hval & Herr & Hok) & Hle & Hall).
  fold s in He, Hp, Hrej, Hl1, Hl2, Hres, Hval, Herr, Hok, Hle, Hall.
  rewrite Hrej in Hp by reflexivity.
  repeat split; try assumption.
  - intros i Hi. destruct (Hall i Hi) as (p & Hpi & Hfi). exists p.
    split; [exact Hpi|]. unfold holds_independently.
    rewrite Hres, Hval, Herr by lia. by rewrite Hfi.
  - intros i Hi. rewrite Herr. unfold folded. by rewrite folded_at_ge.
  - intros Hfalse.
    destruct (find_failed (currentIndex s) (folded b source g opts s))
      as [Hnone|(i & e & Hi & Hfe)].
    + assert (Htrue : ok (out s) = true); [|congruence].
      apply Hok. intros i. destruct (Nat.lt_ge_cases i (currentIndex s)).
      * by apply Hnone.
      * unfold folded. by rewrite folded_at_ge.
    + exists i, e. split; [exact Hi|].
      destruct (Hall i Hi) as (p & Hpi & Hfi). congruence.
  - intros (i & e & Hi & Hpe).
    destruct (ok (out s)) eqn:Hk; [|reflexivity].
    destruct (Hall i Hi) as (p & Hpi & Hfi).
    pose proof (proj1 Hok eq_refl i) as Hcell. rewrite Hfi in Hcell.
    assert (p = Failed e) by congruence. subst p. discriminate.
Qed.

(** Once no callback is due the state is final. *)
Lemma quiescent_dependently {T R E} (b : Backend) (cfg : Config) (source : list T)
    (cb : Callback T R E) (options : option IOptions.t) (sched sched' : list Event) :
  quiescent (runDependently b cfg source cb options sched) = true ->
  runDependently b cfg source cb options (sched ++ sched') =
  runDependently b cfg source cb options sched.
Proof.
  intros Hq. unfold runDependently in *. cbv zeta in *.
  rewrite run_app. by apply quiescent_run.
Qed.

Lemma quiescent_independently {T R E} (b : Backend) (cfg : Config) (source : list T)
    (cb : Callback T R E) (options : option IOptions.t) (sched sched' : list Event) :
  quiescent (runIndependently b cfg source cb options sched) = true ->
  runIndependently b cfg source cb options (sched ++ sched') =
  runIndependently b cfg source cb options sched.
Proof.
  intros Hq. unfold runIndependently in *. cbv zeta in *.
  rewrite run_app. by apply quiescent_run.
Qed.




(** ** Ordered results of [runDependently] *)

Lemma promised_succeeding {T R E} (b : Backend) (source : list T)
    (f : T -> nat -> R) (opts : Options) (i : nat) (e : E) :
  promised b source (fun v i => Fulfilled (f v i)) opts i <> Some (Failed e).
Proof. unfold promised. by destruct (source !! sigma b opts i). Qed.

(** X1: the array backend satisfies C1.  With a non-empty array, a window
    of at least one, a work function all of whose promises are fulfilled
    and an [isCanceled] that never answers true, the promise is never
    rejected, the run can always be continued until no callback is due, and
    then the promise is resolved and [out] is
    [f(a_0, 0), ..., f(a_{N-1}, N-1)], in whatever order the tasks
    settled. *)
Theorem runDependently_indexed_ordered {T R E} (cfg : Config) (source : list T)
    (f : T -> nat -> R) (options : option IOptions.t) (sched : list Event) :
  let opts := getOptions cfg options in
  source <> [] -> (1 <= window opts)%Z ->
  (forall c p rc, isCanceled opts = Some c -> c p rc = false) ->
  let s := runDependently (E:=E) Indexed cfg source (succeeding f) options sched in
  (forall e, promise s <> Rejected e) /\
  (quiescent s = true ->
   promise s = Resolved /\ out s = imap (fun i v => Some (f v i)) source) /\
  exists sched',
    quiescent (runDependently (E:=E) Indexed cfg source (succeeding f) options
                 (sched ++ sched')) = true.
Proof.
  intros opts Hsrc HW Hc s.
  set (g := fun (v : T) (i : nat) => @Fulfilled R E (f v i)).
  pose proof (run_good Indexed (dependently_recorder (R:=R) (E:=E)) source g opts I sched)
    as G.
  change (good Indexed (dependently R E) rep_dependently source g opts s) in G.
  assert (Hok : forall i e, promised Indexed source g opts i <> Some (Failed e))
    by (intros i e; apply promised_succeeding).
  destruct (no_failure_no_rejection G Hok) as [Hrej _].
  repeat split.
  - intros e. rewrite (g_settled G), Hrej. by destruct (engine s).
  - destruct (@final_dependently _ _ _ Indexed source g opts sched Hsrc HW I H)
      as (_ & Hp & _ & _).
    change (promise s = match rejections s with [] => Resolved | e :: _ => Rejected e end)
      in Hp.
    by rewrite Hrej in Hp.
  - destruct (@final_dependently _ _ _ Indexed source g opts sched Hsrc HW I H)
      as (He & _ & Hlen & Hall).
    change (engine s = Finished) in He.
    change (length (out s) = length source) in Hlen.
    pose proof (finished_exhausted G He Hc (or_intror Hok)) as Hx.
    pose proof (g_admitted G) as Hadm. unfold cursor in Hx.
    apply list_eq. intros i. rewrite list_lookup_imap.
    destruct (source !! i) as [v|] eqn:Hv; simpl.
    + apply lookup_lt_Some in Hv as Hlt.
      destruct (Hall i) as (p & Hp & Hh); [change (i < currentIndex s); lia|].
      unfold promised, sigma in Hp. rewrite Hv in Hp. injection Hp as <-.
      exact Hh.
    + apply lookup_ge_None. apply lookup_ge_None in Hv. lia.
  - destruct (run_completes Indexed (dependently R E) source g opts s) as [sched' Hq].
    exists sched'. unfold runDependently. by rewrite run_app.
Qed.

(** X1, at a concrete input. *)
Lemma runDependently_indexed_ordered_witness :
  out (runDependently (E:=nat) Indexed config [1; 2; 3]%Z double two_threads
         (whole_task 1 ++ Next :: whole_task 2 ++ whole_task 0 ++ [Next; Resolve]))
  = [Some 2; Some 4; Some 6]%Z.
Proof.
  destruct (@runDependently_indexed_ordered Z Z nat config [1; 2; 3]%Z
              (fun v _ => (2 * v)%Z) two_threads
              (whole_task 1 ++ Next :: whole_task 2 ++ whole_task 0 ++ [Next; Resolve]))
    as (_ & H & _).
  - discriminate.
  - by vm_compute.
  - intros c p rc Hc. discriminate Hc.
  - destruct H as [_ H]; [vm_compute; reflexivity | exact H].
Defined.

(** With the iterator backend and an input longer than the window, the
    element that the pre-fill loop pulls when it finds the window full is
    never admitted: fewer than [N] work items are ever admitted. *)
Lemma iterated_drops_an_item {T R E O} (pol : Policy R E O)
    (Rep : (nat -> option (Outcome R E)) -> nat -> O -> Prop) (rec : Recorder pol Rep)
    (source : list T) (g : T -> nat -> Outcome R E) (opts : Options)
    (sched : list Event) :
  allocates Iterated opts ->
  Z.to_nat (window opts) < length source ->
  currentIndex (run Iterated pol source (async g) opts sched
                  (executor Iterated pol source (async g) opts)) < length source.
Proof.
  intros Ha HW. pose proof (run_good Iterated rec source g opts Ha sched) as G.
  set (s := run _ _ _ _ _ _ _) in *.
  pose proof (g_admitted G) as Hadm.
  destruct (Nat.eq_dec (currentIndex s) (length source)) as [Heq|Hne]; [|lia].
  assert (Hi : length source - 1 < currentIndex s) by lia.
  pose proof (g_items G Hi) as Hs. unfold sigma in Hs.
  destruct (length source - 1 <? Z.to_nat (window opts)) eqn:Hlt.
  - apply Nat.ltb_lt in Hlt. lia.
  - lia.
Qed.

(** C1 fails for the iterator backend.  For the source [1, 2, 3], a window
    of two and [x => x * 2], however the tasks settle: at most two work
    items are ever admitted, and when no callback is due the promise is
    resolved with [2, 4], not with [2, 4, 6]. *)
Theorem C1_iterated_loses_an_item (sched : list Event) :
  let s := runDependently Iterated config [1; 2; 3]%Z double two_threads sched in
  currentIndex s <= 2 /\
  (quiescent s = true -> promise s = Resolved /\ out s = [Some 2; Some 4]%Z) /\
  exists sched',
    quiescent (runDependently Iterated config [1; 2; 3]%Z double two_threads
                 (sched ++ sched')) = true.
Proof.
  intros s.
  set (g := fun (v : Z) (i : nat) => @Fulfilled Z nat (2 * v)%Z).
  set (opts := getOptions config two_threads).
  assert (Ha : allocates Iterated opts) by (by vm_compute).
  assert (HW : (1 <= window opts)%Z) by (by vm_compute).
  pose proof (run_good Iterated (dependently_recorder (R:=Z) (E:=nat))
                [1; 2; 3]%Z g opts Ha sched) as G.
  change (good Iterated (dependently Z nat) rep_dependently [1; 2; 3]%Z g opts s) in G.
  assert (Hci : currentIndex s <= 2).
  { assert (H : currentIndex s < 3); [|lia].
    apply (@iterated_drops_an_item _ _ _ _ _ _ (dependently_recorder (R:=Z) (E:=nat))
             [1; 2; 3]%Z g opts sched Ha).
    vm_compute. lia. }
  assert (Hok : forall i e, promised Iterated [1; 2; 3]%Z g opts i <> Some (Failed e))
    by (intros i e; apply promised_succeeding).
  destruct (no_failure_no_rejection G Hok) as [Hrej _].
  split; [exact Hci|]. split.
  - intros Hq.
    destruct (@final_dependently _ _ _ Iterated [1; 2; 3]%Z g opts sched) as
      (_ & Hp & Hlen & Hall); [discriminate | exact HW | exact Ha | exact Hq|].
    change (promise s = match rejections s with [] => Resolved | e :: _ => Rejected e end)
      in Hp.
    rewrite Hrej in Hp. split; [exact Hp|].
    pose proof (g_admitted G) as Hadm. simpl in Hadm.
    assert (Hc2 : currentIndex s = 2) by lia.
    change (length (out s) = Nat.max 2 (currentIndex s)) in Hlen.
    rewrite Hc2 in Hlen.
    destruct (Hall 0) as (p0 & Hp0 & Hh0); [change (0 < currentIndex s); lia|].
    destruct (Hall 1) as (p1 & Hp1 & Hh1); [change (1 < currentIndex s); lia|].
    injection Hp0 as <-. injection Hp1 as <-.
    unfold holds_dependently in *. simpl in Hh0, Hh1.
    change (out s !! 0 = Some (Some 2%Z)) in Hh0.
    change (out s !! 1 = Some (Some 4%Z)) in Hh1.
    destruct (out s) as [|x0 [|x1 [|x2 l]]]; simpl in *; try discriminate.
    congruence.
  - destruct (run_completes Iterated (dependently Z nat) [1; 2; 3]%Z g opts s)
      as [sched' Hq].
    exists sched'. unfold runDependently. by rewrite run_app.
Qed.

(** ** The bundle of [runIndependently] *)

(** With a work function that returns promises, [runIndependently] never
    rejects, with either backend. *)
Lemma runIndependently_never_rejects {T R E} (b : Backend) (cfg : Config)
    (source : list T) (g : T -> nat -> Outcome R E)
    (options : option IOptions.t) (sched : list Event) (e : E) :
  promise (runIndependently b cfg source (async g) options sched) <> Rejected e.
Proof.
  destruct (allocates_dec b (getOptions cfg options)) as [Ha|Hn];
    [|unfold runIndependently; cbv zeta; by rewrite crashed_run].
  pose proof (run_good b (independently_recorder (R:=R) (E:=E)) source g
                (getOptions cfg options) Ha sched) as G.
  unfold runIndependently. set (s := run _ _ _ _ _ _ _) in *.
  rewrite (g_settled G).
  destruct (rejections s) as [|e' l] eqn:Hr; [by destruct (engine s)|].
  destruct (g_rejections G e') as [Hff _]; [rewrite Hr; by left | discriminate Hff].
Qed.

(** X2: the array backend satisfies C2.  With a non-empty array, a window
    of at least one, a work function that returns promises and an [isCanceled]
    that never answers true, the promise is never rejected, the run can
    always be continued until no callback is due, and then the promise is
    resolved with a bundle whose arrays have length [N], which holds at
    every index the outcome of that item (a success in [values] and
    [results], a failure in [errors] and [results]), whose [errors] has no
    other key, and whose [ok] is false exactly when some item failed. *)
Theorem runIndependently_indexed_bundle {T R E} (cfg : Config) (source : list T)
    (g : T -> nat -> Outcome R E) (options : option IOptions.t)
    (sched : list Event) :
  let opts := getOptions cfg options in
  source <> [] -> (1 <= window opts)%Z ->
  (forall c p rc, isCanceled opts = Some c -> c p rc = false) ->
  let s := runIndependently Indexed cfg source (async g) options sched in
  (forall e, promise s <> Rejected e) /\
  (quiescent s = true ->
   promise s = Resolved /\
   length (results (out s)) = length source /\
   length (values (out s)) = length source /\
   (forall i v, source !! i = Some v -> holds_independently (out s) i (g v i)) /\
   (forall i, length source <= i -> errors (out s) !! i = None) /\
   (ok (out s) = false <-> exists i v e, source !! i = Some v /\ g v i = Failed e)) /\
  exists sched',
    quiescent (runIndependently Indexed cfg source (async g) options
                 (sched ++ sched')) = true.
Proof.
  intros opts Hsrc HW Hc s. subst s. unfold runIndependently. fold opts.
  set (s := run Indexed (independently R E) source (async g) opts sched _).
  pose proof (run_good Indexed (independently_recorder (R:=R) (E:=E)) source g opts I sched)
    as G.
  fold s in G.
  split; [intros e; apply (runIndependently_never_rejects Indexed cfg source g options sched)|].
  split.
  - intros Hq.
    destruct (@final_independently _ _ _ Indexed source g opts sched Hsrc HW I Hq)
      as (He & Hp & Hl1 & Hl2 & Hall & Herr & Hok).
    fold s in He, Hp, Hl1, Hl2, Hall, Herr, Hok.
    pose proof (finished_exhausted G He Hc (or_introl eq_refl)) as Hx.
    pose proof (g_admitted G) as Hadm. unfold cursor in Hx.
    assert (Hci : currentIndex s = length source) by lia.
    rewrite Hci in *. unfold len in Hl1, Hl2.
    split; [exact Hp|]. split; [exact Hl1|]. split; [exact Hl2|].
    split; [|split; [exact Herr|split]].
    + intros i v Hv. apply lookup_lt_Some in Hv as Hlt.
      destruct (Hall i Hlt) as (p & Hpi & Hh).
      unfold promised, sigma in Hpi. rewrite Hv in Hpi. by injection Hpi as <-.
    + intros Hf. apply Hok in Hf as (i & e & Hi & Hpi).
      unfold promised, sigma in Hpi.
      destruct (source !! i) as [v|] eqn:Hv; [|discriminate].
      exists i, v, e. split; [exact Hv | congruence].
    + intros (i & v & e & Hv & Hg). apply Hok. exists i, e.
      apply lookup_lt_Some in Hv as Hlt. split; [exact Hlt|].
      unfold promised, sigma. by rewrite Hv, Hg.
  - destruct (run_completes Indexed (independently R E) source g opts s) as [sched' Hq].
    exists sched'. by rewrite run_app.
Qed.

(** X2, at the input of the specification's test. *)
Lemma runIndependently_indexed_bundle_witness :
  holds_independently
    (out (runIndependently Indexed config [10; 11]%Z (async fails_on_even) two_threads
            (whole_task 1 ++ Next :: whole_task 0 ++ [Resolve])))
    1 (Fulfilled 11%Z).
Proof.
  destruct (@runIndependently_indexed_bundle Z Z nat config [10; 11]%Z fails_on_even
              two_threads (whole_task 1 ++ Next :: whole_task 0 ++ [Resolve]))
    as (_ & H & _).
  - discriminate.
  - by vm_compute.
  - intros c p rc Hc. discriminate Hc.
  - destruct H as (_ & _ & _ & H & _); [vm_compute; reflexivity|].
    apply (H 1 11%Z). reflexivity.
Defined.

(** C2 fails for the iterator backend.  For the ten-element source of the
    specification's test and the default window of four, however the tasks
    settle: at most nine work items are ever admitted, and when no callback
    is due the promise is resolved with a bundle whose [results] and
    [values] have at most nine entries, so that index 9, an odd index, holds
    no success. *)
Theorem C2_iterated_misses_an_index (sched : list Event) :
  let s := runIndependently Iterated config ten_items (async fails_on_even) None sched in
  currentIndex s <= 9 /\
  (quiescent s = true ->
   promise s = Resolved /\
   length (results (out s)) <= 9 /\ length (values (out s)) <= 9 /\
   results (out s) !! 9 = None /\ values (out s) !! 9 = None) /\
  exists sched',
    quiescent (runIndependently Iterated config ten_items (async fails_on_even) None
                 (sched ++ sched')) = true.
Proof.
  intros s. set (opts := getOptions config None).
  assert (Ha : allocates Iterated opts) by (by vm_compute).
  assert (HW : (1 <= window opts)%Z) by (by vm_compute).
  assert (Hci : currentIndex s <= 9).
  { assert (H : currentIndex s < 10); [|lia].
    apply (@iterated_drops_an_item _ _ _ _ _ _ (independently_recorder (R:=Z) (E:=nat))
             ten_items fails_on_even opts sched Ha).
    vm_compute. lia. }
  split; [exact Hci|]. split.
  - intros Hq.
    destruct (@final_independently _ _ _ Iterated ten_items fails_on_even opts sched) as
      (_ & Hp & Hl1 & Hl2 & _); [discriminate | exact HW | exact Ha | exact Hq|].
    change (length (results (out s)) = Nat.max 4 (currentIndex s)) in Hl1.
    change (length (values (out s)) = Nat.max 4 (currentIndex s)) in Hl2.
    repeat split; [exact Hp | lia | lia | |]; apply lookup_ge_None; lia.
  - destruct (run_completes Iterated (independently Z nat) ten_items fails_on_even opts s)
      as [sched' Hq].
    exists sched'. unfold runIndependently. by rewrite run_app.
Qed.

(** ** A work function that throws *)

Section SyncThrow.
Context {T R E O : Type}.
Variable backend : Backend.
Variable pol : Policy R E O.
Variable source : list T.
Variable cb : Callback T R E.
Variable opts : Options.
Variable j : nat.
Variable v : T.
Variable e : E.
Hypothesis Halloc : allocates backend opts.
Hypothesis Hitem : source !! j = Some v.
Hypothesis Hwindow : (Z.of_nat j < window opts)%Z.
Hypothesis Hthrows : cb v j = Throws e.
Hypothesis Hbefore : forall i u, i < j -> source !! i = Some u -> exists p, cb u i = Returns p.

Abbreviation St := (State R E O).
Abbreviation before_throw := (before_throw backend j).

Lemma before_throw_turn (s s1 s2 : St) (u : T) :
  before_throw s ->
  pull backend source s = (Some u, s1) ->
  (Z.of_nat (currentIndex s1) < window opts)%Z ->
  put backend pol cb u s1 = (s2, None) ->
  before_throw s2.
Proof.
  intros (Hle & Hcur & Heng & Hpr & Hrc & Hwt & Hidx) Hpull _ Hput.
  apply pull_spec in Hpull as [Hu ->]. apply put_spec in Hput. simpl in Hput.
  rewrite Hcur in Hu. symmetry in Hu.
  destruct (cb u (currentIndex s)) as [p|e'] eqn:Hcb; destruct Hput as [Hr ->];
    [|discriminate Hr].
  assert (Hlt : currentIndex s < j).
  { destruct (Nat.eq_dec (currentIndex s) j) as [Heq|Hne]; [|lia].
    rewrite Heq in *. congruence. }
  unfold before_throw; simpl. repeat split; try assumption; try lia.
  - unfold cursor, pulled in *. destruct backend; simpl; [reflexivity|].
    rewrite Hcur, Hu. lia.
  - rewrite weigh_app. unfold weigh at 2. simpl. lia.
  - intros t Ht. apply in_app_iff in Ht as [Ht|[<-|[]]]; [apply Hidx in Ht; lia|].
    simpl. lia.
Qed.

Lemma executor_thrown : thrown_at j e (executor backend pol source cb opts).
Proof.
  destruct (@prefill_rule _ _ _ _ backend pol source cb opts before_throw)
    with (fuel := S (length source)) (s := initial backend pol source opts)
    as (sl & (Hle & Hcur & Heng & Hpr & Hrc & Hwt & Hidx) & Hexit).
  - intros s u s1 s2. apply before_throw_turn.
  - unfold before_throw, initial, cursor; simpl.
    repeat split; try lia; try tauto. by destruct backend.
  - apply initial_remaining.
  - unfold executor. rewrite (@outLength_allocates _ backend source opts Halloc).
    destruct (prefill backend pol source cb opts (S (length source))
                (initial backend pol source opts)) as [sf r].
    apply lookup_lt_Some in Hitem as Hj.
    inversion Hexit as [s1 Hpull | u s1 Hpull Hge | u s1 s2 e' Hpull Hlt Hput]; subst;
      apply pull_spec in Hpull as [Hu Hs1]; rewrite Hcur in Hu; symmetry in Hu.
    + apply lookup_ge_None in Hu. lia.
    + rewrite Hs1 in Hge. simpl in Hge. lia.
    + apply put_spec in Hput. rewrite Hs1 in Hput. simpl in Hput.
      destruct (cb u (currentIndex sl)) as [p|e''] eqn:Hcb; destruct Hput as [Hr Hsf];
        [discriminate Hr|].
      assert (Heq : currentIndex sl = j).
      { destruct (Nat.eq_dec (currentIndex sl) j) as [Heq|Hne]; [exact Heq|].
        destruct (Hbefore (i := currentIndex sl) (u := u)) as [p Hp]; [lia | exact Hu|].
        congruence. }
      rewrite Heq in *. assert (u = v) by congruence. subst u.
      assert (Hee : e' = e) by congruence.
      rewrite Hsf. unfold thrown_at; simpl. rewrite Hpr, Hee. simpl.
      repeat split; try assumption; try lia.
Qed.

Lemma thrown_at_step (s s' : St) (ev : Event) :
  thrown_at j e s -> step backend pol source cb opts s ev = Some s' -> thrown_at j e s'.
Proof.
  intros (Hpr & Heng & Hci & Hrc & Hidx) Hstep.
  destruct (step_inv _ _ _ _ _ _ _ Hstep) as
    [(i & t & -> & Hl & Hp & ->) | [(i & t & -> & Hl & Hp & ->) |
    [(i & t & -> & Hl & Hp & ->) | [(-> & He & ->) | (-> & He & Ht & ->)]]]].
  - pose proof (weigh_set_phase uncounted _ Handled _ Hl) as Hw.
    rewrite Hp in Hw. simpl in Hw.
    destruct (lookup_task_Some _ _ Hl) as [_ Hti].
    unfold thrown_at, settle. rewrite Hti.
    destruct (t_promise t); [|destruct (failFast pol)]; simpl;
      rewrite ?Hpr; simpl; repeat split; try assumption; try lia.
    all: intros u Hu; apply In_set_phase in Hu as (w & Hw' & Hi & _);
      rewrite Hi; by apply Hidx.
  - pose proof (weigh_set_phase uncounted _ Counted _ Hl) as Hw.
    rewrite Hp in Hw. simpl in Hw.
    unfold thrown_at, finally; simpl. repeat split; try assumption; try lia.
    intros u Hu; apply In_set_phase in Hu as (w & Hw' & Hi & _).
    rewrite Hi; by apply Hidx.
  - pose proof (weigh_remove_task uncounted _ _ Hl) as Hw.
    rewrite Hp in Hw. simpl in Hw.
    unfold thrown_at, dequeue; simpl. rewrite Heng.
    repeat split; try assumption; try lia.
    intros u Hu. apply Hidx. by eapply In_remove_task.
  - congruence.
  - congruence.
Qed.

Lemma run_thrown (sched : list Event) :
  thrown_at j e (run backend pol source cb opts sched
                   (executor backend pol source cb opts)).
Proof.
  apply run_invariant; [intros s ev s'; apply thrown_at_step | apply executor_thrown].
Qed.

End SyncThrow.

(** When the work function throws [e] for item [j] of the pre-fill wave,
    the items before it having returned promises, the exception escapes the
    executor: both entry points are rejected with [e] at once and stay so;
    [next] is never registered, nothing is admitted for item [j] or after
    it, and the settled count never exceeds [j]. *)
Lemma sync_throw_in_prefill {T R E} (b : Backend) (cfg : Config)
    (source : list T) (cb : Callback T R E) (options : option IOptions.t)
    (j : nat) (v : T) (e : E) (sched : list Event) :
  let opts := getOptions cfg options in
  allocates b opts ->
  source !! j = Some v ->
  (Z.of_nat j < window opts)%Z ->
  cb v j = Throws e ->
  (forall i u, i < j -> source !! i = Some u -> exists p, cb u i = Returns p) ->
  thrown_at j e (runDependently b cfg source cb options sched) /\
  thrown_at j e (runIndependently b cfg source cb options sched).
Proof.
  intros opts Ha Hitem Hwin Hthrows Hbefore.
  split; eapply run_thrown; eauto.
Qed.

(** C4 fails: a synchronous throw of the work function is not folded in as
    a failed outcome.  [put] calls [cb] outside any [try], so the exception
    escapes the executor.  For the one-element source [7], the default
    options and a work function that throws 13, with either backend and
    whatever the event loop does: both entry points are rejected with 13, no
    task is admitted, the settled count stays 0 and nothing is recorded.
    Had the work function returned a promise rejected with 13 instead, the
    task would have been admitted and counted, and [runIndependently] would
    have resolved with [ok = false] and the error at index 0. *)
Theorem C4_sync_throw_escapes (b : Backend) (sched : list Event) :
  let events := whole_task 0 ++ [Next; Resolve] in
  let d := runDependently b config [7]%Z thrower None sched in
  let i := runIndependently b config [7]%Z thrower None sched in
  let d' := runDependently b config [7]%Z (normalized thrower) None events in
  let i' := runIndependently b config [7]%Z (normalized thrower) None events in
  (promise d = Rejected 13 /\ currentIndex d = 0 /\ tasks d = [] /\
   readyCount d = 0 /\ rejections d = []) /\
  (promise i = Rejected 13 /\ currentIndex i = 0 /\ tasks i = [] /\
   readyCount i = 0 /\ errors (out i) !! 0 = None /\ ok (out i) = true) /\
  (promise d' = Rejected 13 /\ currentIndex d' = 1 /\ readyCount d' = 1 /\
   rejections d' = [13]) /\
  (promise i' = Resolved /\ currentIndex i' = 1 /\ readyCount i' = 1 /\
   errors (out i') !! 0 = Some 13 /\ ok (out i') = false).
Proof.
  intros events d i d' i'.
  assert (Hd : d = runDependently b config [7]%Z thrower None []).
  { apply (quiescent_dependently b config [7]%Z thrower None [] sched).
    destruct b; vm_compute; reflexivity. }
  assert (Hi : i = runIndependently b config [7]%Z thrower None []).
  { apply (quiescent_independently b config [7]%Z thrower None [] sched).
    destruct b; vm_compute; reflexivity. }
  rewrite Hd, Hi. subst d' i' events. clear.
  destruct b; vm_compute; repeat split; reflexivity.
Qed.

(** ** The iterator backend at a cancellation *)






(** * Further properties of the engine *)

(** ** The entry points, whatever the work function does *)

(** X5: whatever the work function does and in whatever order the callbacks
    run, [onProgress], when it is given, has been called with 1, 2, ...,
    [readyCount], in this order and with nothing else, and it has not been
    called when it is not given; the settled count is the number of admitted
    work items less the tasks whose [finally] handler has not run, and the
    number of admitted work items never exceeds the length of the input. *)
Theorem onProgress_counts_up {T R E} (b : Backend) (cfg : Config)
    (source : list T) (cb : Callback T R E) (options : option IOptions.t)
    (sched : list Event) :
  let opts := getOptions cfg options in
  let d := runDependently b cfg source cb options sched in
  let i := runIndependently b cfg source cb options sched in
  (progress d = if onProgress opts then seq 1 (readyCount d) else []) /\
  (progress i = if onProgress opts then seq 1 (readyCount i) else []) /\
  readyCount d + weigh uncounted (tasks d) = currentIndex d /\
  readyCount i + weigh uncounted (tasks i) = currentIndex i /\
  currentIndex d <= length source /\ currentIndex i <= length source.
Proof.
  intros opts d i.
  pose proof (run_sound b (dependently R E) source cb opts sched) as HD.
  pose proof (run_sound b (independently R E) source cb opts sched) as HI.
  split; [apply (s_progress HD)|]. split; [apply (s_progress HI)|].
  split; [apply (s_ready HD)|]. split; [apply (s_ready HI)|].
  split; [apply (s_input HD) | apply (s_input HI)].
Qed.

(** X5, at a concrete input: three items, a window of two and an
    [onProgress], when two tasks have settled. *)
Lemma onProgress_counts_up_witness :
  let d := runDependently Iterated config [1; 2; 3]%Z double (cancel_from 5)
             (whole_task 1 ++ whole_task 0) in
  progress d = (if onProgress (getOptions config (cancel_from 5))
                then seq 1 (readyCount d) else []).
Proof.
  intros d.
  exact (proj1 (@onProgress_counts_up Z Z nat Iterated config [1; 2; 3]%Z double
                  (cancel_from 5) (whole_task 1 ++ whole_task 0))).
Defined.

(** X6: the iterator backend never reads far ahead.  Whatever the work
    function does, the number of elements pulled from the source is at least
    the number of admitted work items, at most two more, at most one more as
    long as [next] is still to run, and never more than the source holds. *)
Theorem iterator_reads_two_ahead {T R E} (cfg : Config)
    (source : list T) (cb : Callback T R E) (options : option IOptions.t)
    (sched : list Event) :
  let opts := getOptions cfg options in
  (0 <= window opts)%Z ->
  let d := runDependently Iterated cfg source cb options sched in
  let i := runIndependently Iterated cfg source cb options sched in
  (currentIndex d <= consumed d <= length source /\
   consumed d <= currentIndex d + 2 /\
   (engine d = Racing \/ engine d = Woken -> consumed d <= currentIndex d + 1)) /\
  (currentIndex i <= consumed i <= length source /\
   consumed i <= currentIndex i + 2 /\
   (engine i = Racing \/ engine i = Woken -> consumed i <= currentIndex i + 1)).
Proof.
  intros opts _ d i.
  pose proof (run_sound Iterated (dependently R E) source cb opts sched) as HD.
  pose proof (run_sound Iterated (independently R E) source cb opts sched) as HI.
  change (sound Iterated (dependently R E) source opts d) in HD.
  change (sound Iterated (independently R E) source opts i) in HI.
  split.
  - split; [apply (s_cursor HD)|]. split; [apply (s_ahead HD)|].
    intros He. pose proof (s_racing HD He). lia.
  - split; [apply (s_cursor HI)|]. split; [apply (s_ahead HI)|].
    intros He. pose proof (s_racing HI He). lia.
Qed.

(** X6, at a concrete input: five items and a window of two, when a
    cancelled [next] has run. *)
Lemma iterator_reads_two_ahead_witness :
  let d := runDependently Iterated config [1; 2; 3; 4; 5]%Z double always_canceled
             (whole_task 0 ++ [Next]) in
  (0 <= window (getOptions config always_canceled))%Z /\
  consumed d <= currentIndex d + 2.
Proof.
  intros d.
  assert (Ha : (0 <= window (getOptions config always_canceled))%Z)
    by (by vm_compute).
  split; [exact Ha|].
  exact (proj1 (proj2 (proj1
           (@iterator_reads_two_ahead Z Z nat config [1; 2; 3; 4; 5]%Z double
              always_canceled (whole_task 0 ++ [Next]) Ha)))).
Defined.

(** X7: when the promise has been resolved, every admitted task has been
    removed from the active set and counted, so the settled count is the
    number of admitted work items, and no callback runs any more: the state,
    and with it the result handed to the caller, never changes again. *)
Theorem resolved_is_final {T R E} (b : Backend) (cfg : Config)
    (source : list T) (cb : Callback T R E) (options : option IOptions.t)
    (sched sched' : list Event) :
  let opts := getOptions cfg options in
  let d := runDependently b cfg source cb options sched in
  let i := runIndependently b cfg source cb options sched in
  (promise d = Resolved ->
   tasks d = [] /\ readyCount d = currentIndex d /\
   runDependently b cfg source cb options (sched ++ sched') = d) /\
  (promise i = Resolved ->
   tasks i = [] /\ readyCount i = currentIndex i /\
   runIndependently b cfg source cb options (sched ++ sched') = i).
Proof.
  intros opts d i.
  pose proof (run_sound b (dependently R E) source cb opts sched) as HD.
  pose proof (run_sound b (independently R E) source cb opts sched) as HI.
  change (sound b (dependently R E) source opts d) in HD.
  change (sound b (independently R E) source opts i) in HI.
  split; intros Hr.
  - pose proof (s_resolved HD Hr) as He. pose proof (s_finished HD He) as Ht.
    pose proof (s_ready HD) as Hrc. rewrite Ht in Hrc.
    split; [exact Ht|]. split; [unfold weigh in Hrc; simpl in Hrc; lia|].
    unfold runDependently. rewrite run_app. apply quiescent_run.
    fold opts. change (quiescent d = true). unfold quiescent. by rewrite Ht, He.
  - pose proof (s_resolved HI Hr) as He. pose proof (s_finished HI He) as Ht.
    pose proof (s_ready HI) as Hrc. rewrite Ht in Hrc.
    split; [exact Ht|]. split; [unfold weigh in Hrc; simpl in Hrc; lia|].
    unfold runIndependently. rewrite run_app. apply quiescent_run.
    fold opts. change (quiescent i = true). unfold quiescent. by rewrite Ht, He.
Qed.

(** X7, at a concrete input: two items and a window of two, when both tasks
    have settled and the promise has been resolved. *)
Lemma resolved_is_final_witness :
  let d := runDependently Iterated config [1; 2]%Z double two_threads
             (whole_task 1 ++ whole_task 0 ++ [Next; Resolve]) in
  promise d = Resolved /\
  tasks d = [] /\ readyCount d = currentIndex d /\
  runDependently Iterated config [1; 2]%Z double two_threads
    ((whole_task 1 ++ whole_task 0 ++ [Next; Resolve]) ++ [Settle 0; Next]) = d.
Proof.
  intros d.
  assert (Hr : promise d = Resolved) by (vm_compute; reflexivity).
  split; [exact Hr|].
  exact (proj1 (@resolved_is_final Z Z nat Iterated config [1; 2]%Z double two_threads
                  (whole_task 1 ++ whole_task 0 ++ [Next; Resolve]) [Settle 0; Next])
               Hr).
Defined.

(** X8: once the promise has been rejected it stays rejected with the same
    error, and no further work item is ever admitted, whatever runs
    afterwards. *)
Theorem rejected_admits_nothing {T R E} (b : Backend) (cfg : Config)
    (source : list T) (cb : Callback T R E) (options : option IOptions.t)
    (e : E) (sched sched' : list Event) :
  let opts := getOptions cfg options in
  let d := runDependently b cfg source cb options sched in
  let d' := runDependently b cfg source cb options (sched ++ sched') in
  let i := runIndependently b cfg source cb options sched in
  let i' := runIndependently b cfg source cb options (sched ++ sched') in
  (promise d = Rejected e ->
   promise d' = Rejected e /\ currentIndex d' = currentIndex d) /\
  (promise i = Rejected e ->
   promise i' = Rejected e /\ currentIndex i' = currentIndex i).
Proof.
  intros opts d d' i i'.
  pose proof (run_sound b (dependently R E) source cb opts sched) as HD.
  pose proof (run_sound b (independently R E) source cb opts sched) as HI.
  split; intros Hr.
  - unfold d', runDependently. rewrite run_app. fold opts.
    change (run b (dependently R E) source cb opts sched
              (executor b (dependently R E) source cb opts)) with d.
    split.
    + rewrite settled_forever; [exact Hr | rewrite Hr; discriminate].
    + apply closed_forever. exact (s_rejected HD Hr).
  - unfold i', runIndependently. rewrite run_app. fold opts.
    change (run b (independently R E) source cb opts sched
              (executor b (independently R E) source cb opts)) with i.
    split.
    + rewrite settled_forever; [exact Hr | rewrite Hr; discriminate].
    + apply closed_forever. exact (s_rejected HI Hr).
Qed.

(** X8, at a concrete input: task 0 of four fails with a window of two. *)
Lemma rejected_admits_nothing_witness :
  let d := runDependently Iterated config [10; 11; 12; 13]%Z (async fails_on_even)
             two_threads [Settle 0] in
  let d' := runDependently Iterated config [10; 11; 12; 13]%Z (async fails_on_even)
              two_threads ([Settle 0] ++ [Finally 0; Dequeue 0; Next; Settle 1]) in
  promise d = Rejected 0 /\
  promise d' = Rejected 0 /\ currentIndex d' = currentIndex d.
Proof.
  intros d d'.
  assert (Hr : promise d = Rejected 0) by (vm_compute; reflexivity).
  split; [exact Hr|].
  exact (proj1 (@rejected_admits_nothing Z Z nat Iterated config [10; 11; 12; 13]%Z
                  (async fails_on_even) two_threads 0 [Settle 0]
                  [Finally 0; Dequeue 0; Next; Settle 1]) Hr).
Defined.

(** X9: every run ends.  A sequence of callbacks each of which is due when
    it runs is at most [4 N + 2] callbacks long, [N] being the length of the
    input; and whatever has run so far, at most [4 N + 2] further callbacks
    lead to a state in which no callback is due. *)
Theorem runs_are_short {T R E} (b : Backend) (cfg : Config)
    (source : list T) (cb : Callback T R E) (options : option IOptions.t)
    (sched : list Event) :
  let opts := getOptions cfg options in
  (forall s',
      exec b (dependently R E) source cb opts sched
        (runDependently b cfg source cb options []) = Some s' ->
      length sched <= 4 * length source + 2) /\
  (forall s',
      exec b (independently R E) source cb opts sched
        (runIndependently b cfg source cb options []) = Some s' ->
      length sched <= 4 * length source + 2) /\
  (exists sched',
      length sched' <= 4 * length source + 2 /\
      quiescent (runDependently b cfg source cb options (sched ++ sched')) = true) /\
  (exists sched',
      length sched' <= 4 * length source + 2 /\
      quiescent (runIndependently b cfg source cb options (sched ++ sched')) = true).
Proof.
  intros opts.
  split; [intros s'; apply exec_short|].
  split; [intros s'; apply exec_short|].
  split; apply run_completes_soon.
Qed.

(** X9, at a concrete input: two items, of which one has settled. *)
Lemma runs_are_short_witness :
  exists sched',
    length sched' <= 4 * 2 + 2 /\
    quiescent (runDependently Iterated config [1; 2]%Z double two_threads
                 (whole_task 0 ++ sched')) = true.
Proof.
  exact (proj1 (proj2 (proj2
           (@runs_are_short Z Z nat Iterated config [1; 2]%Z double two_threads
              (whole_task 0))))).
Defined.

(** X10: a work function that throws when [next] calls it, that is for an
    item after the pre-fill wave, is not caught either.  The exception ends
    the chain of [next]: no work item is admitted afterwards and [res] is
    never called.  The promise of [runIndependently] stays pending for ever;
    that of [runDependently] is never resolved. *)
Theorem throw_after_prefill_hangs {T R E} (b : Backend) (cfg : Config)
    (source : list T) (cb : Callback T R E) (options : option IOptions.t)
    (v : T) (e : E) (sched sched' : list Event) :
  let opts := getOptions cfg options in
  let d := runDependently b cfg source cb options sched in
  let d' := runDependently b cfg source cb options (sched ++ Next :: sched') in
  let i := runIndependently b cfg source cb options sched in
  let i' := runIndependently b cfg source cb options (sched ++ Next :: sched') in
  (engine i = Woken -> source !! cursor b i = Some v -> asked opts i = false ->
   cb v (currentIndex i) = Throws e ->
   promise i' = Pending /\ engine i' = Halted /\ currentIndex i' = currentIndex i) /\
  (engine d = Woken -> source !! cursor b d = Some v -> asked opts d = false ->
   throwed d = false -> cb v (currentIndex d) = Throws e ->
   promise d' <> Resolved /\ engine d' = Halted /\ currentIndex d' = currentIndex d).
Proof.
  intros opts d d' i i'.
  pose proof (run_sound b (dependently R E) source cb opts sched) as HD.
  pose proof (run_sound b (independently R E) source cb opts sched) as HI.
  split.
  - intros He Hv Hask Hthrows.
    destruct (@next_throws _ _ _ _ b (independently R E) source cb opts
                _ v e sched' HI He Hv Hask eq_refl Hthrows) as (Hh & Hci & _ & Hp).
    unfold i', runIndependently. rewrite run_app. fold opts.
    split; [by apply Hp|]. split; [exact Hh | exact Hci].
  - intros He Hv Hask Hthr Hthrows.
    destruct (@next_throws _ _ _ _ b (dependently R E) source cb opts
                _ v e sched' HD He Hv Hask) as (Hh & Hci & Hp & _).
    { change (failFast (dependently R E) && throwed d = false). by rewrite Hthr. }
    { exact Hthrows. }
    unfold d', runDependently. rewrite run_app. fold opts.
    split; [exact Hp|]. split; [exact Hh | exact Hci].
Qed.

(** X10, at a concrete input: the work function throws from index 2 on and
    the window is two; when task 0 has settled, [next] calls the work
    function for a third work item. *)
Lemma throw_after_prefill_hangs_witness :
  let i := runIndependently Iterated config [1; 2; 3; 4]%Z (throws_from 2) two_threads
             (whole_task 0) in
  let i' := runIndependently Iterated config [1; 2; 3; 4]%Z (throws_from 2) two_threads
              (whole_task 0 ++ Next :: whole_task 1 ++ [Next; Resolve]) in
  (engine i = Woken /\ [1; 2; 3; 4]%Z !! cursor Iterated i = Some 4%Z /\
   asked (getOptions config two_threads) i = false /\
   throws_from 2 4%Z (currentIndex i) = Throws 13) /\
  promise i' = Pending /\ engine i' = Halted /\ currentIndex i' = currentIndex i.
Proof.
  intros i i'.
  assert (He : engine i = Woken) by (vm_compute; reflexivity).
  assert (Hv : [1; 2; 3; 4]%Z !! cursor Iterated i = Some 4%Z) by (vm_compute; reflexivity).
  assert (Hask : asked (getOptions config two_threads) i = false)
    by (vm_compute; reflexivity).
  assert (Hthrows : throws_from 2 4%Z (currentIndex i) = Throws 13)
    by (vm_compute; reflexivity).
  split; [auto|].
  exact (proj1 (@throw_after_prefill_hangs Z Z nat Iterated config [1; 2; 3; 4]%Z
                  (throws_from 2) two_threads 4%Z 13 (whole_task 0)
                  (whole_task 1 ++ [Next; Resolve])) He Hv Hask Hthrows).
Defined.

(** X11: with a window that is not positive, which only a process-wide
    default that was set so can give, nothing is ever admitted: the work
    function is never called, no callback is ever due and the promise stays
    pending for ever, whatever the input is.  The iterator backend has
    pulled, and lost, the first element of a non-empty source. *)
Theorem empty_window_hangs {T R E} (b : Backend) (cfg : Config)
    (source : list T) (cb : Callback T R E) (options : option IOptions.t)
    (sched : list Event) :
  let opts := getOptions cfg options in
  allocates b opts -> (window opts <= 0)%Z ->
  let d := runDependently b cfg source cb options sched in
  let i := runIndependently b cfg source cb options sched in
  let pulled_ := match b with Indexed => 0 | Iterated => Nat.min 1 (length source) end in
  (promise d = Pending /\ currentIndex d = 0 /\ tasks d = [] /\
   quiescent d = true /\ consumed d = pulled_) /\
  (promise i = Pending /\ currentIndex i = 0 /\ tasks i = [] /\
   quiescent i = true /\ consumed i = pulled_).
Proof.
  intros opts Ha HW d i pulled_.
  destruct (executor_no_window b (dependently R E) source cb opts Ha HW)
    as (Hp & Hci & Ht & He & Hc).
  destruct (executor_no_window b (independently R E) source cb opts Ha HW)
    as (Hp' & Hci' & Ht' & He' & Hc').
  assert (Hd : d = executor b (dependently R E) source cb opts).
  { apply quiescent_run. unfold quiescent. by rewrite Ht, He. }
  assert (Hi : i = executor b (independently R E) source cb opts).
  { apply quiescent_run. unfold quiescent. by rewrite Ht', He'. }
  rewrite Hd, Hi. unfold quiescent. rewrite Ht, He, Ht', He'. auto 10.
Qed.

(** X11, at a concrete input: the default window set to 0 and no options. *)
Lemma empty_window_hangs_witness :
  let cfg := {| defaultThreads := 0 |} in
  let d := runDependently Iterated cfg [1; 2; 3]%Z double None
             (whole_task 0 ++ [Next; Resolve]) in
  allocates Iterated (getOptions cfg None) /\
  (window (getOptions cfg None) <= 0)%Z /\
  promise d = Pending /\ currentIndex d = 0 /\ tasks d = [] /\
  quiescent d = true /\ consumed d = Nat.min 1 (length [1; 2; 3]%Z).
Proof.
  intros cfg d.
  assert (Ha : allocates Iterated (getOptions cfg None)) by (by vm_compute).
  assert (Hw : (window (getOptions cfg None) <= 0)%Z) by (by vm_compute).
  split; [exact Ha|]. split; [exact Hw|].
  exact (proj1 (@empty_window_hangs Z Z nat Iterated cfg [1; 2; 3]%Z double None
                  (whole_task 0 ++ [Next; Resolve]) Ha Hw)).
Defined.

(** ** The bundle of [runIndependently] at every moment *)

(** X13: with a work function that returns promises, the bundle of
    [runIndependently] is consistent at every moment of the run, not only
    when it is handed over: [results] and [values] have the same length;
    [ok] is true exactly when [errors] is empty; [errors] has an error at
    an index exactly when [results] has this error there, and [values] a
    value exactly when [results] has this value there; and an error is
    recorded only at the index of an admitted work item whose promise was
    rejected with it, where [values] has a hole. *)
Theorem bundle_is_consistent {T R E} (b : Backend) (cfg : Config)
    (source : list T) (g : T -> nat -> Outcome R E)
    (options : option IOptions.t) (sched : list Event) :
  let opts := getOptions cfg options in
  allocates b opts ->
  let s := runIndependently b cfg source (async g) options sched in
  length (results (out s)) = length (values (out s)) /\
  (ok (out s) = true <-> errors (out s) = ∅) /\
  (forall i e, errors (out s) !! i = Some e <->
               results (out s) !! i = Some (Some (RError e))) /\
  (forall i r, values (out s) !! i = Some (Some r) <->
               results (out s) !! i = Some (Some (ROk r))) /\
  (forall i e, errors (out s) !! i = Some e ->
               i < currentIndex s /\
               promised b source g opts i = Some (Failed e) /\
               values (out s) !! i = Some None).
Proof.
  intros opts Ha s.
  pose proof (run_good b (independently_recorder (R:=R) (E:=E)) source g opts Ha sched)
    as G.
  change (good b (independently R E) rep_independently source g opts s) in G.
  destruct (g_out G) as (Hl1 & Hl2 & Hres & Hval & Herr & Hok).
  set (st := folded b source g opts s) in *.
  set (n := len b source opts s) in *.
  assert (Hn : currentIndex s <= n).
  { pose proof (g_admitted G). unfold n, len. destruct b; lia. }
  assert (Hst : forall i, st i <> None ->
                          i < currentIndex s /\ promised b source g opts i = st i).
  { intros i. unfold st, folded, folded_at.
    destruct (i <? currentIndex s) eqn:Hi; simpl; [|congruence].
    apply Nat.ltb_lt in Hi.
    destruct (is_running i (tasks s)); simpl; [congruence | auto]. }
  assert (Hcases : forall i, i < n \/ (n <= i /\ st i = None)).
  { intros i. destruct (Nat.lt_ge_cases i n) as [Hi|Hi]; [by left | right].
    split; [exact Hi|]. destruct (st i) eqn:Hsi; [|reflexivity].
    destruct (Hst i) as [Hlt _]; [congruence | lia]. }
  split; [congruence|]. split; [|split; [|split]].
  - rewrite Hok. split.
    + intros Hall. apply map_eq. intros i. by rewrite Herr, Hall, lookup_empty.
    + intros Hempty i. by rewrite <- Herr, Hempty, lookup_empty.
  - intros i e. rewrite Herr.
    destruct (Hcases i) as [Hi|[Hi Hnone]].
    + rewrite (Hres i Hi). destruct (st i) as [[r|e']|]; simpl;
        split; intros H; try discriminate; congruence.
    + rewrite Hnone. simpl. rewrite (proj2 (lookup_ge_None _ _)) by lia.
      split; discriminate.
  - intros i r.
    destruct (Hcases i) as [Hi|[Hi Hnone]].
    + rewrite (Hres i Hi), (Hval i Hi). destruct (st i) as [[r'|e']|]; simpl;
        split; intros H; try discriminate; congruence.
    + rewrite !(proj2 (lookup_ge_None _ _)) by lia. split; discriminate.
  - intros i e. rewrite Herr. intros He.
    assert (Hsi : st i = Some (Failed e)).
    { destruct (st i) as [[r'|e']|]; simpl in He; congruence. }
    destruct (Hst i) as [Hlt Hp]; [congruence|].
    split; [exact Hlt|]. split; [congruence|].
    rewrite Hval by lia. by rewrite Hsi.
Qed.

(** X13, at a concrete input: two items of which the first has failed. *)
Lemma bundle_is_consistent_witness :
  let s := runIndependently Iterated config [10; 11]%Z (async fails_on_even)
             two_threads [Settle 0] in
  allocates Iterated (getOptions config two_threads) /\
  (ok (out s) = true <-> errors (out s) = ∅) /\
  (errors (out s) !! 0 = Some 0 <-> results (out s) !! 0 = Some (Some (RError 0))).
Proof.
  intros s.
  assert (Ha : allocates Iterated (getOptions config two_threads)) by (by vm_compute).
  split; [exact Ha|].
  pose proof (@bundle_is_consistent Z Z nat Iterated config [10; 11]%Z fails_on_even
                two_threads [Settle 0] Ha) as (_ & Hok & Herr & _).
  split; [exact Hok | exact (Herr 0 0)].
Defined.

(** ** What the iterator backend returns *)

Lemma delete_past_end {A} (l : list A) (i : nat) :
  length l <= i -> delete i l = l.
Proof.
  intros Hi. apply list_eq. intros j.
  destruct (Nat.lt_ge_cases j i) as [Hj|Hj].
  - by rewrite list_lookup_delete_lt.
  - rewrite list_lookup_delete_ge by exact Hj.
    rewrite !(proj2 (lookup_ge_None _ _)); [reflexivity | lia | lia].
Qed.

Section Iterator.
Context {T R E O : Type}.
Variable pol : Policy R E O.
Variable Rep : (nat -> option (Outcome R E)) -> nat -> O -> Prop.
Hypothesis rec : Recorder pol Rep.
Variable source : list T.
Variable g : T -> nat -> Outcome R E.
Variable opts : Options.
Hypothesis Halloc : allocates Iterated opts.
Hypothesis Hcancel : forall c p rc, isCanceled opts = Some c -> c p rc = false.
Hypothesis Hfail :
  failFast pol = false \/
  forall i e, promised Iterated source g opts i <> Some (Failed e).

Abbreviation St := (State R E O).
Abbreviation start_ := (executor Iterated pol source (async g) opts).
Abbreviation run_ := (run Iterated pol source (async g) opts).
Abbreviation Wn := (Z.to_nat (window opts)).

(** Without cancellation and without a failure that stops the run, [next]
    stops only when the source is exhausted, and it has then pulled
    nothing. *)
Lemma drained_close (sched : list Event) :
  let s := run_ sched start_ in
  engine s = Draining \/ engine s = Finished ->
  consumed s <= S (currentIndex s).
Proof.
  intros s.
  assert (H : good Iterated pol Rep source g opts s /\
              (engine s = Draining \/ engine s = Finished ->
               consumed s <= S (currentIndex s))); [|tauto].
  apply (@run_invariant _ _ _ _ Iterated pol source (async g) opts
           (fun s => good Iterated pol Rep source g opts s /\
                     (engine s = Draining \/ engine s = Finished ->
                      consumed s <= S (currentIndex s)))).
  - clear s sched. intros s ev s' [G K] Hstep.
    split; [eapply good_step; eauto|].
    destruct (step_inv _ _ _ _ _ _ _ Hstep) as
      [(i & t & -> & Hl & Hp & ->) | [(i & t & -> & Hl & Hp & ->) |
      [(i & t & -> & Hl & Hp & ->) | [(-> & He & ->) | (-> & He & Ht & ->)]]]].
    + unfold settle. destruct (t_promise t); [|destruct (failFast pol)]; exact K.
    + exact K.
    + unfold dequeue; simpl. intros He. apply K.
      destruct (engine s); simpl in He; auto; destruct He; discriminate.
    + pose proof (next_cases Iterated pol source (async g) opts s)
        as [(_ & _ & _ & _ & _ & Hc & _) Hn].
      pose proof (g_cursor G) as Hcur. unfold cursor_ok in Hcur. rewrite He in Hcur.
      assert (Hask : asked opts s = false).
      { unfold asked. destruct (isCanceled opts) as [c|] eqn:Hic; [|reflexivity].
        by apply Hcancel. }
      assert (Hff : failFast pol && throwed s = false).
      { destruct Hfail as [->|Hok]; [reflexivity|].
        destruct (no_failure_no_rejection G Hok) as [_ ->]. apply andb_false_r. }
      rewrite Hask, Hff in Hn. unfold cursor, pulled in *. simpl in Hn.
      destruct (source !! consumed s) as [v|] eqn:Hv.
      * destruct Hn as (Hr & _). intros [H|H]; congruence.
      * destruct Hn as (_ & Hci & _). intros _. rewrite Hc, Hci. lia.
    + unfold resolve; simpl. intros _. apply K. by left.
  - destruct (executor_good Iterated rec source g opts Halloc)
      as (G0 & _ & _ & _ & He0 & _).
    split; [exact G0|]. intros [H|H]; congruence.
Qed.

(** The work items admitted by a run that has come to its end: all the
    elements of the source but the one at the position of the window. *)
Lemma iterated_admitted (sched : list Event) :
  source <> [] -> (1 <= window opts)%Z ->
  let s := run_ sched start_ in
  quiescent s = true ->
  currentIndex s = length (delete Wn source).
Proof.
  intros Hsrc HW s Hq.
  pose proof (run_good Iterated rec source g opts Halloc sched) as G. fold s in G.
  destruct (@final_state _ _ _ _ Iterated _ _ rec source g opts Halloc sched Hsrc HW Hq)
    as (He & _).
  fold s in He.
  pose proof (finished_exhausted G He Hcancel Hfail) as Hx. unfold cursor in Hx.
  pose proof (drained_close sched (or_intror He)) as Hk. fold s in Hk.
  pose proof (g_admitted G) as Hadm.
  destruct (Nat.lt_ge_cases Wn (length source)) as [Hlt|Hge].
  - rewrite length_delete by (by apply lookup_lt_is_Some).
    pose proof (@iterated_drops_an_item _ _ _ _ _ _ rec source g opts sched Halloc Hlt) as Hdrop.
    fold s in Hdrop. lia.
  - rewrite delete_past_end by lia. lia.
Qed.

Lemma sigma_delete (i : nat) :
  source !! sigma Iterated opts i = delete Wn source !! i.
Proof.
  unfold sigma. destruct (i <? Wn) eqn:Hi.
  - apply Nat.ltb_lt in Hi. by rewrite list_lookup_delete_lt.
  - apply Nat.ltb_ge in Hi. by rewrite list_lookup_delete_ge.
Qed.

End Iterator.

(** X3: what [runDependently] of the iterator backend returns.  With a
    non-empty source, a window [W] of at least one with which
    [new Array(threads)] succeeds, a work function all of whose promises are
    fulfilled and an [isCanceled] that never answers true, the promise is
    never rejected, the run can always be continued
    until no callback is due, and then the promise is resolved and [out]
    holds the results for the elements of the source without the one at
    position [W], in the order of the source and each computed with the
    index at which it stands in [out], followed by holes up to the length
    [W] when the source is shorter than the window. *)
Theorem runDependently_iterated_result {T R E} (cfg : Config) (source : list T)
    (f : T -> nat -> R) (options : option IOptions.t) (sched : list Event) :
  let opts := getOptions cfg options in
  let Wn := Z.to_nat (window opts) in
  source <> [] -> (1 <= window opts)%Z -> allocates Iterated opts ->
  (forall c p rc, isCanceled opts = Some c -> c p rc = false) ->
  let s := runDependently (E:=E) Iterated cfg source (succeeding f) options sched in
  (forall e, promise s <> Rejected e) /\
  (quiescent s = true ->
   promise s = Resolved /\
   out s = imap (fun i v => Some (f v i)) (delete Wn source) ++
           replicate (Wn - length source) None) /\
  exists sched',
    quiescent (runDependently (E:=E) Iterated cfg source (succeeding f) options
                 (sched ++ sched')) = true.
Proof.
  intros opts Wn Hsrc HW Ha Hc s.
  set (g := fun (v : T) (i : nat) => @Fulfilled R E (f v i)).
  pose proof (run_good Iterated (dependently_recorder (R:=R) (E:=E)) source g opts Ha sched)
    as G.
  change (good Iterated (dependently R E) rep_dependently source g opts s) in G.
  assert (Hok : forall i e, promised Iterated source g opts i <> Some (Failed e))
    by (intros i e; apply promised_succeeding).
  destruct (no_failure_no_rejection G Hok) as [Hrej _].
  split; [|split].
  - intros e. rewrite (g_settled G), Hrej. by destruct (engine s).
  - intros Hq.
    destruct (@final_state _ _ _ _ Iterated _ _ (dependently_recorder (R:=R) (E:=E))
                source g opts Ha sched Hsrc HW Hq)
      as (He & _ & Hp & _ & [Hlen Hcell] & _ & Hall).
    change (promise s = match rejections s with [] => Resolved | e :: _ => Rejected e end)
      in Hp.
    rewrite Hrej in Hp. split; [exact Hp|].
    pose proof (@iterated_admitted _ _ _ _ _ _ (dependently_recorder (R:=R) (E:=E))
                  source g opts Ha Hc (or_intror Hok) sched Hsrc HW Hq) as Hci.
    change (currentIndex s = length (delete Wn source)) in Hci.
    change (length (out s) = Nat.max Wn (currentIndex s)) in Hlen.
    change (forall i, i < Nat.max Wn (currentIndex s) ->
                      out s !! i = Some (value_cell (folded Iterated source g opts s i)))
      in Hcell.
    assert (Hmax : Nat.max Wn (currentIndex s) =
                   length (delete Wn source) + (Wn - length source)).
    { rewrite Hci. destruct (Nat.lt_ge_cases Wn (length source)) as [Hlt|Hge].
      - rewrite length_delete by (by apply lookup_lt_is_Some). lia.
      - rewrite delete_past_end by lia. lia. }
    apply list_eq. intros i.
    destruct (Nat.lt_ge_cases i (currentIndex s)) as [Hi|Hi].
    + rewrite Hcell by lia.
      destruct (Hall i Hi) as (o & Hpi & Hfi).
      change (folded Iterated source g opts s i = Some o) in Hfi. rewrite Hfi.
      unfold promised in Hpi. rewrite sigma_delete in Hpi.
      rewrite lookup_app_l by (rewrite length_imap; lia).
      rewrite list_lookup_imap.
      destruct (delete (Z.to_nat (window opts)) source !! i) as [v|] eqn:Hv;
        [|discriminate].
      change (delete Wn source !! i = Some v) in Hv. rewrite Hv.
      by injection Hpi as <-.
    + rewrite lookup_app_r by (rewrite length_imap; lia). rewrite length_imap.
      destruct (Nat.lt_ge_cases i (Nat.max Wn (currentIndex s))) as [Hlt|Hge].
      * rewrite Hcell by exact Hlt. unfold folded. rewrite folded_at_ge by exact Hi.
        simpl. symmetry. apply lookup_replicate_2. lia.
      * rewrite (proj2 (lookup_ge_None _ _)) by lia.
        symmetry. apply lookup_replicate_None. lia.
  - destruct (run_completes Iterated (dependently R E) source g opts s) as [sched' Hq].
    exists sched'. unfold runDependently. by rewrite run_app.
Qed.

(** X3, at a concrete input: four items and a window of two; the third
    item is lost. *)
Lemma runDependently_iterated_result_witness :
  let sched := whole_task 0 ++ Next :: whole_task 1 ++ Next :: whole_task 2 ++ [Resolve] in
  let f := fun (v : Z) (_ : nat) => (2 * v)%Z in
  let s := runDependently (E:=nat) Iterated config [1; 2; 3; 4]%Z (succeeding f)
             two_threads sched in
  ((1 <= window (getOptions config two_threads))%Z /\
   allocates Iterated (getOptions config two_threads) /\
   quiescent s = true) /\
  promise s = Resolved /\
  out s = imap (fun i v => Some (f v i))
            (delete (Z.to_nat (window (getOptions config two_threads))) [1; 2; 3; 4]%Z) ++
          replicate (Z.to_nat (window (getOptions config two_threads)) -
                     length [1; 2; 3; 4]%Z) None.
Proof.
  intros sched f s.
  assert (HW : (1 <= window (getOptions config two_threads))%Z) by (by vm_compute).
  assert (Ha : allocates Iterated (getOptions config two_threads)) by (by vm_compute).
  assert (Hq : quiescent s = true) by (vm_compute; reflexivity).
  split; [by repeat split|].
  refine (proj1 (proj2 (@runDependently_iterated_result Z Z nat config [1; 2; 3; 4]%Z
                          f two_threads sched _ HW Ha _)) Hq).
  - discriminate.
  - intros c p rc Hc. discriminate Hc.
Defined.

(** X4: what [runIndependently] of the iterator backend returns.  With a
    non-empty source, a window [W] of at least one with which
    [new Array(threads)] succeeds, a work function that returns promises
    and an [isCanceled] that never answers true, the promise is never
    rejected, the run can always be continued until no callback is due, and
    then the promise is resolved with a bundle for the
    elements of the source without the one at position [W]: as many work
    items have been admitted as there are such elements, [results] and
    [values] are as long as that or as the window, whichever is more, the
    bundle holds at every index the outcome of the element that stands
    there, [errors] has no key past them, and [ok] is false exactly when
    one of them failed. *)
Theorem runIndependently_iterated_bundle {T R E} (cfg : Config) (source : list T)
    (g : T -> nat -> Outcome R E) (options : option IOptions.t)
    (sched : list Event) :
  let opts := getOptions cfg options in
  let Wn := Z.to_nat (window opts) in
  source <> [] -> (1 <= window opts)%Z -> allocates Iterated opts ->
  (forall c p rc, isCanceled opts = Some c -> c p rc = false) ->
  let s := runIndependently Iterated cfg source (async g) options sched in
  let items := delete Wn source in
  (forall e, promise s <> Rejected e) /\
  (quiescent s = true ->
   promise s = Resolved /\
   currentIndex s = length items /\
   length (results (out s)) = Nat.max Wn (length items) /\
   length (values (out s)) = Nat.max Wn (length items) /\
   (forall i v, items !! i = Some v -> holds_independently (out s) i (g v i)) /\
   (forall i, length items <= i -> errors (out s) !! i = None) /\
   (ok (out s) = false <-> exists i v e, items !! i = Some v /\ g v i = Failed e)) /\
  exists sched',
    quiescent (runIndependently Iterated cfg source (async g) options
                 (sched ++ sched')) = true.
Proof.
  intros opts Wn Hsrc HW Ha Hc s items. subst s. unfold runIndependently. fold opts.
  set (s := run Iterated (independently R E) source (async g) opts sched _).
  split; [intros e; apply (runIndependently_never_rejects Iterated cfg source g options sched)|].
  split.
  - intros Hq.
    destruct (@final_independently _ _ _ Iterated source g opts sched Hsrc HW Ha Hq)
      as (He & Hp & Hl1 & Hl2 & Hall & Herr & Hok).
    fold s in He, Hp, Hl1, Hl2, Hall, Herr, Hok.
    pose proof (@iterated_admitted _ _ _ _ _ _ (independently_recorder (R:=R) (E:=E))
                  source g opts Ha Hc (or_introl eq_refl) sched Hsrc HW Hq) as Hci.
    change (currentIndex s = length items) in Hci.
    unfold len in Hl1, Hl2. rewrite Hci in *.
    split; [exact Hp|]. split; [reflexivity|]. split; [exact Hl1|]. split; [exact Hl2|].
    split; [|split; [exact Herr|split]].
    + intros i v Hv. apply lookup_lt_Some in Hv as Hlt.
      destruct (Hall i Hlt) as (p & Hpi & Hh).
      unfold promised in Hpi. rewrite sigma_delete in Hpi.
      change (match items !! i with Some v => Some (g v i) | None => None end = Some p)
        in Hpi.
      rewrite Hv in Hpi. by injection Hpi as <-.
    + intros Hf. apply Hok in Hf as (i & e & Hi & Hpi).
      unfold promised in Hpi. rewrite sigma_delete in Hpi.
      change (match items !! i with Some v => Some (g v i) | None => None end
              = Some (Failed e)) in Hpi.
      destruct (items !! i) as [v|] eqn:Hv; [|discriminate].
      exists i, v, e. split; [exact Hv | congruence].
    + intros (i & v & e & Hv & Hg). apply Hok. exists i, e.
      apply lookup_lt_Some in Hv as Hlt. split; [exact Hlt|].
      unfold promised. rewrite sigma_delete.
      change (match items !! i with Some v => Some (g v i) | None => None end
              = Some (Failed e)).
      by rewrite Hv, Hg.
  - destruct (run_completes Iterated (independently R E) source g opts s) as [sched' Hq].
    exists sched'. by rewrite run_app.
Qed.

(** X4, at a concrete input: four items and a window of two; the third item
    is lost and the item of index 2 is the fourth element. *)
Lemma runIndependently_iterated_bundle_witness :
  let sched := whole_task 0 ++ Next :: whole_task 1 ++ Next :: whole_task 2 ++ [Resolve] in
  let s := runIndependently Iterated config [10; 11; 12; 13]%Z (async fails_on_even)
             two_threads sched in
  ((1 <= window (getOptions config two_threads))%Z /\
   allocates Iterated (getOptions config two_threads) /\
   quiescent s = true) /\
  promise s = Resolved /\
  currentIndex s =
    length (delete (Z.to_nat (window (getOptions config two_threads)))
              [10; 11; 12; 13]%Z).
Proof.
  intros sched s.
  assert (HW : (1 <= window (getOptions config two_threads))%Z) by (by vm_compute).
  assert (Ha : allocates Iterated (getOptions config two_threads)) by (by vm_compute).
  assert (Hq : quiescent s = true) by (vm_compute; reflexivity).
  split; [by repeat split|].
  pose proof (@runIndependently_iterated_bundle Z Z nat config [10; 11; 12; 13]%Z
                fails_on_even two_threads sched) as H.
  destruct H as (_ & H & _).
  - discriminate.
  - exact HW.
  - exact Ha.
  - intros c p rc Hc. discriminate Hc.
  - destruct (H Hq) as (Hp & Hci & _). split; [exact Hp | exact Hci].
Defined.

(** ** A window as wide as the array *)

Section Wide.
Context {T R E O : Type}.
Variable pol : Policy R E O.
Variable source : list T.
Variable cb : Callback T R E.
Variables opts opts' : Options.
Hypothesis Hcancel : isCanceled opts = isCanceled opts'.
Hypothesis Hprogress : onProgress opts = onProgress opts'.
Hypothesis Hwide : (Z.of_nat (length source) <= window opts)%Z.
Hypothesis Hwide' : (Z.of_nat (length source) <= window opts')%Z.

Lemma prefill_wide (fuel : nat) (s : State R E O) :
  prefill Indexed pol source cb opts fuel s =
  prefill Indexed pol source cb opts' fuel s.
Proof.
  revert s. induction fuel as [|fuel IH]; intros s; simpl; [reflexivity|].
  destruct (source !! currentIndex s) as [v|] eqn:Hv; [|reflexivity].
  apply lookup_lt_Some in Hv.
  rewrite !below_window. rewrite !(proj2 (Z.ltb_lt _ _)) by lia.
  destruct (put Indexed pol cb v s) as [s2 [e|]]; [reflexivity | apply IH].
Qed.

Lemma step_wide (s : State R E O) (ev : Event) :
  step Indexed pol source cb opts s ev = step Indexed pol source cb opts' s ev.
Proof.
  destruct ev as [i|i|i| |]; simpl; try reflexivity.
  - unfold finally. by rewrite Hprogress.
  - unfold next, poll. by rewrite Hcancel.
Qed.

Lemma run_wide (sched : list Event) (s : State R E O) :
  run Indexed pol source cb opts sched s = run Indexed pol source cb opts' sched s.
Proof.
  unfold run. revert s. induction sched as [|ev sched IH]; intros s; simpl;
    [reflexivity|].
  unfold fire at 2 4. rewrite step_wide. apply IH.
Qed.

Lemma executor_wide :
  executor Indexed pol source cb opts = executor Indexed pol source cb opts'.
Proof.
  unfold executor. rewrite prefill_wide. reflexivity.
Qed.

End Wide.

(** X14: for the array backend a window that is at least as long as the
    array is as good as any other such window.  Two calls on the same array
    with the same work function, the same [isCanceled] and the same
    [onProgress], each with a window of at least the length of the array,
    go through the same states, whatever the work function does and in
    whatever order the callbacks run. *)
Theorem wide_windows_agree {T R E} (cfg cfg' : Config) (source : list T)
    (cb : Callback T R E) (options options' : option IOptions.t)
    (sched : list Event) :
  let opts := getOptions cfg options in
  let opts' := getOptions cfg' options' in
  isCanceled opts = isCanceled opts' ->
  onProgress opts = onProgress opts' ->
  (Z.of_nat (length source) <= window opts)%Z ->
  (Z.of_nat (length source) <= window opts')%Z ->
  runDependently Indexed cfg source cb options sched =
    runDependently Indexed cfg' source cb options' sched /\
  runIndependently Indexed cfg source cb options sched =
    runIndependently Indexed cfg' source cb options' sched.
Proof.
  intros opts opts' Hc Hp HW HW'. unfold runDependently, runIndependently.
  fold opts opts'.
  rewrite (executor_wide (dependently R E) source cb opts opts' HW HW').
  rewrite (executor_wide (independently R E) source cb opts opts' HW HW').
  split; by apply run_wide.
Qed.

(** X14, at a concrete input: three items, with the default window of four
    and with a window of seven. *)
Lemma wide_windows_agree_witness :
  let seven := Some (IOptions.Build (JsNumber 7) None false) in
  let sched := whole_task 2 ++ whole_task 0 in
  runDependently Indexed config [1; 2; 3]%Z double None sched =
    runDependently Indexed config [1; 2; 3]%Z double seven sched /\
  runIndependently Indexed config [1; 2; 3]%Z double None sched =
    runIndependently Indexed config [1; 2; 3]%Z double seven sched.
Proof.
  intros seven sched.
  apply (@wide_windows_agree Z Z nat config config [1; 2; 3]%Z double None seven sched).
  - reflexivity.
  - reflexivity.
  - by vm_compute.
  - by vm_compute.
Defined.

(** ** The two entry points side by side *)

Section Lockstep.
Context {T R E : Type}.
Variable b : Backend.
Variable source : list T.
Variable f : T -> nat -> R.
Variable opts : Options.

Abbreviation D := (dependently R E).
Abbreviation I := (independently R E).
Abbreviation cb := (succeeding (E:=E) f).
Abbreviation g := (fun (v : T) (i : nat) => @Fulfilled R E (f v i)).
Abbreviation fulfilled s :=
  (throwed s = false /\
   forall t : Task R E, In t (tasks s) -> exists r, t_promise t = Fulfilled r).

Lemma pull_view (s : State R E (Independent R E)) :
  pull b source (values_view s) =
  (fst (pull b source s), values_view (snd (pull b source s))).
Proof.
  unfold pull. destruct b; simpl; [reflexivity|].
  by destruct (source !! consumed s).
Qed.

Lemma put_view (v : T) (s : State R E (Independent R E)) :
  put b D cb v (values_view s) =
  (values_view (fst (put b I cb v s)), snd (put b I cb v s)).
Proof. unfold put. by destruct b. Qed.

Lemma prefill_view (fuel : nat) (s : State R E (Independent R E)) :
  prefill b D source cb opts fuel (values_view s) =
  (values_view (fst (prefill b I source cb opts fuel s)),
   snd (prefill b I source cb opts fuel s)).
Proof.
  revert s. induction fuel as [|fuel IH]; intros s; cbn [prefill]; [reflexivity|].
  rewrite pull_view. destruct (pull b source s) as [[v|] s1]; cbn [fst snd];
    [|reflexivity].
  change (currentIndex (values_view s1)) with (currentIndex s1).
  destruct (below (currentIndex s1) (threads opts)); [|reflexivity].
  rewrite put_view. destruct (put b I cb v s1) as [s2 [e|]]; cbn [fst snd];
    [reflexivity | apply IH].
Qed.

Lemma executor_view :
  executor b D source cb opts = values_view (executor b I source cb opts).
Proof.
  unfold executor.
  change (initial b D source opts) with (values_view (initial b I source opts)).
  destruct (outLength b source opts); [|reflexivity].
  rewrite prefill_view.
  destruct (prefill b I source cb opts (S (length source)) (initial b I source opts))
    as [s [e|]]; simpl; [reflexivity|].
  by destruct (throwed s).
Qed.

Lemma poll_view (s : State R E (Independent R E)) :
  poll opts (values_view s) = (fst (poll opts s), values_view (snd (poll opts s))).
Proof. unfold poll. by destruct (isCanceled opts). Qed.

Lemma poll_throwed (s : State R E (Independent R E)) :
  throwed (snd (poll opts s)) = throwed s.
Proof. unfold poll. by destruct (isCanceled opts). Qed.

Lemma next_view (s : State R E (Independent R E)) :
  throwed s = false ->
  next b D source cb opts (values_view s) = values_view (next b I source cb opts s).
Proof.
  intros Hthr. unfold next. rewrite pull_view.
  destruct (pull b source s) as [it s1] eqn:Hpull. cbn [fst snd].
  apply pull_spec in Hpull as [_ Hs1].
  assert (Hthr1 : throwed s1 = false) by (by rewrite Hs1).
  rewrite poll_view. pose proof (poll_throwed s1) as Hthr2.
  destruct (poll opts s1) as [c s2]. cbn [fst snd] in *.
  destruct it as [v|]; [|reflexivity].
  change (throwed (values_view s2)) with (throwed s2).
  rewrite Hthr2, Hthr1.
  change (failFast D) with true. change (failFast I) with false.
  cbn [andb]. destruct c; cbn [orb]; [reflexivity|].
  rewrite put_view. by destruct (put b I cb v s2) as [s3 [e|]].
Qed.

Lemma step_view (s : State R E (Independent R E)) (ev : Event) :
  fulfilled s ->
  step b D source cb opts (values_view s) ev =
  option_map values_view (step b I source cb opts s ev).
Proof.
  intros [Hthr Hful]. destruct ev as [i|i|i| |]; cbn [step].
  - change (tasks (values_view s)) with (tasks s).
    destruct (lookup_task i (tasks s)) as [t|] eqn:Hl; [|reflexivity].
    destruct (lookup_task_Some _ _ Hl) as [Hin _].
    destruct (Hful t Hin) as [r Hr].
    destruct (t_phase t); try reflexivity. cbn [option_map]. f_equal.
    unfold settle. by rewrite Hr.
  - change (tasks (values_view s)) with (tasks s).
    destruct (lookup_task i (tasks s)) as [t|]; [|reflexivity].
    by destruct (t_phase t).
  - change (tasks (values_view s)) with (tasks s).
    destruct (lookup_task i (tasks s)) as [t|]; [|reflexivity].
    by destruct (t_phase t).
  - change (engine (values_view s)) with (engine s).
    destruct (engine s); try reflexivity. cbn [option_map]. f_equal.
    by apply next_view.
  - change (engine (values_view s)) with (engine s).
    change (tasks (values_view s)) with (tasks s).
    destruct (engine s); try reflexivity. by destruct (tasks s).
Qed.

Lemma run_fulfilled (sched : list Event) :
  fulfilled (run b I source cb opts sched (executor b I source cb opts)).
Proof.
  destruct (allocates_dec b opts) as [Ha|Hn];
    [|rewrite crashed_run by exact Hn; split; [reflexivity | intros t []]].
  pose proof (run_good b (independently_recorder (R:=R) (E:=E)) source g opts Ha sched)
    as G.
  set (s := run _ _ _ _ _ _ _) in *.
  assert (Hok : forall i e, promised b source g opts i <> Some (Failed e))
    by (intros i e; apply promised_succeeding).
  destruct (no_failure_no_rejection G Hok) as [_ Hthr].
  split; [exact Hthr|].
  intros t Hin. pose proof (g_promise G t Hin) as Hp. unfold promised in Hp.
  destruct (source !! sigma b opts (t_index t)) as [v|]; [|discriminate].
  injection Hp as <-. by eexists.
Qed.

Lemma run_view (sched : list Event) :
  run b D source cb opts sched (executor b D source cb opts) =
  values_view (run b I source cb opts sched (executor b I source cb opts)).
Proof.
  induction sched as [|ev sched IH] using rev_ind.
  - apply executor_view.
  - rewrite !run_app, IH. simpl. unfold fire.
    rewrite step_view by apply run_fulfilled.
    by destruct (step b I source cb opts _ ev).
Qed.

End Lockstep.

(** X12: with a work function all of whose promises are fulfilled, the two
    entry points go through the same states, callback for callback: at
    every moment the state of [runDependently] is that of
    [runIndependently] with [values] in the place of the bundle, so the
    same work items are admitted, the same counts reported, the promises
    settle together, and [values] is what [runDependently] resolves to.
    The bundle has [ok] true and no error, and [results] holds the entries
    of [values], each marked as a success. *)
Theorem values_are_the_dependent_result {T R E} (b : Backend) (cfg : Config)
    (source : list T) (f : T -> nat -> R) (options : option IOptions.t)
    (sched : list Event) :
  let opts := getOptions cfg options in
  allocates b opts ->
  let d := runDependently (E:=E) b cfg source (succeeding f) options sched in
  let i := runIndependently (E:=E) b cfg source (succeeding f) options sched in
  d = values_view i /\
  ok (out i) = true /\ errors (out i) = ∅ /\
  results (out i) = (fun x : option R => @ROk R E <$> x) <$> values (out i).
Proof.
  intros opts Ha d i. split; [apply run_view|].
  set (g := fun (v : T) (j : nat) => @Fulfilled R E (f v j)).
  pose proof (run_good b (independently_recorder (R:=R) (E:=E)) source g opts Ha sched)
    as G.
  change (good b (independently R E) rep_independently source g opts i) in G.
  destruct (g_out G) as (Hl1 & Hl2 & Hres & Hval & Herr & Hok).
  set (st := folded b source g opts i) in *.
  set (n := len b source opts i) in *.
  assert (Hst : forall j, st j = None \/ exists r, st j = Some (Fulfilled r)).
  { intros j. unfold st, folded, folded_at.
    destruct ((j <? currentIndex i) && negb (is_running j (tasks i))); [|by left].
    unfold promised. destruct (source !! sigma b opts j) as [v|]; [|by left].
    right. by eexists. }
  assert (Hnone : forall j, error_cell (st j) = None).
  { intros j. by destruct (Hst j) as [->|[r ->]]. }
  split; [by apply Hok|]. split.
  - apply map_eq. intros j. by rewrite Herr, Hnone, lookup_empty.
  - apply list_eq. intros j. rewrite list_lookup_fmap.
    destruct (Nat.lt_ge_cases j n) as [Hj|Hj].
    + rewrite (Hres j Hj), (Hval j Hj). by destruct (Hst j) as [->|[r ->]].
    + by rewrite !(proj2 (lookup_ge_None _ _)) by lia.
Qed.

(** X12, at a concrete input: three items and a window of two, when the
    second task has settled. *)
Lemma values_are_the_dependent_result_witness :
  let f := fun (v : Z) (_ : nat) => (2 * v)%Z in
  let sched := whole_task 1 ++ [Next] in
  allocates Iterated (getOptions config two_threads) /\
  runDependently (E:=nat) Iterated config [1; 2; 3]%Z (succeeding f) two_threads sched =
  values_view
    (runIndependently (E:=nat) Iterated config [1; 2; 3]%Z (succeeding f) two_threads
       sched).
Proof.
  intros f sched.
  assert (Ha : allocates Iterated (getOptions config two_threads)) by (by vm_compute).
  split; [exact Ha|].
  exact (proj1 (@values_are_the_dependent_result Z Z nat Iterated config [1; 2; 3]%Z
                  f two_threads sched Ha)).
Defined.

(** ** The calls of [isCanceled] *)

Section Polls.
Context {T R E O : Type}.
Variable backend : Backend.
Variable pol : Policy R E O.
Variable source : list T.
Variable cb : Callback T R E.
Variable opts : Options.

Abbreviation St := (State R E O).
Abbreviation start_ := (executor backend pol source cb opts).

(** The pre-fill loop does not call [isCanceled]. *)
Lemma executor_polls : polls start_ = 0.
Proof.
  destruct (executor_start backend pol source cb opts) as [H _]. exact H.
Qed.

(** Every run of [next] calls [isCanceled] once, and nothing else calls
    it. *)
Lemma exec_polls (sched : list Event) (s s' : St) :
  exec backend pol source cb opts sched s = Some s' ->
  polls s' = polls s + match isCanceled opts with
                       | Some _ => boundaries sched
                       | None => 0
                       end.
Proof.
  revert s. induction sched as [|ev sched IH]; simpl; intros s Hex.
  - injection Hex as ->. unfold boundaries. simpl. destruct (isCanceled opts); lia.
  - destruct (step backend pol source cb opts s ev) as [s1|] eqn:Hstep;
      [|discriminate].
    rewrite (IH _ Hex).
    destruct (step_inv _ _ _ _ _ _ _ Hstep) as
      [(i & t & -> & Hl & Hp & ->) | [(i & t & -> & Hl & Hp & ->) |
      [(i & t & -> & Hl & Hp & ->) | [(-> & He & ->) | (-> & He & Ht & ->)]]]];
      unfold boundaries; simpl.
    + unfold settle. destruct (t_promise t); [|destruct (failFast pol)]; reflexivity.
    + reflexivity.
    + reflexivity.
    + pose proof (next_cases backend pol source cb opts s)
        as [(_ & _ & _ & _ & _ & _ & Hpo) _].
      rewrite Hpo. destruct (isCanceled opts); lia.
    + reflexivity.
Qed.

End Polls.

(** X15: [isCanceled], when it is given, is called exactly once by every run
    of [next], also when the input is exhausted or a failure has been
    observed, and by nothing else: not by the pre-fill loop, and not by the
    handlers of the tasks.  After callbacks that were due one after the
    other, the number of its calls is the number of runs of [next] among
    them. *)
Theorem isCanceled_once_per_next {T R E} (b : Backend) (cfg : Config)
    (source : list T) (cb : Callback T R E) (options : option IOptions.t)
    (sched : list Event) :
  let opts := getOptions cfg options in
  let calls := match isCanceled opts with
               | Some _ => boundaries sched
               | None => 0
               end in
  (forall s',
      exec b (dependently R E) source cb opts sched
        (runDependently b cfg source cb options []) = Some s' ->
      polls s' = calls) /\
  (forall s',
      exec b (independently R E) source cb opts sched
        (runIndependently b cfg source cb options []) = Some s' ->
      polls s' = calls).
Proof.
  intros opts calls. split; intros s' Hex.
  - apply exec_polls in Hex. rewrite Hex.
    change (polls (runDependently b cfg source cb options []))
      with (polls (executor b (dependently R E) source cb opts)).
    by rewrite executor_polls.
  - apply exec_polls in Hex. rewrite Hex.
    change (polls (runIndependently b cfg source cb options []))
      with (polls (executor b (independently R E) source cb opts)).
    by rewrite executor_polls.
Qed.

(** X15, at a concrete input: five items, a window of two and an
    [isCanceled] that answers true from the second settlement on; [next]
    runs twice. *)
Lemma isCanceled_once_per_next_witness :
  let sched := whole_task 0 ++ Next :: whole_task 1 ++ [Next] in
  let opts := getOptions config (cancel_from 2) in
  let s' := runDependently Iterated config [1; 2; 3; 4; 5]%Z double (cancel_from 2) sched in
  exec Iterated (dependently Z nat) [1; 2; 3; 4; 5]%Z double opts sched
    (runDependently Iterated config [1; 2; 3; 4; 5]%Z double (cancel_from 2) [])
    = Some s' /\
  polls s' = match isCanceled opts with
             | Some _ => boundaries sched
             | None => 0
             end.
Proof.
  intros sched opts s'.
  assert (Hex : exec Iterated (dependently Z nat) [1; 2; 3; 4; 5]%Z double opts sched
                  (runDependently Iterated config [1; 2; 3; 4; 5]%Z double
                     (cancel_from 2) []) = Some s')
    by (vm_compute; reflexivity).
  split; [exact Hex|].
  exact (proj1 (@isCanceled_once_per_next Z Z nat Iterated config [1; 2; 3; 4; 5]%Z
                  double (cancel_from 2) sched) s' Hex).
Defined.

(** ** The length of the result and its holes *)


